(** * mandelbrotFun: the deep-zoom arithmetic kernel and the escape-time loop

    A shallow embedding of the numerical core of the Mandelbrot explorer:
    - [ComplexMath.js]   (CPU reference iteration, screen mapping),
    - [colorSchemes.js]  (colour conversions),
    - [FractalState.js]  (state validation, undo history),
    - [WebGLRenderer.js] (uniform marshalling, coordinate splitting),
    - [shaders.js]       (the fragment shader with the double-double kernel),
    - [ControlPanel.js]  (the bookmark manager).

    Numbers are IEEE-754 floats, modelled with the Standard Library's
    executable specification [SpecFloat]: a JavaScript [number] is a
    binary64 value, a GLSL [highp float] is a binary32 value, and every
    arithmetic operator is the correctly rounded (round-to-nearest-even)
    operation of its format; [length] and [dot] are computed with those
    operators.  Transcendental built-ins ([log], [atan], [pow], [cos],
    [sin]) are not fixed by either language and are kept as parameters of
    the development.  Loop counters and iteration caps of the CPU code are
    natural numbers.

    The first part holds the definitions, the second part the lemmas:
    rounding to nearest on integers and Knuth's TwoSum, the link between
    [SpecFloat]'s addition and that rounding, then the properties of the
    kernel, of the state validation and of the per-pixel loop, and last
    the comparisons, the state object with its history and bookmarks, the
    CPU iteration and the colour conversions. *)

From Stdlib Require Import ZArith QArith Qpower Bool List Lia SpecFloat.
From Stdlib Require Ascii String DecimalString.
Import ListNotations.
Local Open Scope Z_scope.

(** ** Floating-point formats *)

Definition is_finite (x : spec_float) : bool :=
  match x with
  | S754_zero _ | S754_finite _ _ _ => true
  | _ => false
  end.

(** The rational number denoted by a finite float (0 for the others). *)
Definition SF2Q (x : spec_float) : Q :=
  match x with
  | S754_finite s m e => (inject_Z (cond_Zopp s (Zpos m)) * Qpower 2 e)%Q
  | _ => 0%Q
  end.

(** ** Round-to-nearest-even on integers

    A finite float of precision [p] whose smallest subnormal is the unit is
    an integer [m * 2^e] with [|m| < 2^p] and [e >= 0]. *)
Module Rounding.
(** The exponent of the unit in the last place of [x]. *)
Definition cexp (p x : Z) : Z := Z.max 0 (Z.log2 (Z.abs x) + 1 - p).

(** The integer nearest to [x / 2^k], ties to even. *)
Definition rne_div (x k : Z) : Z :=
  let q := x / 2 ^ k in
  match 2 * (x mod 2 ^ k) ?= 2 ^ k with
  | Lt => q
  | Eq => if Z.even q then q else q + 1
  | Gt => q + 1
  end.

(** Rounding of an integer to precision [p]. *)
Definition rnd (p x : Z) : Z := rne_div x (cexp p x) * 2 ^ cexp p x.

(** [x] is representable with precision [p]. *)
Definition in_format (p x : Z) : Prop := (2 ^ cexp p x | x).
End Rounding.

(** ** Reading [SpecFloat] numbers as integers

    In a format [(prec, emax)] every finite number is an integer multiple
    of the smallest subnormal [2^emin]. *)
Module FloatValue.
(** The value of a finite float in units of [2^emin] (0 for the others). *)
Definition Zval (prec emax : Z) (x : spec_float) : Z :=
  match x with
  | S754_finite s m e => cond_Zopp s (Zpos m) * 2 ^ (e - emin prec emax)
  | _ => 0
  end.

(** The invariant of [shr]: after [k] one-bit shifts of [m] the record holds
    the quotient, the bit just shifted out and whether anything below it
    was not zero. *)
Definition shr_state (m k : Z) (mrs : shr_record) : Prop :=
  0 <= shr_m mrs
  /\ exists u,
       2 * m = (2 * shr_m mrs + Z.b2z (shr_r mrs)) * 2 ^ k + u
       /\ 0 <= u < 2 ^ k
       /\ shr_s mrs = negb (u =? 0).

(** The second half of [binary_round_aux]: renormalise the rounded
    mantissa and test for overflow. *)
Definition round_finish (prec emax : Z) (s : bool) (m1 e1 : Z) : spec_float :=
  let '(mrs, e2) := shr_fexp prec emax m1 e1 loc_Exact in
  match shr_m mrs with
  | Z0 => S754_zero s
  | Zpos m => if e2 <=? emax - prec then S754_finite s m e2 else S754_infinity s
  | Zneg _ => S754_nan
  end.
End FloatValue.

(** Binary64: the JavaScript [number]. *)
Module F64.
Definition prec := 53.
Definition emax := 1024.
Definition t := spec_float.
Definition valid (x : t) : bool := valid_binary prec emax x.
Definition add : t -> t -> t := SFadd prec emax.
Definition sub : t -> t -> t := SFsub prec emax.
Definition mul : t -> t -> t := SFmul prec emax.
Definition div : t -> t -> t := SFdiv prec emax.
Definition sqrt : t -> t := SFsqrt prec emax.
Definition abs : t -> t := SFabs.
Definition ltb : t -> t -> bool := SFltb.
Definition leb : t -> t -> bool := SFleb.
Definition eqb : t -> t -> bool := SFeqb.
(** [a > b] and [a >= b] as the source writes them. *)
Definition gtb (a b : t) : bool := ltb b a.
Definition geb (a b : t) : bool := leb b a.
(** The float nearest to the dyadic [m * 2^e]. *)
Definition of_dyadic (m e : Z) : t := binary_normalize prec emax m e false.
Definition of_Z (n : Z) : t := of_dyadic n 0.
(** A decimal literal [n / 10^k], correctly rounded. *)
Definition of_decimal (n : Z) (k : positive) : t :=
  div (of_Z n) (of_Z (Z.pow_pos 10 k)).
Definition zero : t := S754_zero false.
(** The binary64 number with the value of a binary32 one (exact). *)
Definition of_F32 (x : spec_float) : t :=
  match x with
  | S754_finite s m e => binary_round prec emax s m e
  | _ => x
  end.
End F64.

(** Binary32: the GLSL [highp float] of the fragment shader. *)
Module F32.
Definition prec := 24.
Definition emax := 128.
Definition t := spec_float.
Definition valid (x : t) : bool := valid_binary prec emax x.
Definition add : t -> t -> t := SFadd prec emax.
Definition sub : t -> t -> t := SFsub prec emax.
Definition mul : t -> t -> t := SFmul prec emax.
Definition div : t -> t -> t := SFdiv prec emax.
Definition sqrt : t -> t := SFsqrt prec emax.
Definition abs : t -> t := SFabs.
Definition opp : t -> t := SFopp.
Definition ltb : t -> t -> bool := SFltb.
Definition leb : t -> t -> bool := SFleb.
Definition gtb (a b : t) : bool := ltb b a.
Definition geb (a b : t) : bool := leb b a.
Definition of_dyadic (m e : Z) : t := binary_normalize prec emax m e false.
Definition of_Z (n : Z) : t := of_dyadic n 0.
Definition of_decimal (n : Z) (k : positive) : t :=
  div (of_Z n) (of_Z (Z.pow_pos 10 k)).
Definition zero : t := S754_zero false.
(** The value of a finite number in units of the smallest subnormal,
    [2^-149]. *)
Definition units (x : t) : Z := FloatValue.Zval prec emax x.
Definition one : t := of_Z 1.
Definition two : t := of_Z 2.
(** GLSL [min]: [y < x ? y : x]. *)
Definition min (x y : t) : t := if ltb y x then y else x.
(** Conversion of a host number on upload ([gl.uniform1f]): the binary64
    value is rounded to the nearest binary32 value. *)
Definition of_F64 (x : F64.t) : t :=
  match x with
  | S754_finite s m e => binary_round prec emax s m e
  | _ => x
  end.
End F32.

(** ** ComplexMath.js *)

(** The [Math] functions the host code calls and that IEEE-754 does not
    define. *)
Record JsMath := {
  Math_log : F64.t -> F64.t;
  Math_atan2 : F64.t -> F64.t -> F64.t;
  Math_pow : F64.t -> F64.t -> F64.t;
  Math_cos : F64.t -> F64.t;
  Math_sin : F64.t -> F64.t
}.

Module ComplexMath.
Section WithMath.
Variable M : JsMath.

Definition complex := (F64.t * F64.t)%type.

Definition lit_2 := F64.of_Z 2.
Definition lit_4 := F64.of_Z 4.
Definition lit_256 := F64.of_Z 256.
Definition lit_0_01 := F64.of_decimal 1 2.

Definition complexPower (z : complex) (n : F64.t) : complex :=
  let '(x, y) := z in
  if F64.ltb (F64.abs (F64.sub n lit_2)) lit_0_01 then
    (F64.sub (F64.mul x x) (F64.mul y y), F64.mul (F64.mul lit_2 x) y)
  else
    let r := F64.sqrt (F64.add (F64.mul x x) (F64.mul y y)) in
    if F64.eqb r F64.zero then (F64.zero, F64.zero)
    else
      let theta := Math_atan2 M y x in
      let newR := Math_pow M r n in
      let newTheta := F64.mul n theta in
      (F64.mul newR (Math_cos M newTheta), F64.mul newR (Math_sin M newTheta)).

Definition magnitudeSquared (z : complex) : F64.t :=
  F64.add (F64.mul (fst z) (fst z)) (F64.mul (snd z) (snd z)).

Definition complexAdd (a b : complex) : complex :=
  (F64.add (fst a) (fst b), F64.add (snd a) (snd b)).

Record Options := {
  burningShip : bool;
  juliaMode : bool;
  juliaC : complex
}.

(** [options = {}]: every field takes its default. *)
Definition default_options : Options :=
  {| burningShip := false; juliaMode := false;
     juliaC := (F64.zero, F64.zero) |}.

(** One turn of the [for] body of [mandelbrotIteration]: the new [z], and
    whether the escape test fired. *)
Definition mandelbrot_step (opts : Options) (power : F64.t)
    (constant z : complex) : complex * bool :=
  let z := if burningShip opts then (F64.abs (fst z), F64.abs (snd z)) else z in
  let z := complexAdd (complexPower z power) constant in
  (z, F64.gtb (magnitudeSquared z) lit_4).

(** The loop [for (let i = 0; i < maxIter; i++)]: [n] turns remain, [i]
    is the loop counter.  The iteration cap is an integer count. *)
Fixpoint mandelbrot_loop (opts : Options) (power : F64.t) (constant : complex)
    (n : nat) (i : nat) (z : complex) : option nat :=
  match n with
  | O => None
  | S n' =>
      let '(z', escaped) := mandelbrot_step opts power constant z in
      if escaped then Some i
      else mandelbrot_loop opts power constant n' (S i) z'
  end.

Definition mandelbrotIteration (c : complex) (maxIter : nat) (power : F64.t)
    (opts : Options) : nat :=
  let z := if juliaMode opts then c else (F64.zero, F64.zero) in
  let constant := if juliaMode opts then juliaC opts else c in
  match mandelbrot_loop opts power constant maxIter 0 z with
  | Some i => i
  | None => maxIter
  end.

(** [nu] and the value returned by [smoothIteration] on escape. *)
Definition smooth_value (power : F64.t) (i : nat) (magSq : F64.t) : F64.t :=
  let log_zn := F64.div (Math_log M magSq) lit_2 in
  let nu := F64.div (Math_log M (F64.div log_zn (Math_log M power)))
                    (Math_log M power) in
  F64.sub (F64.add (F64.of_Z (Z.of_nat i)) (F64.of_Z 1)) nu.

Fixpoint smooth_loop (power : F64.t) (c : complex)
    (n : nat) (i : nat) (z : complex) : option F64.t :=
  match n with
  | O => None
  | S n' =>
      let z := complexAdd (complexPower z power) c in
      let magSq := magnitudeSquared z in
      if F64.gtb magSq lit_256 then Some (smooth_value power i magSq)
      else smooth_loop power c n' (S i) z
  end.

Definition smoothIteration (c : complex) (maxIter : nat) (power : F64.t) : F64.t :=
  match smooth_loop power c maxIter 0 (F64.zero, F64.zero) with
  | Some v => v
  | None => F64.of_Z (Z.of_nat maxIter)
  end.

End WithMath.

(** [{ burningShip: true }]. *)
Definition burning_options : Options :=
  {| burningShip := true; juliaMode := false; juliaC := (F64.zero, F64.zero) |}.

(** The fixture point c = (0.5, 0.5). *)
Definition fixture_c : complex := (F64.of_dyadic 1 (-1), F64.of_dyadic 1 (-1)).

(** The array [[a, b]] of two integer literals. *)
Definition point (a b : Z) : complex := (F64.of_Z a, F64.of_Z b).
End ComplexMath.

(** ** Host-side [Math] functions that IEEE-754 does define *)

Module Js.
(** [Math.floor]. *)
Definition Math_floor (x : F64.t) : F64.t :=
  match x with
  | S754_finite s m e =>
      if 0 <=? e then x
      else binary_normalize F64.prec F64.emax
             (Z.shiftr (cond_Zopp s (Zpos m)) (- e)) 0 false
  | _ => x
  end.

Definition is_neg_zero (x : F64.t) : bool :=
  match x with S754_zero true => true | _ => false end.

(** [Math.min] and [Math.max] of two numbers: [NaN] wins, and [-0] is
    below [+0]. *)
Definition Math_min (a b : F64.t) : F64.t :=
  match SFcompare a b with
  | None => S754_nan
  | Some Lt => a
  | Some Gt => b
  | Some Eq => if is_neg_zero a then a else b
  end.

Definition Math_max (a b : F64.t) : F64.t :=
  match SFcompare a b with
  | None => S754_nan
  | Some Lt => b
  | Some Gt => a
  | Some Eq => if is_neg_zero a then b else a
  end.

(** The remainder operator [%]: exact, with the sign of the dividend. *)
Definition rem (x y : F64.t) : F64.t :=
  match x, y with
  | S754_nan, _ | _, S754_nan => S754_nan
  | S754_infinity _, _ => S754_nan
  | _, S754_zero _ => S754_nan
  | _, S754_infinity _ => x
  | S754_zero _, _ => x
  | S754_finite sx mx ex, S754_finite _ my ey =>
      let ez := Z.min ex ey in
      let ax := Zpos (fst (shl_align mx ex ez)) in
      let ay := Zpos (fst (shl_align my ey ez)) in
      binary_normalize F64.prec F64.emax (cond_Zopp sx (ax mod ay)) ez sx
  end.

(** Strict inequality [!==] on numbers. *)
Definition strict_neq (a b : F64.t) : bool := negb (F64.eqb a b).
End Js.

(** ** FractalState.js *)

Module FractalState.
Record State := {
  centerX : F64.t;
  centerY : F64.t;
  zoom : F64.t;
  power : F64.t;
  maxIter : F64.t;
  numberBase : F64.t;
  colorScheme : F64.t;
  colorOffset : F64.t;
  burningShip : bool;
  juliaMode : bool;
  juliaC : list F64.t;
  width : F64.t;
  height : F64.t;
  coloringMode : option F64.t
}.

(** A [changes] object whose keys are state keys, each carrying a value
    of its kind: a key that the object does not carry is [None].  An object
    that carries a key with the value [undefined], or keys outside the
    state (the [name] and [description] of a preset), is not one of these
    records; [update] tests and copies every key it is given, so for such
    objects see the module [FractalObject], which makes no assumption on
    the keys. *)
Record Changes := {
  ch_centerX : option F64.t;
  ch_centerY : option F64.t;
  ch_zoom : option F64.t;
  ch_power : option F64.t;
  ch_maxIter : option F64.t;
  ch_numberBase : option F64.t;
  ch_colorScheme : option F64.t;
  ch_colorOffset : option F64.t;
  ch_burningShip : option bool;
  ch_juliaMode : option bool;
  ch_juliaC : option (list F64.t);
  ch_width : option F64.t;
  ch_height : option F64.t;
  ch_coloringMode : option F64.t
}.

Definition no_changes : Changes :=
  {| ch_centerX := None; ch_centerY := None; ch_zoom := None;
     ch_power := None; ch_maxIter := None; ch_numberBase := None;
     ch_colorScheme := None; ch_colorOffset := None;
     ch_burningShip := None; ch_juliaMode := None; ch_juliaC := None;
     ch_width := None; ch_height := None; ch_coloringMode := None |}.

Definition DEFAULT_STATE : State :=
  {| centerX := F64.of_dyadic (-1) (-1);
     centerY := F64.zero;
     zoom := F64.of_Z 1;
     power := F64.of_Z 2;
     maxIter := F64.of_Z 256;
     numberBase := F64.of_Z 10;
     colorScheme := F64.of_Z 3;
     colorOffset := F64.zero;
     burningShip := false;
     juliaMode := false;
     juliaC := [F64.of_decimal (-4) 1; F64.of_decimal 6 1];
     width := F64.of_Z 1200;
     height := F64.of_Z 900;
     coloringMode := None |}.

(** [Math.max(lo, Math.min(hi, x))]. *)
Definition clamp (lo hi x : F64.t) : F64.t :=
  Js.Math_max lo (Js.Math_min hi x).

Definition _validateChanges (changes : Changes) : Changes :=
  {| ch_centerX := ch_centerX changes;
     ch_centerY := ch_centerY changes;
     ch_zoom :=
       option_map (clamp (F64.of_decimal 1 1) (F64.of_Z (10 ^ 15)))
                  (ch_zoom changes);
     ch_power :=
       option_map (clamp (F64.of_Z 1) (F64.of_Z 12)) (ch_power changes);
     ch_maxIter :=
       option_map (fun x => clamp (F64.of_Z 10) (F64.of_Z 10000) (Js.Math_floor x))
                  (ch_maxIter changes);
     ch_numberBase :=
       option_map (fun x => clamp (F64.of_Z 2) (F64.of_Z 60) (Js.Math_floor x))
                  (ch_numberBase changes);
     ch_colorScheme :=
       option_map (fun x => clamp (F64.of_Z 0) (F64.of_Z 7) (Js.Math_floor x))
                  (ch_colorScheme changes);
     ch_colorOffset :=
       option_map (fun x => Js.rem (F64.add (Js.rem x (F64.of_Z 100)) (F64.of_Z 100))
                                   (F64.of_Z 100))
                  (ch_colorOffset changes);
     ch_burningShip := ch_burningShip changes;
     ch_juliaMode := ch_juliaMode changes;
     ch_juliaC :=
       match ch_juliaC changes with
       | Some [a; b] => Some [a; b]
       | _ => None
       end;
     ch_width := ch_width changes;
     ch_height := ch_height changes;
     ch_coloringMode := ch_coloringMode changes |}.

(** [{ ...state, ...changes }]. *)
Definition over {A} (new : option A) (old : A) : A :=
  match new with Some v => v | None => old end.

Definition merge (s : State) (c : Changes) : State :=
  {| centerX := over (ch_centerX c) (centerX s);
     centerY := over (ch_centerY c) (centerY s);
     zoom := over (ch_zoom c) (zoom s);
     power := over (ch_power c) (power s);
     maxIter := over (ch_maxIter c) (maxIter s);
     numberBase := over (ch_numberBase c) (numberBase s);
     colorScheme := over (ch_colorScheme c) (colorScheme s);
     colorOffset := over (ch_colorOffset c) (colorOffset s);
     burningShip := over (ch_burningShip c) (burningShip s);
     juliaMode := over (ch_juliaMode c) (juliaMode s);
     juliaC := over (ch_juliaC c) (juliaC s);
     width := over (ch_width c) (width s);
     height := over (ch_height c) (height s);
     coloringMode :=
       match ch_coloringMode c with
       | Some v => Some v
       | None => coloringMode s
       end |}.

Definition num_differs (new : option F64.t) (old : F64.t) : bool :=
  match new with Some v => Js.strict_neq old v | None => false end.

Definition bool_differs (new : option bool) (old : bool) : bool :=
  match new with Some v => negb (Bool.eqb old v) | None => false end.

Fixpoint some_differs (old new : list F64.t) : bool :=
  match old, new with
  | o :: old', n :: new' => Js.strict_neq o n || some_differs old' new'
  | _, _ => false
  end.

Definition array_differs (new : option (list F64.t)) (old : list F64.t) : bool :=
  match new with
  | Some v => negb (Nat.eqb (length old) (length v)) || some_differs old v
  | None => false
  end.

(** [Object.keys(validatedChanges).some(...)] for the keys of a
    [Changes] record. *)
Definition hasChanges (s : State) (v : Changes) : bool :=
  num_differs (ch_centerX v) (centerX s) || num_differs (ch_centerY v) (centerY s)
  || num_differs (ch_zoom v) (zoom s) || num_differs (ch_power v) (power s)
  || num_differs (ch_maxIter v) (maxIter s)
  || num_differs (ch_numberBase v) (numberBase s)
  || num_differs (ch_colorScheme v) (colorScheme s)
  || num_differs (ch_colorOffset v) (colorOffset s)
  || bool_differs (ch_burningShip v) (burningShip s)
  || bool_differs (ch_juliaMode v) (juliaMode s)
  || array_differs (ch_juliaC v) (juliaC s)
  || num_differs (ch_width v) (width s) || num_differs (ch_height v) (height s)
  || match ch_coloringMode v, coloringMode s with
     | Some n, Some o => Js.strict_neq o n
     | Some _, None => true
     | None, _ => false
     end.

(** [update(changes)]: the state held afterwards (listeners and the undo
    history do not touch it). *)
Definition update (s : State) (changes : Changes) : State :=
  let validated := _validateChanges changes in
  if hasChanges s validated then merge s validated else s.

(** The objects [{ colorScheme: x }], [{ maxIter: x }], [{ centerX: x }],
    [{ colorOffset: x }] and [{ zoom: zm, power: pw }]. *)
Definition only_colorScheme (x : F64.t) : Changes :=
  {| ch_centerX := None; ch_centerY := None; ch_zoom := None;
     ch_power := None; ch_maxIter := None; ch_numberBase := None;
     ch_colorScheme := Some x; ch_colorOffset := None;
     ch_burningShip := None; ch_juliaMode := None; ch_juliaC := None;
     ch_width := None; ch_height := None; ch_coloringMode := None |}.

Definition only_maxIter (x : F64.t) : Changes :=
  {| ch_centerX := None; ch_centerY := None; ch_zoom := None;
     ch_power := None; ch_maxIter := Some x; ch_numberBase := None;
     ch_colorScheme := None; ch_colorOffset := None;
     ch_burningShip := None; ch_juliaMode := None; ch_juliaC := None;
     ch_width := None; ch_height := None; ch_coloringMode := None |}.

Definition only_centerX (x : F64.t) : Changes :=
  {| ch_centerX := Some x; ch_centerY := None; ch_zoom := None;
     ch_power := None; ch_maxIter := None; ch_numberBase := None;
     ch_colorScheme := None; ch_colorOffset := None;
     ch_burningShip := None; ch_juliaMode := None; ch_juliaC := None;
     ch_width := None; ch_height := None; ch_coloringMode := None |}.

(** [{ maxIter: 100, burningShip: bs }]: the setting of the Burning Ship
    fixture. *)
Definition fixture_changes (bs : bool) : Changes :=
  {| ch_centerX := None; ch_centerY := None; ch_zoom := None;
     ch_power := None; ch_maxIter := Some (F64.of_Z 100); ch_numberBase := None;
     ch_colorScheme := None; ch_colorOffset := None;
     ch_burningShip := Some bs; ch_juliaMode := None; ch_juliaC := None;
     ch_width := None; ch_height := None; ch_coloringMode := None |}.

Definition view_changes (zm pw : F64.t) : Changes :=
  {| ch_centerX := None; ch_centerY := None; ch_zoom := Some zm;
     ch_power := Some pw; ch_maxIter := None; ch_numberBase := None;
     ch_colorScheme := None; ch_colorOffset := None;
     ch_burningShip := None; ch_juliaMode := None; ch_juliaC := None;
     ch_width := None; ch_height := None; ch_coloringMode := None |}.

Definition only_colorOffset (x : F64.t) : Changes :=
  {| ch_centerX := None; ch_centerY := None; ch_zoom := None;
     ch_power := None; ch_maxIter := None; ch_numberBase := None;
     ch_colorScheme := None; ch_colorOffset := Some x;
     ch_burningShip := None; ch_juliaMode := None; ch_juliaC := None;
     ch_width := None; ch_height := None; ch_coloringMode := None |}.

(** What [_validateChanges] makes of a [colorScheme]. *)
Definition validated_scheme (x : F64.t) : F64.t :=
  clamp (F64.of_Z 0) (F64.of_Z 7) (Js.Math_floor x).
End FractalState.

(** ** shaders.js: the fragment shader *)

(** The GLSL built-ins whose results the language leaves to the
  implementation. *)
Record GlslMath := {
  glsl_log : F32.t -> F32.t;
  glsl_atan : F32.t -> F32.t -> F32.t;
  glsl_pow : F32.t -> F32.t -> F32.t;
  glsl_cos : F32.t -> F32.t;
  glsl_sin : F32.t -> F32.t
}.

Module Shader.
Definition vec2 := (F32.t * F32.t)%type.

Record Uniforms := {
  u_resolution : vec2;
  u_center : vec2;
  u_centerLow : vec2;
  u_zoom : F32.t;
  u_power : F32.t;
  u_maxIter : F32.t;
  u_base : F32.t;
  u_colorScheme : F32.t;
  u_colorOffset : F32.t;
  u_burningShip : F32.t;
  u_juliaMode : F32.t;
  u_juliaC : vec2;
  u_coloringMode : F32.t;
  u_useDoublePrecision : F32.t
}.

Definition lit_0_5 := F32.of_dyadic 1 (-1).
Definition lit_1_5 := F32.of_dyadic 3 (-1).
Definition lit_0_01 := F32.of_decimal 1 2.
Definition lit_256 := F32.of_Z 256.
Definition lit_1000 := F32.of_Z 1000.
Definition lit_4097 := F32.of_Z 4097.
Definition lit_pi := F32.of_decimal 314159 5.

(** *** Double-double arithmetic *)

Definition twoSum (a b : F32.t) : vec2 :=
  let s := F32.add a b in
  let v := F32.sub s a in
  let e := F32.add (F32.sub a (F32.sub s v)) (F32.sub b v) in
  (s, e).

Definition twoProd (a b : F32.t) : vec2 :=
  let p := F32.mul a b in
  let splitA := F32.mul a lit_4097 in
  let aHi := F32.sub splitA (F32.sub splitA a) in
  let aLo := F32.sub a aHi in
  let splitB := F32.mul b lit_4097 in
  let bHi := F32.sub splitB (F32.sub splitB b) in
  let bLo := F32.sub b bHi in
  let e := F32.add
             (F32.add (F32.add (F32.sub (F32.mul aHi bHi) p) (F32.mul aHi bLo))
                      (F32.mul aLo bHi))
             (F32.mul aLo bLo) in
  (p, e).

Definition ddAdd (a b : vec2) : vec2 :=
  let s := twoSum (fst a) (fst b) in
  let t := twoSum (snd a) (snd b) in
  let s := (fst s, F32.add (snd s) (fst t)) in
  let s := twoSum (fst s) (snd s) in
  let s := (fst s, F32.add (snd s) (snd t)) in
  twoSum (fst s) (snd s).

Definition ddMul (a b : vec2) : vec2 :=
  let p := twoProd (fst a) (fst b) in
  let p := (fst p,
            F32.add (snd p)
              (F32.add (F32.mul (fst a) (snd b)) (F32.mul (snd a) (fst b)))) in
  twoSum (fst p) (snd p).

Definition ddSub (a b : vec2) : vec2 :=
  ddAdd a (F32.opp (fst b), F32.opp (snd b)).

Definition ddFromFloat (a : F32.t) : vec2 := (a, F32.zero).

Definition ddComplexMul (zx zy wx wy : vec2) : vec2 * vec2 :=
  let zxwx := ddMul zx wx in
  let zywy := ddMul zy wy in
  let zxwy := ddMul zx wy in
  let zywx := ddMul zy wx in
  (ddSub zxwx zywy, ddAdd zxwy zywx).

Definition ddComplexSquare (zx zy : vec2) : vec2 * vec2 :=
  let zx2 := ddMul zx zx in
  let zy2 := ddMul zy zy in
  let zxzy := ddMul zx zy in
  (ddSub zx2 zy2, ddAdd zxzy zxzy).

(** The exact rational value [hi + lo] of a double-double pair. *)
Definition ddValue (a : vec2) : Q := (SF2Q (fst a) + SF2Q (snd a))%Q.

(** Both components are well-formed binary32 numbers. *)
Definition valid_pair (a : vec2) : Prop :=
  F32.valid (fst a) = true /\ F32.valid (snd a) = true.

(** The rounding error of the native addition [x + y]. *)
Definition add_error (x y : F32.t) : Q :=
  (SF2Q (F32.add x y) - (SF2Q x + SF2Q y))%Q.

(** Operands close to the overflow threshold: [-1.5 * 2^104] and the
    largest finite number [(2^24 - 1) * 2^104]. *)
Definition near_max_a : F32.t := F32.of_dyadic (-3) 103.
Definition near_max_b : F32.t := F32.of_dyadic (2 ^ 24 - 1) 104.



(** *** Standard complex arithmetic *)

Definition vadd (a b : vec2) : vec2 := (F32.add (fst a) (fst b), F32.add (snd a) (snd b)).
Definition vscale (k : F32.t) (a : vec2) : vec2 := (F32.mul k (fst a), F32.mul k (snd a)).
Definition vabs (a : vec2) : vec2 := (F32.abs (fst a), F32.abs (snd a)).
Definition dot (a b : vec2) : F32.t :=
  F32.add (F32.mul (fst a) (fst b)) (F32.mul (snd a) (snd b)).
Definition length (a : vec2) : F32.t := F32.sqrt (dot a a).

Definition complexMul (a b : vec2) : vec2 :=
  (F32.sub (F32.mul (fst a) (fst b)) (F32.mul (snd a) (snd b)),
   F32.add (F32.mul (fst a) (snd b)) (F32.mul (snd a) (fst b))).

(** GLSL [floor], [mod(x, y) = x - y * floor(x / y)] and [int(x)]. *)
Definition floor (x : F32.t) : F32.t :=
  match x with
  | S754_finite s m e =>
      if 0 <=? e then x
      else binary_normalize F32.prec F32.emax
             (Z.shiftr (cond_Zopp s (Zpos m)) (- e)) 0 false
  | _ => x
  end.

Definition mod_ (x y : F32.t) : F32.t :=
  F32.sub x (F32.mul y (floor (F32.div x y))).

Definition to_int (x : F32.t) : Z :=
  match x with
  | S754_finite s m e =>
      cond_Zopp s (if 0 <=? e then Z.shiftl (Zpos m) e else Z.shiftr (Zpos m) (- e))
  | _ => 0
  end.

Section WithMath.
Variable G : GlslMath.

Definition complexPower (z : vec2) (n : F32.t) : vec2 :=
  if F32.ltb (F32.abs (F32.sub n F32.two)) lit_0_01 then
    (F32.sub (F32.mul (fst z) (fst z)) (F32.mul (snd z) (snd z)),
     F32.mul (F32.mul F32.two (fst z)) (snd z))
  else
    let r := length z in
    let theta := glsl_atan G (snd z) (fst z) in
    let newR := glsl_pow G r n in
    let newTheta := F32.mul n theta in
    (F32.mul newR (glsl_cos G newTheta), F32.mul newR (glsl_sin G newTheta)).

(** *** [main] *)

(** The variables [main] declares before it branches on the precision
    path, and the double-double [z] of the deep-zoom branch. *)
Record Vars := {
  iterations : F32.t;
  minDist : F32.t;
  minDistCross : F32.t;
  z : vec2;
  dz : vec2;
  zxDD : vec2;
  zyDD : vec2
}.

Definition set_iterations (v : Vars) (it : F32.t) : Vars :=
  {| iterations := it; minDist := minDist v; minDistCross := minDistCross v;
     z := z v; dz := dz v; zxDD := zxDD v; zyDD := zyDD v |}.

(** How a pixel's [for] loop was left. *)
Inductive LoopExit := CapReached | Escaped | BoundReached.

Record LoopResult := {
  exit_by : LoopExit;
  steps : nat;
  vars : Vars
}.

(** [for (int i = 0; i < 2000; i++) { if (float(i) >= u_maxIter) break; ... }]
    with [fuel] turns left before the structural bound; [body i v] runs the
    turn and tells whether it took the escape [break]. *)
Fixpoint run_loop (body : nat -> Vars -> Vars * bool) (maxIter : F32.t)
    (fuel i : nat) (v : Vars) : LoopResult :=
  match fuel with
  | O => {| exit_by := BoundReached; steps := i; vars := v |}
  | S fuel' =>
      if F32.geb (F32.of_Z (Z.of_nat i)) maxIter
      then {| exit_by := CapReached; steps := i; vars := v |}
      else
        let '(v', escaped) := body i v in
        if escaped then {| exit_by := Escaped; steps := S i; vars := v' |}
        else run_loop body maxIter fuel' (S i)
               (set_iterations v' (F32.of_Z (Z.of_nat i)))
  end.

Definition structural_bound : nat := 2000.

(** Orbit-trap accumulators and the escape test, shared by both paths:
    [nu_base] is the divisor of the outer logarithm. *)
Definition track_and_test (nu_base : F32.t) (i : nat) (v : Vars) (z' : vec2)
    (dz' zx' zy' : vec2) : Vars * bool :=
  let distToOrigin := length z' in
  let minDist' := F32.min (minDist v) distToOrigin in
  let minDistCross' :=
    F32.min (minDistCross v) (F32.min (F32.abs (fst z')) (F32.abs (snd z'))) in
  let magSq := dot z' z' in
  if F32.gtb magSq lit_256 then
    let log_zn := F32.div (glsl_log G magSq) F32.two in
    let nu := F32.div (glsl_log G (F32.div log_zn (glsl_log G F32.two)))
                      (glsl_log G nu_base) in
    ({| iterations := F32.sub (F32.add (F32.of_Z (Z.of_nat i)) F32.one) nu;
        minDist := minDist'; minDistCross := minDistCross';
        z := z'; dz := dz'; zxDD := zx'; zyDD := zy' |}, true)
  else
    ({| iterations := iterations v;
        minDist := minDist'; minDistCross := minDistCross';
        z := z'; dz := dz'; zxDD := zx'; zyDD := zy' |}, false).

(** Body of the deep-zoom loop. *)
Definition dd_body (cxDD cyDD : vec2) (i : nat) (v : Vars) : Vars * bool :=
  let newZ := ddComplexSquare (zxDD v) (zyDD v) in
  let zx' := ddAdd (fst newZ) cxDD in
  let zy' := ddAdd (snd newZ) cyDD in
  let z' := (fst zx', fst zy') in
  track_and_test F32.two i v z' (dz v) zx' zy'.

(** Body of the standard-precision loop. *)
Definition native_body (u : Uniforms) (c : vec2) (i : nat) (v : Vars) : Vars * bool :=
  let z0 := if F32.gtb (u_burningShip u) lit_0_5 then vabs (z v) else z v in
  let dz' :=
    if F32.ltb (F32.abs (F32.sub (u_power u) F32.two)) lit_0_01 then
      vadd (vscale F32.two (complexMul z0 (dz v))) (F32.one, F32.zero)
    else
      vadd (vscale (u_power u)
              (complexMul (complexPower z0 (F32.sub (u_power u) F32.one)) (dz v)))
           (F32.one, F32.zero) in
  let z' := vadd (complexPower z0 (u_power u)) c in
  track_and_test (u_power u) i v z' dz' (zxDD v) (zyDD v).

(** The guard of the deep-zoom branch. *)
Definition use_dd_path (u : Uniforms) : bool :=
  F32.gtb (u_useDoublePrecision u) lit_0_5
  && F32.ltb (F32.abs (F32.sub (u_power u) F32.two)) lit_0_01
  && F32.ltb (u_juliaMode u) lit_0_5
  && F32.ltb (u_burningShip u) lit_0_5.

Definition pixel_uv (u : Uniforms) (fragCoord : vec2) : vec2 :=
  let uv := (F32.div (fst fragCoord) (fst (u_resolution u)),
             F32.div (snd fragCoord) (snd (u_resolution u))) in
  let uv := (F32.mul (F32.sub (fst uv) lit_0_5) F32.two,
             F32.mul (F32.sub (snd uv) lit_0_5) F32.two) in
  (F32.mul (fst uv) (F32.div (fst (u_resolution u)) (snd (u_resolution u))),
   snd uv).

(** The constant [c] of the deep-zoom branch, as the pair [(cxDD, cyDD)]. *)
Definition dd_constant (u : Uniforms) (fragCoord : vec2) : vec2 * vec2 :=
  let uv := pixel_uv u fragCoord in
  let uvScale := F32.div F32.two (u_zoom u) in
  let cxDD := ddAdd (fst (u_center u), fst (u_centerLow u))
                    (ddFromFloat (F32.mul (fst uv) uvScale)) in
  let cyDD := ddAdd (snd (u_center u), snd (u_centerLow u))
                    (ddFromFloat (F32.mul (snd uv) uvScale)) in
  (cxDD, cyDD).

(** The initial [z] and the constant [c] of the standard branch. *)
Definition native_start (u : Uniforms) (fragCoord : vec2) : vec2 * vec2 :=
  let uv := pixel_uv u fragCoord in
  let c := vadd (u_center u)
             (F32.div (F32.mul (fst uv) F32.two) (u_zoom u),
              F32.div (F32.mul (snd uv) F32.two) (u_zoom u)) in
  if F32.gtb (u_juliaMode u) lit_0_5
  then (c, u_juliaC u) else ((F32.zero, F32.zero), c).

Definition start_vars (z0 : vec2) : Vars :=
  {| iterations := F32.zero; minDist := lit_1000; minDistCross := lit_1000;
     z := z0; dz := (F32.one, F32.zero);
     zxDD := (F32.zero, F32.zero); zyDD := (F32.zero, F32.zero) |}.

(** The loop of [main], on whichever path the guard selects; [bound] is
    the constant of the [for] header. *)
Definition main_loop_for (bound : nat) (u : Uniforms) (fragCoord : vec2) : LoopResult :=
  if use_dd_path u then
    run_loop (dd_body (fst (dd_constant u fragCoord)) (snd (dd_constant u fragCoord)))
      (u_maxIter u) bound 0 (start_vars (F32.zero, F32.zero))
  else
    run_loop (native_body u (snd (native_start u fragCoord)))
      (u_maxIter u) bound 0 (start_vars (fst (native_start u fragCoord))).

Definition main_loop : Uniforms -> vec2 -> LoopResult :=
  main_loop_for structural_bound.

(** The distance estimate computed after the loop. *)
Definition distance_estimate (u : Uniforms) (v : Vars) : F32.t :=
  let zMag := length (z v) in
  let dzMag := length (dz v) in
  if F32.gtb dzMag F32.zero
     && F32.ltb (iterations v) (F32.sub (u_maxIter u) lit_0_5)
  then F32.mul (F32.div (F32.mul (glsl_log G (F32.mul zMag zMag)) zMag) dzMag)
               lit_0_5
  else F32.zero.

Definition interior_value (u : Uniforms) (v : Vars) : F32.t :=
  if F32.geb (iterations v) (F32.sub (u_maxIter u) lit_0_5) then
    let angle := glsl_atan G (snd (z v)) (fst (z v)) in
    F32.add (F32.mul (mod_ (F32.add (F32.div angle lit_pi) F32.one) F32.one) lit_0_5)
            (F32.mul (minDist v) lit_0_5)
  else F32.zero.

(** The colour formulas of [getColor], by the branch that computes them. *)
Inductive Scheme :=
| Rainbow | Fire | Ice | MatrixGreen | PurpleHaze | ElectricBlue | Lava | Neon
| Sunset | Ocean | Plasma | Copper | Gold | Monochrome | Stripes
| Psychedelic | Forest | Midnight | DistanceGlow | OrbitTrap.

(** The [if (schemeInt == ...)] chain of [getColor]. *)
Definition scheme_branch (scheme : F32.t) : Scheme :=
  let schemeInt := to_int scheme in
  if schemeInt =? 0 then Rainbow else if schemeInt =? 1 then Fire
  else if schemeInt =? 2 then Ice else if schemeInt =? 3 then MatrixGreen
  else if schemeInt =? 4 then PurpleHaze else if schemeInt =? 5 then ElectricBlue
  else if schemeInt =? 6 then Lava else if schemeInt =? 7 then Neon
  else if schemeInt =? 8 then Sunset else if schemeInt =? 9 then Ocean
  else if schemeInt =? 10 then Plasma else if schemeInt =? 11 then Copper
  else if schemeInt =? 12 then Gold else if schemeInt =? 13 then Monochrome
  else if schemeInt =? 14 then Stripes else if schemeInt =? 15 then Psychedelic
  else if schemeInt =? 16 then Forest else if schemeInt =? 17 then Midnight
  else if schemeInt =? 18 then DistanceGlow else OrbitTrap.

(** What [main] hands to [getColor]. *)
Record ColorInputs := {
  ci_iterations : F32.t;
  ci_distance : F32.t;
  ci_orbitTrap : F32.t;
  ci_interiorValue : F32.t;
  ci_scheme : Scheme
}.

(** The smoothed count assigned on escape at loop counter [i]; [nu_base] is
    what the outer logarithm is divided by. *)
Definition smooth_count (nu_base : F32.t) (i : nat) (magSq : F32.t) : F32.t :=
  F32.sub (F32.add (F32.of_Z (Z.of_nat i)) F32.one)
    (F32.div (glsl_log G (F32.div (F32.div (glsl_log G magSq) F32.two)
                                  (glsl_log G F32.two)))
             (glsl_log G nu_base)).

Definition main (u : Uniforms) (fragCoord : vec2) : ColorInputs :=
  let v := vars (main_loop u fragCoord) in
  {| ci_iterations := iterations v;
     ci_distance := distance_estimate u v;
     ci_orbitTrap :=
       if F32.gtb (u_coloringMode u) lit_1_5 then minDistCross v else minDist v;
     ci_interiorValue := interior_value u v;
     ci_scheme := scheme_branch (u_colorScheme u) |}.
End WithMath.
End Shader.

(** ** shaders.js: the error terms of the double-double product *)

Module DoubleDoubleErrors.
Import Shader.

(** The rounding error of the native product [x * y]. *)
Definition mul_error (x y : F32.t) : Q :=
  (SF2Q (F32.mul x y) - SF2Q x * SF2Q y)%Q.

(** What the pair of [twoProd] misses of the product. *)
Definition twoProd_error (x y : F32.t) : Q :=
  (ddValue (twoProd x y) - SF2Q x * SF2Q y)%Q.

(** Operands whose cross term rounds: [1 + (2^-30 + 2^-53)] and
    [1 + 2^-23], the second with a zero low part. *)
Definition dd_cross_a : vec2 :=
  (F32.of_Z 1, F32.of_dyadic (2 ^ 23 + 1) (-53)).
Definition dd_cross_b : vec2 :=
  (F32.of_dyadic (2 ^ 23 + 1) (-23), F32.zero).

(** An operand whose square underflows: [2^-75]. *)
Definition tiny_factor : F32.t := F32.of_dyadic 1 (-75).
End DoubleDoubleErrors.

(** ** WebGLRenderer.js *)

Module WebGLRenderer.
Definition splitDouble (value : F64.t) : F64.t * F64.t :=
  let hi := value in
  let lo := F64.sub value hi in
  (hi, lo).

Definition lit_1e6 := F64.of_Z 1000000.

Definition bool_uniform (b : bool) : F32.t :=
  F32.of_F64 (if b then F64.of_Z 1 else F64.zero).

(** [x || 0] for an optional number. *)
Definition or_zero (x : option F64.t) : F64.t :=
  match x with
  | Some (S754_zero _) | Some S754_nan | None => F64.zero
  | Some v => v
  end.

(** [updateUniforms]: every [gl.uniform*f] call converts its arguments to
    the shader's precision. *)
Definition updateUniforms (state : FractalState.State) : Shader.Uniforms :=
  let '(centerXHi, centerXLo) := splitDouble (FractalState.centerX state) in
  let '(centerYHi, centerYLo) := splitDouble (FractalState.centerY state) in
  let useDoublePrecision :=
    if F64.gtb (FractalState.zoom state) lit_1e6 then F64.of_Z 1 else F64.zero in
  {| Shader.u_resolution :=
       (F32.of_F64 (FractalState.width state), F32.of_F64 (FractalState.height state));
     Shader.u_center := (F32.of_F64 centerXHi, F32.of_F64 centerYHi);
     Shader.u_centerLow := (F32.of_F64 centerXLo, F32.of_F64 centerYLo);
     Shader.u_zoom := F32.of_F64 (FractalState.zoom state);
     Shader.u_power := F32.of_F64 (FractalState.power state);
     Shader.u_maxIter := F32.of_F64 (FractalState.maxIter state);
     Shader.u_base := F32.of_F64 (FractalState.numberBase state);
     Shader.u_colorScheme := F32.of_F64 (FractalState.colorScheme state);
     Shader.u_colorOffset := F32.of_F64 (FractalState.colorOffset state);
     Shader.u_burningShip := bool_uniform (FractalState.burningShip state);
     Shader.u_juliaMode := bool_uniform (FractalState.juliaMode state);
     Shader.u_juliaC :=
       (F32.of_F64 (nth 0 (FractalState.juliaC state) S754_nan),
        F32.of_F64 (nth 1 (FractalState.juliaC state) S754_nan));
     Shader.u_coloringMode := F32.of_F64 (or_zero (FractalState.coloringMode state));
     Shader.u_useDoublePrecision := F32.of_F64 useDoublePrecision |}.

(** The precision-switch policy as the specification words it, and as the
    shader's guard evaluates it on the uploaded uniforms. *)
Definition claimed_dd_condition (st : FractalState.State) : Prop :=
  F64.gtb (FractalState.zoom st) lit_1e6 = true
  /\ F64.eqb (FractalState.power st) (F64.of_Z 2) = true
  /\ FractalState.juliaMode st = false /\ FractalState.burningShip st = false.

Definition shader_dd_condition (st : FractalState.State) : Prop :=
  F64.gtb (FractalState.zoom st) lit_1e6 = true
  /\ F32.ltb (F32.abs (F32.sub (F32.of_F64 (FractalState.power st)) F32.two))
             Shader.lit_0_01 = true
  /\ FractalState.juliaMode st = false /\ FractalState.burningShip st = false.

(** The default state seen at zoom [zm] and power [pw]. *)
Definition with_view (zm pw : F64.t) : FractalState.State :=
  FractalState.merge FractalState.DEFAULT_STATE (FractalState.view_changes zm pw).

(** The host number 0.1. *)
Definition tenth : F64.t := F64.of_decimal 1 1.

(** The fragment at the middle of the default 1200 x 900 canvas. *)
Definition middle_fragment : Shader.vec2 :=
  (F32.of_dyadic 1201 (-1), F32.of_dyadic 901 (-1)).
End WebGLRenderer.

(** ** Numbers of the host language *)

Module JsNumber.
(** [x] is NaN. *)
Definition is_nan (x : F64.t) : bool :=
  match x with S754_nan => true | _ => false end.

(** A number that is neither NaN nor zero. *)
Definition is_nonzero (x : F64.t) : bool :=
  match x with
  | S754_finite _ _ _ | S754_infinity _ => true
  | _ => false
  end.

(** The value of a finite binary64 number in units of [2^-1074]. *)
Definition units (x : F64.t) : Z := FloatValue.Zval F64.prec F64.emax x.

(** The same number, bit for bit. *)
Definition sf_eqb (x y : spec_float) : bool :=
  match x, y with
  | S754_zero a, S754_zero b => Bool.eqb a b
  | S754_infinity a, S754_infinity b => Bool.eqb a b
  | S754_nan, S754_nan => true
  | S754_finite a m e, S754_finite b m' e' => Bool.eqb a b && Pos.eqb m m' && Z.eqb e e'
  | _, _ => false
  end.

(** [Math.round]: the nearest integer, a tie going up; [-0] for a negative
    number that rounds to zero. *)
Definition Math_round (x : F64.t) : F64.t :=
  match x with
  | S754_finite s m e =>
      if 0 <=? e then x
      else binary_normalize F64.prec F64.emax
             (Z.shiftr (2 * cond_Zopp s (Zpos m) + 2 ^ (- e)) (- e + 1)) 0 s
  | _ => x
  end.

(** [ToInt32]: the integer part, modulo [2^32], read as a signed 32-bit
    integer; 0 for NaN and the infinities. *)
Definition ToInt32 (x : F64.t) : Z :=
  match x with
  | S754_finite s m e =>
      let t := cond_Zopp s (if 0 <=? e then Zpos m * 2 ^ e else Zpos m / 2 ^ (- e)) in
      let r := t mod 2 ^ 32 in
      if 2 ^ 31 <=? r then r - 2 ^ 32 else r
  | _ => 0
  end.

(** [a >> n] and [a & b] on numbers: both operands go through [ToInt32];
    the result is the signed 32-bit integer, as a number. *)
Definition shift_right (a : F64.t) (n : Z) : F64.t :=
  F64.of_Z (Z.shiftr (ToInt32 a) (Z.land n 31)).

Definition bit_and (a b : F64.t) : F64.t :=
  F64.of_Z (Z.land (ToInt32 a) (ToInt32 b)).

(** The integer a finite number is, when it is one. *)
Definition integer_value (x : F64.t) : option Z :=
  match x with
  | S754_zero _ => Some 0
  | S754_finite s m e =>
      if 0 <=? e then Some (cond_Zopp s (Zpos m * 2 ^ e))
      else if Zpos m mod 2 ^ (- e) =? 0 then Some (cond_Zopp s (Zpos m / 2 ^ (- e)))
      else None
  | _ => None
  end.
End JsNumber.

(** ** Strings of the host language *)

Module JsString.
Import Ascii String JsNumber.

(** *** Strings: sequences of code units below 256 *)

Definition hex_digit (d : Z) : ascii :=
  ascii_of_nat (Z.to_nat (if d <? 10 then 48 + d else 87 + d)).

Fixpoint hex_digits (fuel : nat) (n : Z) (acc : string) : string :=
  match fuel with
  | O => acc
  | S fuel' =>
      let acc' := String (hex_digit (n mod 16)) acc in
      if n / 16 =? 0 then acc' else hex_digits fuel' (n / 16) acc'
  end.

(** The digits of a non-negative integer in radix 16. *)
Definition to_hex (n : Z) : string :=
  hex_digits (S (Z.to_nat (Z.log2 n))) n EmptyString.

Section NumberToString.
(** [Number.prototype.toString(16)] on a number that is not an integer: the
    digits are left to the implementation. *)
Variable fraction_to_string16 : F64.t -> string.

Definition toString16 (x : F64.t) : string :=
  match x with
  | S754_nan => "NaN"%string
  | S754_infinity false => "Infinity"%string
  | S754_infinity true => "-Infinity"%string
  | _ =>
      match integer_value x with
      | Some n => if n <? 0 then String "-"%char (to_hex (- n)) else to_hex n
      | None => fraction_to_string16 x
      end
  end.
End NumberToString.

(** [s.padStart(2, '0')]. *)
Definition padStart2 (s : string) : string :=
  match s with
  | EmptyString => "00"%string
  | String c EmptyString => String "0"%char (String c EmptyString)
  | _ => s
  end.

Definition is_white_space (c : ascii) : bool :=
  let n := Z.of_nat (nat_of_ascii c) in
  ((9 <=? n) && (n <=? 13)) || (n =? 32) || (n =? 160).

Fixpoint trim_start (s : string) : string :=
  match s with
  | String c rest => if is_white_space c then trim_start rest else s
  | EmptyString => s
  end.

Definition hex_value (c : ascii) : option Z :=
  let n := Z.of_nat (nat_of_ascii c) in
  if (48 <=? n) && (n <=? 57) then Some (n - 48)
  else if (97 <=? n) && (n <=? 102) then Some (n - 87)
  else if (65 <=? n) && (n <=? 70) then Some (n - 55)
  else None.

(** The longest prefix of radix-16 digits, as an integer; [None] when
    there is none. *)
Fixpoint parse_hex (s : string) (acc : option Z) : option Z :=
  match s with
  | String c rest =>
      match hex_value c with
      | Some d =>
          parse_hex rest (Some (16 * match acc with Some a => a | None => 0 end + d))
      | None => acc
      end
  | EmptyString => acc
  end.

Definition head_is (c : ascii) (s : string) : bool :=
  match s with
  | String c' _ => Ascii.eqb c' c
  | EmptyString => false
  end.

Definition tail (s : string) : string :=
  match s with
  | String _ rest => rest
  | EmptyString => EmptyString
  end.

(** [parseInt(s, 16)]. *)
Definition parseInt16 (s : string) : F64.t :=
  let s := trim_start s in
  let negative := head_is "-"%char s in
  let s := if head_is "-"%char s || head_is "+"%char s then tail s else s in
  let s := if head_is "0"%char s && (head_is "x"%char (tail s) || head_is "X"%char (tail s))
           then tail (tail s) else s in
  match parse_hex s None with
  | None => S754_nan
  | Some n =>
      if n =? 0 then S754_zero negative
      else F64.of_Z (if negative then - n else n)
  end.

(** What the parser needs of the character of a radix-16 digit. *)
Definition hex_digit_ok (d : Z) : bool :=
  negb (is_white_space (hex_digit d))
  && negb (Ascii.eqb (hex_digit d) "-") && negb (Ascii.eqb (hex_digit d) "+")
  && negb (Ascii.eqb (hex_digit d) "x") && negb (Ascii.eqb (hex_digit d) "X")
  && negb (Ascii.eqb (hex_digit d) "#")
  && match hex_value (hex_digit d) with Some v => v =? d | None => false end.
End JsString.

(** ** colorSchemes.js: colour conversions *)

Module ColorSchemes.
Import Ascii String JsNumber JsString.
Definition rgb := (F64.t * F64.t * F64.t)%type.

Definition lit_255 : F64.t := F64.of_Z 255.

Definition lerp (a b t : F64.t) : F64.t :=
  F64.add a (F64.mul (F64.sub b a) t).

Definition lerpColor (color1 color2 : rgb) (t : F64.t) : rgb :=
  let '(r1, g1, b1) := color1 in
  let '(r2, g2, b2) := color2 in
  (lerp r1 r2 t, lerp g1 g2 t, lerp b1 b2 t).

Definition rgbTo8bit (c : rgb) : rgb :=
  let '(r, g, b) := c in
  (Math_round (F64.mul r lit_255), Math_round (F64.mul g lit_255),
   Math_round (F64.mul b lit_255)).

Definition rgbFromBit (c : rgb) : rgb :=
  let '(r, g, b) := c in
  (F64.div r lit_255, F64.div g lit_255, F64.div b lit_255).

Section NumberToString.
Variable fraction_to_string16 : F64.t -> string.

Definition rgbToHex (c : rgb) : string :=
  let '(r, g, b) := rgbTo8bit c in
  let hex v := padStart2 (toString16 fraction_to_string16 v) in
  String "#"%char (hex r ++ hex g ++ hex b)%string.
End NumberToString.

Definition hexToRgb (hex : string) : rgb :=
  let hex := if head_is "#"%char hex then tail hex else hex in
  let bigint := parseInt16 hex in
  (F64.div (bit_and (shift_right bigint 16) lit_255) lit_255,
   F64.div (bit_and (shift_right bigint 8) lit_255) lit_255,
   F64.div (bit_and bigint lit_255) lit_255).

(** A test that holds on the three channels of two colours. *)
Definition channels_all (P : F64.t -> F64.t -> bool) (c1 c2 : rgb) : bool :=
  let '(r1, g1, b1) := c1 in
  let '(r2, g2, b2) := c2 in
  P r1 r2 && P g1 g2 && P b1 b2.

(** The colour with the 8-bit channels [r], [g], [b]. *)
Definition bytes (r g b : Z) : rgb := (F64.of_Z r, F64.of_Z g, F64.of_Z b).

(** The integer that the radix-16 digits [ds] denote. *)
Definition digits_value (ds : list Z) : Z :=
  fold_left (fun a d => 16 * a + d) ds 0.
End ColorSchemes.

(** ** Texts of radix-16 digits *)

Module HexText.
Import Ascii String JsNumber JsString.

(** A text made of radix-16 digits only (either case), and the digits it
    holds. *)
Fixpoint all_hex (s : string) : bool :=
  match s with
  | EmptyString => true
  | String c rest =>
      match hex_value c with Some _ => all_hex rest | None => false end
  end.

Fixpoint digit_list (s : string) : list Z :=
  match s with
  | EmptyString => []
  | String c rest =>
      match hex_value c with Some d => d :: digit_list rest | None => [] end
  end.

(** What the parser needs of a character that is a radix-16 digit. *)
Definition hex_char_ok (c : ascii) : bool :=
  match hex_value c with
  | Some d =>
      (0 <=? d) && (d <? 16) && negb (is_white_space c)
      && negb (Ascii.eqb c "-") && negb (Ascii.eqb c "+")
      && negb (Ascii.eqb c "x") && negb (Ascii.eqb c "X")
      && negb (Ascii.eqb c "#")
  | None => true
  end.
End HexText.

(** ** ComplexMath.js: products and the screen mapping *)

Module ComplexMathOps.
Import JsNumber ComplexMath.

Definition complexMultiply (a b : complex) : complex :=
  (F64.sub (F64.mul (fst a) (fst b)) (F64.mul (snd a) (snd b)),
   F64.add (F64.mul (fst a) (snd b)) (F64.mul (snd a) (fst b))).

(** The [viewport] object of the coordinate conversions. *)
Record Viewport := {
  vp_width : F64.t;
  vp_height : F64.t;
  vp_centerX : F64.t;
  vp_centerY : F64.t;
  vp_zoom : F64.t
}.

Definition lit_0_5 := F64.of_dyadic 1 (-1).

Definition complexToScreen (real imag : F64.t) (viewport : Viewport) : F64.t * F64.t :=
  let aspectRatio := F64.div (vp_width viewport) (vp_height viewport) in
  let scale := F64.div lit_2 (vp_zoom viewport) in
  let normalizedX := F64.div (F64.sub real (vp_centerX viewport))
                       (F64.mul aspectRatio scale) in
  let normalizedY := F64.div (F64.sub (vp_centerY viewport) imag) scale in
  let px := F64.mul (F64.add (F64.div normalizedX lit_2) lit_0_5) (vp_width viewport) in
  let py := F64.mul (F64.add (F64.div normalizedY lit_2) lit_0_5) (vp_height viewport) in
  (px, py).

(** A point with a NaN coordinate. *)
Definition has_nan (z : complex) : bool := is_nan (fst z) || is_nan (snd z).
End ComplexMathOps.

(** ** FractalState.js: [reset], and what [update] stores *)

Module StateRules.
Import JsNumber FractalState.
(** The [changes] object that lists every key of [DEFAULT_STATE]. *)
Definition default_changes : Changes :=
  {| ch_centerX := Some (centerX DEFAULT_STATE);
     ch_centerY := Some (centerY DEFAULT_STATE);
     ch_zoom := Some (zoom DEFAULT_STATE);
     ch_power := Some (power DEFAULT_STATE);
     ch_maxIter := Some (maxIter DEFAULT_STATE);
     ch_numberBase := Some (numberBase DEFAULT_STATE);
     ch_colorScheme := Some (colorScheme DEFAULT_STATE);
     ch_colorOffset := Some (colorOffset DEFAULT_STATE);
     ch_burningShip := Some (burningShip DEFAULT_STATE);
     ch_juliaMode := Some (juliaMode DEFAULT_STATE);
     ch_juliaC := Some (juliaC DEFAULT_STATE);
     ch_width := Some (width DEFAULT_STATE);
     ch_height := Some (height DEFAULT_STATE);
     ch_coloringMode := None |}.

Definition lit_100 : F64.t := F64.of_Z 100.

(** After [update], a numeric key that the changes carry holds the
    validated value, or a value strictly equal ([===]) to it. *)
Definition stored (field : State -> F64.t) (key : Changes -> option F64.t) : Prop :=
  forall s c p,
    key (_validateChanges c) = Some p ->
    field (update s c) = p \/ F64.eqb (field (update s c)) p = true.

(** [reset()]: [update(DEFAULT_STATE)]. *)
Definition reset (s : State) : State := update s default_changes.
End StateRules.

(** ** FractalState.js: the undo history *)

Module History.
Import FractalState StateRules.

(** *** The undo history *)

(** The fields of a [FractalState] object that [update], [_pushHistory] and
    [undo] write (the listeners are called with copies and do not change
    them). *)
Record Instance := {
  _state : State;
  _history : list State;
  _historyIndex : Z
}.

Definition _maxHistorySize : Z := 50.

(** [new FractalState(initialState)]: the initial values are merged over
    the defaults without validation. *)
Definition new_FractalState (initialState : Changes) : Instance :=
  {| _state := merge DEFAULT_STATE initialState;
     _history := [];
     _historyIndex := -1 |}.

(** [array.slice(0, fin)]: a negative [fin] counts from the end. *)
Definition slice_from_start {A} (l : list A) (fin : Z) : list A :=
  let len := Z.of_nat (length l) in
  let final := if fin <? 0 then Z.max (len + fin) 0 else Z.min fin len in
  firstn (Z.to_nat final) l.

Definition _pushHistory (o : Instance) : Instance :=
  let history := slice_from_start (_history o) (_historyIndex o + 1) in
  let history := history ++ [_state o] in
  let index := Z.of_nat (length history) - 1 in
  if _maxHistorySize <? Z.of_nat (length history)
  then {| _state := _state o; _history := tl history; _historyIndex := index - 1 |}
  else {| _state := _state o; _history := history; _historyIndex := index |}.

(** [update(changes, { addToHistory })] on the object. *)
Definition update_with (o : Instance) (changes : Changes) (addToHistory : bool)
    : Instance :=
  let validatedChanges := _validateChanges changes in
  if hasChanges (_state o) validatedChanges then
    let o' := if addToHistory then _pushHistory o else o in
    {| _state := merge (_state o') validatedChanges;
       _history := _history o';
       _historyIndex := _historyIndex o' |}
  else o.

Definition applyPreset (o : Instance) (preset : Changes) : Instance :=
  update_with o preset true.

(** [undo()]: the boolean it returns and the object afterwards; [None]
    when [this._history[this._historyIndex]] is [undefined], which leaves
    the object without a state. *)
Definition undo (o : Instance) : option (bool * Instance) :=
  if _historyIndex o <? 0 then Some (false, o)
  else
    match nth_error (_history o) (Z.to_nat (_historyIndex o)) with
    | Some s =>
        Some (true, {| _state := s; _history := _history o;
                       _historyIndex := _historyIndex o - 1 |})
    | None => None
    end.

Definition canUndo (o : Instance) : bool := 0 <=? _historyIndex o.

(** The index points into the history (or is -1), and the history holds at
    most [_maxHistorySize] states. *)
Definition history_ok (o : Instance) : Prop :=
  -1 <= _historyIndex o < Z.of_nat (length (_history o))
  /\ Z.of_nat (length (_history o)) <= _maxHistorySize.

End History.

(** ** FractalState.js: the undo history, for any state object

    [update], [_pushHistory], [undo] and [applyPreset] treat the state and
    the changes as whole objects.  Here they are written over any kind of
    state and changes objects: the three places where [update] looks into
    them, [_validateChanges], the test [hasChanges] that runs over every key
    of the validated object and the spread [{ ...state, ...changes }], are
    operations of the objects, whatever keys these carry (a preset's [name]
    and [description], a key with the value [undefined]). *)

Module FractalObject.
Class StateOps (state changes : Type) := {
  _validateChanges : changes -> changes;
  hasChanges : state -> changes -> bool;
  spread : state -> changes -> state
}.

(** The fields of a [FractalState] object that the methods write. *)
Record Object (state : Type) := {
  _state : state;
  _history : list state;
  _historyIndex : Z
}.
Arguments _state {state}.
Arguments _history {state}.
Arguments _historyIndex {state}.

Definition _maxHistorySize : Z := 50.

Section Methods.
Context {state changes : Type} {ops : StateOps state changes}.

(** [new FractalState(initialState)], [defaults] being the clone of
    [DEFAULT_STATE]. *)
Definition new_FractalState (defaults : state) (initialState : changes)
    : Object state :=
  {| _state := spread defaults initialState;
     _history := [];
     _historyIndex := -1 |}.

Definition _pushHistory (o : Object state) : Object state :=
  let history := History.slice_from_start (_history o) (_historyIndex o + 1) in
  let history := history ++ [_state o] in
  let index := Z.of_nat (length history) - 1 in
  if _maxHistorySize <? Z.of_nat (length history)
  then {| _state := _state o; _history := tl history; _historyIndex := index - 1 |}
  else {| _state := _state o; _history := history; _historyIndex := index |}.

(** [update(changes, { addToHistory })]. *)
Definition update_with (o : Object state) (changes_ : changes) (addToHistory : bool)
    : Object state :=
  let validatedChanges := _validateChanges changes_ in
  if hasChanges (_state o) validatedChanges then
    let o' := if addToHistory then _pushHistory o else o in
    {| _state := spread (_state o') validatedChanges;
       _history := _history o';
       _historyIndex := _historyIndex o' |}
  else o.

Definition applyPreset (o : Object state) (preset : changes) : Object state :=
  update_with o preset true.

(** [undo()]: the boolean it returns and the object afterwards; [None]
    when [this._history[this._historyIndex]] is [undefined]. *)
Definition undo (o : Object state) : option (bool * Object state) :=
  if _historyIndex o <? 0 then Some (false, o)
  else
    match nth_error (_history o) (Z.to_nat (_historyIndex o)) with
    | Some s =>
        Some (true, {| _state := s; _history := _history o;
                       _historyIndex := _historyIndex o - 1 |})
    | None => None
    end.

Definition canUndo (o : Object state) : bool := 0 <=? _historyIndex o.

(** The index points into the history (or is -1), and the history holds at
    most [_maxHistorySize] states. *)
Definition history_ok (o : Object state) : Prop :=
  -1 <= _historyIndex o < Z.of_nat (length (_history o))
  /\ Z.of_nat (length (_history o)) <= _maxHistorySize.

(** A run of presets applied one after the other, whether each of them
    changed the state it met (the test of [update] was true), the states
    the presets met, and [n] successful [undo()] calls. *)
Fixpoint apply_presets (o : Object state) (presets : list changes) : Object state :=
  match presets with
  | [] => o
  | p :: rest => apply_presets (applyPreset o p) rest
  end.

Fixpoint all_effective (o : Object state) (presets : list changes) : bool :=
  match presets with
  | [] => true
  | p :: rest =>
      hasChanges (_state o) (_validateChanges p)
      && all_effective (applyPreset o p) rest
  end.

Fixpoint states_met (o : Object state) (presets : list changes) : list state :=
  match presets with
  | [] => []
  | p :: rest => _state o :: states_met (applyPreset o p) rest
  end.

Fixpoint undo_times (n : nat) (o : Object state) : option (Object state) :=
  match n with
  | O => Some o
  | S n' =>
      match undo o with
      | Some (true, o') => undo_times n' o'
      | _ => None
      end
  end.
End Methods.

(** The state and changes objects of the module [FractalState]: the
    changes that carry state keys only. *)
#[global] Instance record_ops : StateOps FractalState.State FractalState.Changes := {|
  _validateChanges := FractalState._validateChanges;
  hasChanges := FractalState.hasChanges;
  spread := FractalState.merge
|}.
End FractalObject.

(** ** presets.js: presets as [applyPreset] receives them

    A preset carries state keys and two keys that the state does not have
    at first, [name] and [description]; [update] tests and copies them like
    any other key. *)

Module PresetObjects.
Import Ascii String FractalState FractalObject.

(** The keys [name] and [description] of an object: absent, or a text. *)
Definition labels := (option string * option string)%type.

Definition labelled_state := (State * labels)%type.
Definition labelled_changes := (Changes * labels)%type.

(** [oldVal !== newVal] for a key of the changes that holds a text. *)
Definition text_differs (new old : option string) : bool :=
  match new, old with
  | Some v, Some o => negb (String.eqb o v)
  | Some _, None => true
  | None, _ => false
  end.

#[global] Instance labelled_ops : StateOps labelled_state labelled_changes := {|
  _validateChanges := fun c => (FractalState._validateChanges (fst c), snd c);
  hasChanges := fun s v =>
    FractalState.hasChanges (fst s) (fst v)
    || text_differs (fst (snd v)) (fst (snd s))
    || text_differs (snd (snd v)) (snd (snd s));
  spread := fun s v =>
    (merge (fst s) (fst v),
     (over (option_map Some (fst (snd v))) (fst (snd s)),
      over (option_map Some (snd (snd v))) (snd (snd s))))
|}.

(** A preset: [{ name, description, power, centerX, centerY, zoom,
    burningShip, juliaMode }]. *)
Definition preset (name description : string) (pw cx cy zm : F64.t) (bs jm : bool)
    : labelled_changes :=
  ({| ch_centerX := Some cx; ch_centerY := Some cy; ch_zoom := Some zm;
      ch_power := Some pw; ch_maxIter := None; ch_numberBase := None;
      ch_colorScheme := None; ch_colorOffset := None;
      ch_burningShip := Some bs; ch_juliaMode := Some jm; ch_juliaC := None;
      ch_width := None; ch_height := None; ch_coloringMode := None |},
   (Some name, Some description)).

Definition classic : labelled_changes :=
  preset "Classic" "The classic Mandelbrot set view"
    (F64.of_Z 2) (F64.of_dyadic (-1) (-1)) F64.zero (F64.of_Z 1) false false.

Definition burning : labelled_changes :=
  preset "Burning Ship" "The burning ship fractal variant"
    (F64.of_Z 2) (F64.of_dyadic (-1) (-1)) (F64.of_dyadic (-1) (-1)) (F64.of_Z 1)
    true false.

Definition seahorse : labelled_changes :=
  preset "Seahorse Valley" "Famous seahorse-shaped spiral region"
    (F64.of_Z 2) (F64.of_decimal (-747) 3) (F64.of_decimal 1 1) (F64.of_Z 50)
    false false.

(** [new FractalState()]. *)
Definition fresh : Object labelled_state :=
  {| _state := (DEFAULT_STATE, (None, None)); _history := []; _historyIndex := -1 |}.
End PresetObjects.

(** ** ControlPanel.js: the bookmark manager *)

Module BookmarkManager.
Import Ascii String JsNumber FractalState.

(** A bookmark object as [saveBookmark] builds it; the list
    [this._bookmarks] is taken to hold such objects. *)
Record Bookmark := {
  bm_id : string;
  bm_name : string;
  bm_description : string;
  bm_createdAt : string;
  bm_centerX : F64.t;
  bm_centerY : F64.t;
  bm_zoom : F64.t;
  bm_power : F64.t;
  bm_maxIter : F64.t;
  bm_colorScheme : F64.t;
  bm_coloringMode : option F64.t;
  bm_numberBase : F64.t;
  bm_burningShip : bool;
  bm_juliaMode : bool;
  bm_juliaC : list F64.t
}.

(** [this._bookmarks.find(b => b.id === id) || null]. *)
Definition getBookmark (_bookmarks : list Bookmark) (id : string) : option Bookmark :=
  find (fun b => String.eqb (bm_id b) id) _bookmarks.

(** The template literal [`Bookmark ${n}`]. *)
Definition numbered_name (n : nat) : string :=
  ("Bookmark " ++ DecimalString.NilEmpty.string_of_uint (Nat.to_uint n))%string.

(** [saveBookmark(name, description)]: the bookmark it returns and the
    list afterwards.  [state] is what [getState()] gives; [generated_id] and
    [now] are what [_generateId()] and [new Date().toISOString()] give.
    Writing to the storage and calling the listeners leave the list as it
    is. *)
Definition saveBookmark (state : State) (_bookmarks : list Bookmark)
    (generated_id now : string) (name description : string)
    : Bookmark * list Bookmark :=
  let bookmark :=
    {| bm_id := generated_id;
       bm_name := match name with
                  | EmptyString => numbered_name (List.length _bookmarks + 1)
                  | _ => name
                  end;
       bm_description := description;
       bm_createdAt := now;
       bm_centerX := centerX state;
       bm_centerY := centerY state;
       bm_zoom := zoom state;
       bm_power := power state;
       bm_maxIter := maxIter state;
       bm_colorScheme := colorScheme state;
       bm_coloringMode := coloringMode state;
       bm_numberBase := numberBase state;
       bm_burningShip := burningShip state;
       bm_juliaMode := juliaMode state;
       bm_juliaC := juliaC state |} in
  (bookmark, _bookmarks ++ [bookmark]).

(** The object that [loadBookmark] passes to [update]. *)
Definition bookmark_changes (bookmark : Bookmark) : Changes :=
  {| ch_centerX := Some (bm_centerX bookmark);
     ch_centerY := Some (bm_centerY bookmark);
     ch_zoom := Some (bm_zoom bookmark);
     ch_power := Some (bm_power bookmark);
     ch_maxIter := Some (bm_maxIter bookmark);
     ch_numberBase := Some (bm_numberBase bookmark);
     ch_colorScheme := Some (bm_colorScheme bookmark);
     ch_colorOffset := None;
     ch_burningShip := Some (bm_burningShip bookmark);
     ch_juliaMode := Some (bm_juliaMode bookmark);
     ch_juliaC := Some (bm_juliaC bookmark);
     ch_width := None;
     ch_height := None;
     ch_coloringMode := Some (WebGLRenderer.or_zero (bm_coloringMode bookmark)) |}.

(** [loadBookmark(id)]: the boolean it returns and the state object
    afterwards. *)
Definition loadBookmark (o : History.Instance) (_bookmarks : list Bookmark)
    (id : string) : bool * History.Instance :=
  match getBookmark _bookmarks id with
  | None => (false, o)
  | Some bookmark => (true, History.update_with o (bookmark_changes bookmark) false)
  end.

(** [array.findIndex(p)], counting from [i]. *)
Fixpoint findIndex_from {A} (p : A -> bool) (l : list A) (i : Z) : Z :=
  match l with
  | [] => -1
  | x :: rest => if p x then i else findIndex_from p rest (i + 1)
  end.

(** [array.splice(index, 1)] for an index of the array: the array
    afterwards. *)
Definition splice_one {A} (l : list A) (index : Z) : list A :=
  firstn (Z.to_nat index) l ++ skipn (Z.to_nat index + 1) l.

(** [deleteBookmark(id)]: the boolean it returns and the list afterwards. *)
Definition deleteBookmark (_bookmarks : list Bookmark) (id : string)
    : bool * list Bookmark :=
  let index := findIndex_from (fun b => String.eqb (bm_id b) id) _bookmarks 0 in
  if index =? -1 then (false, _bookmarks)
  else (true, splice_one _bookmarks index).

Definition with_name (bookmark : Bookmark) (newName : string) : Bookmark :=
  {| bm_id := bm_id bookmark;
     bm_name := newName;
     bm_description := bm_description bookmark;
     bm_createdAt := bm_createdAt bookmark;
     bm_centerX := bm_centerX bookmark;
     bm_centerY := bm_centerY bookmark;
     bm_zoom := bm_zoom bookmark;
     bm_power := bm_power bookmark;
     bm_maxIter := bm_maxIter bookmark;
     bm_colorScheme := bm_colorScheme bookmark;
     bm_coloringMode := bm_coloringMode bookmark;
     bm_numberBase := bm_numberBase bookmark;
     bm_burningShip := bm_burningShip bookmark;
     bm_juliaMode := bm_juliaMode bookmark;
     bm_juliaC := bm_juliaC bookmark |}.

(** [renameBookmark(id, newName)]: the bookmark that [getBookmark] finds is
    the object in the list, so writing its name changes the list. *)
Fixpoint rename_found (_bookmarks : list Bookmark) (id newName : string)
    : list Bookmark :=
  match _bookmarks with
  | [] => []
  | b :: rest =>
      if String.eqb (bm_id b) id then with_name b newName :: rest
      else b :: rename_found rest id newName
  end.

Definition renameBookmark (_bookmarks : list Bookmark) (id newName : string)
    : bool * list Bookmark :=
  match getBookmark _bookmarks id with
  | None => (false, _bookmarks)
  | Some _ => (true, rename_found _bookmarks id newName)
  end.

(** Two numbers that [===] cannot tell apart, or NaN twice. *)
Definition same_number (x y : F64.t) : Prop := x = y \/ F64.eqb x y = true.

Definition is_some {A} (x : option A) : bool :=
  match x with Some _ => true | None => false end.
End BookmarkManager.

(** ** shaders.js: the interior test *)

Module ShaderInterior.
Import Shader.
(** The test [iterations >= maxIterations - 0.5] that opens [getColor] (and
    that [main] makes before it, on the same values). *)
Definition interior_test (iterations maxIterations : F32.t) : bool :=
  F32.geb iterations (F32.sub maxIterations lit_0_5).

(** The threshold [u_maxIter - 0.5] of the interior test, for the caps the
    validator lets through: a finite number above [min(n, 2000) - 1]. *)
Definition threshold_ok (n : nat) : bool :=
  let t := F32.sub (F32.of_F64 (F64.of_Z (Z.of_nat n))) lit_0_5 in
  is_finite t && F32.valid t
  && ((Z.min (Z.of_nat n) 2000 - 1) * 2 ^ 149 <? F32.units t)
  && negb (F32.geb (F32.of_Z 0) (F32.of_F64 (F64.of_Z (Z.of_nat n)))).
End ShaderInterior.

(* ================================================================== *)
(** * Properties *)

(** ** Rounding to nearest on integers, and Knuth's TwoSum *)

Module RoundingFacts.
Import Rounding.
Section Precision.
Variable p : Z.
Hypothesis Hp : 1 <= p.

Lemma pow2_pos k : 0 < 2 ^ k \/ k < 0.
Proof. destruct (Z.le_gt_cases 0 k); [left; now apply Z.pow_pos_nonneg | right; lia]. Qed.

Lemma pow2_gt0 k : 0 <= k -> 0 < 2 ^ k.
Proof. intro. now apply Z.pow_pos_nonneg. Qed.

Lemma pow2_le a b : 0 <= a <= b -> 2 ^ a <= 2 ^ b.
Proof. intro. apply Z.pow_le_mono_r; lia. Qed.

Lemma pow2_lt a b : 0 <= a < b -> 2 ^ a < 2 ^ b.
Proof. intro. apply Z.pow_lt_mono_r; lia. Qed.

Lemma pow2_divide a b : 0 <= a <= b -> (2 ^ a | 2 ^ b).
Proof.
  intro H. exists (2 ^ (b - a)). rewrite <- Z.pow_add_r by lia. f_equal. lia.
Qed.

Lemma pow2_succ k : 0 <= k -> 2 ^ (k + 1) = 2 * 2 ^ k.
Proof. intro. rewrite Z.pow_add_r by lia. lia. Qed.

Lemma cexp_nonneg x : 0 <= cexp p x.
Proof. unfold cexp. lia. Qed.

Lemma cexp_opp x : cexp p (- x) = cexp p x.
Proof. unfold cexp. now rewrite Z.abs_opp. Qed.

Lemma cexp_abs x : cexp p (Z.abs x) = cexp p x.
Proof. unfold cexp. now rewrite Z.abs_idemp. Qed.

Lemma abs_lt_pow2_log2 x : Z.abs x < 2 ^ (Z.log2 (Z.abs x) + 1).
Proof.
  destruct (Z.eq_dec x 0) as [->|Hx].
  - cbn. lia.
  - apply Z.log2_spec. lia.
Qed.

Lemma abs_lt_cexp x : Z.abs x < 2 ^ (cexp p x + p).
Proof.
  eapply Z.lt_le_trans; [apply abs_lt_pow2_log2|].
  apply pow2_le. unfold cexp. pose proof (Z.log2_nonneg (Z.abs x)). lia.
Qed.

Lemma cexp_le x k : 0 <= k -> Z.abs x < 2 ^ (k + p) -> cexp p x <= k.
Proof.
  intros Hk Hx. unfold cexp.
  destruct (Z.eq_dec x 0) as [->|Hx0];
    [change (Z.log2 (Z.abs 0)) with 0; lia|].
  apply Z.log2_lt_pow2 in Hx; [|lia]. lia.
Qed.

Lemma cexp_mono x y : Z.abs x <= Z.abs y -> cexp p x <= cexp p y.
Proof.
  intro H. unfold cexp. pose proof (Z.log2_le_mono _ _ H). lia.
Qed.

Lemma cexp_pos_ge x : 0 < cexp p x -> 2 ^ (cexp p x + p - 1) <= Z.abs x.
Proof.
  unfold cexp. intro H.
  replace (Z.max 0 (Z.log2 (Z.abs x) + 1 - p) + p - 1) with (Z.log2 (Z.abs x)) by lia.
  apply Z.log2_spec.
  destruct (Z.eq_dec x 0) as [->|]; [change (Z.log2 (Z.abs 0)) with 0 in H; lia | lia].
Qed.

Lemma cexp_small x : Z.abs x < 2 ^ p -> cexp p x = 0.
Proof.
  intro H. pose proof (cexp_nonneg x). pose proof (cexp_le x 0). 
  rewrite Z.add_0_l in *. lia.
Qed.

(** A multiple of [2^k] that is at most [2^(k+p)] in magnitude is
    representable. *)
Lemma format_bounded_multiple k z :
  0 <= k -> (2 ^ k | z) -> Z.abs z <= 2 ^ (k + p) -> in_format p z.
Proof.
  intros Hk Hd Hz. unfold in_format.
  destruct (Z.lt_ge_cases (Z.abs z) (2 ^ (k + p))) as [Hlt|Hge].
  - apply Z.divide_trans with (2 ^ k); [|exact Hd].
    apply pow2_divide. split; [apply cexp_nonneg | now apply cexp_le].
  - assert (Habs : Z.abs z = 2 ^ (k + p)) by lia.
    assert (Hc : cexp p z = k + 1).
    { unfold cexp. rewrite Habs, Z.log2_pow2 by lia. lia. }
    rewrite Hc. apply Z.divide_abs_r. rewrite Habs. apply pow2_divide. lia.
Qed.

Lemma in_format_0 : in_format p 0.
Proof. unfold in_format. apply Z.divide_0_r. Qed.

Lemma in_format_opp x : in_format p x -> in_format p (- x).
Proof. unfold in_format. rewrite cexp_opp. apply Z.divide_opp_r. Qed.

Lemma in_format_bound x : in_format p x -> forall k, 0 <= k -> k <= cexp p x -> (2 ^ k | x).
Proof.
  intros H k Hk Hle. eapply Z.divide_trans; [|exact H]. apply pow2_divide. lia.
Qed.

(** *** The rounding function *)

Lemma rne_div_cases x k :
  0 <= k ->
  let q := x / 2 ^ k in
  let r := x mod 2 ^ k in
  x = q * 2 ^ k + r /\ 0 <= r < 2 ^ k
  /\ ((rne_div x k = q /\ 2 * r <= 2 ^ k) \/ (rne_div x k = q + 1 /\ 2 ^ k <= 2 * r)).
Proof.
  intros Hk q r. pose proof (pow2_gt0 k Hk) as HP.
  assert (Hx : x = q * 2 ^ k + r).
  { subst q r. rewrite Z.mul_comm. apply Z.div_mod. lia. }
  assert (Hr : 0 <= r < 2 ^ k) by (apply Z.mod_pos_bound; lia).
  repeat split; try tauto; try lia.
  unfold rne_div. fold q r.
  destruct (Z.compare_spec (2 * r) (2 ^ k)).
  - destruct (Z.even q); [left|right]; lia.
  - left; lia.
  - right; lia.
Qed.

Lemma rne_div_opp x k : 0 <= k -> rne_div (- x) k = - rne_div x k.
Proof.
  intro Hk. pose proof (pow2_gt0 k Hk) as HP.
  destruct (rne_div_cases x k Hk) as (Hx & Hr & _).
  set (P := 2 ^ k) in *. set (q := x / P) in *. set (r := x mod P) in *.
  unfold rne_div. fold P q r.
  destruct (Z.eq_dec r 0) as [Hr0|Hr0].
  - assert (Hq' : - x / P = - q)
      by (symmetry; apply (Z.div_unique (- x) P (- q) 0); lia).
    assert (Hr' : - x mod P = 0)
      by (symmetry; apply (Z.mod_unique (- x) P (- q) 0); lia).
    rewrite Hq', Hr', Hr0.
    destruct (Z.compare_spec (2 * 0) P); lia.
  - assert (Hq' : - x / P = - q - 1)
      by (symmetry; apply (Z.div_unique (- x) P (- q - 1) (P - r)); lia).
    assert (Hr' : - x mod P = P - r)
      by (symmetry; apply (Z.mod_unique (- x) P (- q - 1) (P - r)); lia).
    rewrite Hq', Hr'.
    replace (- q - 1) with (- (q + 1)) by lia.
    rewrite Z.even_opp, Z.even_add. change (Z.even 1) with false.
    destruct (Z.compare_spec (2 * r) P), (Z.compare_spec (2 * (P - r)) P); try lia.
    destruct (Z.even q); cbn; lia.
Qed.

Lemma rnd_opp x : rnd p (- x) = - rnd p x.
Proof.
  unfold rnd. rewrite cexp_opp, rne_div_opp by apply cexp_nonneg. lia.
Qed.

Lemma rnd_divide x : (2 ^ cexp p x | rnd p x).
Proof. unfold rnd. apply Z.divide_factor_r. Qed.

Lemma rnd_error x : 2 * Z.abs (rnd p x - x) <= 2 ^ cexp p x.
Proof.
  unfold rnd.
  destruct (rne_div_cases x (cexp p x) (cexp_nonneg x)) as (Hx & Hr & [[-> H]|[-> H]]);
    lia.
Qed.

Lemma rnd_nearest_multiple x g :
  Z.abs (rnd p x - x) <= Z.abs (g * 2 ^ cexp p x - x).
Proof.
  unfold rnd.
  destruct (rne_div_cases x (cexp p x) (cexp_nonneg x)) as (Hx & Hr & Hc).
  set (P := 2 ^ cexp p x) in *. set (q := x / P) in *. set (r := x mod P) in *.
  assert (HP : 0 < P) by (apply pow2_gt0, cexp_nonneg).
  destruct (Z.le_gt_cases g q) as [Hg|Hg].
  - assert ((q - g) * P >= 0) by nia.
    destruct Hc as [[-> Hc]|[-> Hc]]; nia.
  - assert ((g - q) * P >= P) by nia.
    destruct Hc as [[-> Hc]|[-> Hc]]; nia.
Qed.

Lemma rnd_id x : in_format p x -> rnd p x = x.
Proof.
  unfold in_format, rnd. intros [m Hm].
  destruct (rne_div_cases x (cexp p x) (cexp_nonneg x)) as (Hx & Hr & Hc).
  set (P := 2 ^ cexp p x) in *.
  assert (HP : 0 < P) by (apply pow2_gt0, cexp_nonneg).
  assert (Hr0 : x mod P = 0).
  { rewrite Hm. apply Z.mod_mul. lia. }
  rewrite Hr0 in *. destruct Hc as [[-> H]|[_ H]]; lia.
Qed.

Lemma rnd_0 : rnd p 0 = 0.
Proof. apply rnd_id, in_format_0. Qed.

Lemma rnd_abs_le_pow x : Z.abs (rnd p x) <= 2 ^ (cexp p x + p).
Proof.
  pose proof (abs_lt_cexp x) as Hx.
  pose proof (cexp_nonneg x) as Hc.
  rewrite Z.pow_add_r in * by lia.
  set (P := 2 ^ cexp p x) in *.
  assert (HP : 0 < P) by (apply pow2_gt0, cexp_nonneg).
  pose proof (rnd_nearest_multiple x (2 ^ p)) as H1.
  pose proof (rnd_nearest_multiple x (- 2 ^ p)) as H2.
  fold P in H1, H2.
  destruct (rnd_divide x) as [m Hm]. fold P in Hm. rewrite Hm in *.
  assert (Hpp : 0 < 2 ^ p) by (apply pow2_gt0; lia).
  destruct (Z.le_gt_cases m (2 ^ p)); destruct (Z.le_gt_cases (- 2 ^ p) m); try nia.
Qed.

Lemma rnd_in_format x : in_format p (rnd p x).
Proof.
  apply format_bounded_multiple with (cexp p x).
  - apply cexp_nonneg.
  - apply rnd_divide.
  - apply rnd_abs_le_pow.
Qed.

Lemma rnd_multiple k x : 0 <= k -> (2 ^ k | x) -> (2 ^ k | rnd p x).
Proof.
  intros Hk Hd. destruct (Z.le_gt_cases k (cexp p x)) as [Hle|Hgt].
  - eapply Z.divide_trans; [|apply rnd_divide]. apply pow2_divide. lia.
  - rewrite rnd_id; [exact Hd|]. unfold in_format.
    eapply Z.divide_trans; [|exact Hd]. apply pow2_divide.
    pose proof (cexp_nonneg x). lia.
Qed.

Lemma in_format_abs x : in_format p x -> in_format p (Z.abs x).
Proof.
  intro H. destruct (Z.abs_spec x) as [[_ ->]|[_ ->]];
    [exact H | now apply in_format_opp].
Qed.

Lemma in_format_bound_abs x : in_format p x -> Z.abs x < 2 ^ (cexp p x + p).
Proof. intros _. apply abs_lt_cexp. Qed.

(** [rnd p x] is a representable number nearest to [x]. *)
Lemma rnd_nearest x f : in_format p f -> Z.abs (rnd p x - x) <= Z.abs (f - x).
Proof.
  intro Hf.
  destruct (Z.eq_dec (cexp p x) 0) as [Hc0|Hc0].
  - rewrite rnd_id; [lia|]. unfold in_format. rewrite Hc0. apply Z.divide_1_l.
  - pose proof (cexp_nonneg x) as Hc.
    assert (Hlo : 2 ^ (cexp p x + p - 1) <= Z.abs x) by (apply cexp_pos_ge; lia).
    pose proof (abs_lt_cexp x) as Hhi.
    set (c := cexp p x) in *.
    assert (E1 : 2 ^ (c + p - 1) = 2 ^ (p - 1) * 2 ^ c).
    { rewrite <- Z.pow_add_r by lia. f_equal. lia. }
    assert (E2 : 2 ^ (c + p) = 2 ^ p * 2 ^ c).
    { rewrite <- Z.pow_add_r by lia. f_equal. lia. }
    destruct (Z.lt_ge_cases (Z.abs f) (2 ^ (c + p - 1))) as [Hf1|Hf1].
    + (* f below the binade of x *)
      destruct (Z.le_gt_cases 0 x) as [Hx|Hx].
      * pose proof (rnd_nearest_multiple x (2 ^ (p - 1))) as H. fold c in H.
        rewrite <- E1 in H. lia.
      * pose proof (rnd_nearest_multiple x (- 2 ^ (p - 1))) as H. fold c in H.
        rewrite Z.mul_opp_l, <- E1 in H. lia.
    + destruct (Z.le_gt_cases (Z.abs f) (2 ^ (c + p))) as [Hf2|Hf2].
      * (* f in the binade of x: a multiple of 2^c *)
        assert (Hd : (2 ^ c | f)).
        { destruct (Z.eq_dec (Z.abs f) (2 ^ (c + p))) as [He|Hne].
          - apply Z.divide_abs_r. rewrite He. apply pow2_divide. lia.
          - apply in_format_bound with (1 := Hf); [lia|].
            unfold cexp. apply Z.log2_le_pow2 in Hf1; lia. }
        destruct Hd as [g ->]. apply rnd_nearest_multiple.
      * (* f above the binade of x *)
        destruct (Z.le_gt_cases 0 x) as [Hx|Hx].
        -- pose proof (rnd_nearest_multiple x (2 ^ p)) as H. fold c in H.
           rewrite <- E2 in H. lia.
        -- pose proof (rnd_nearest_multiple x (- 2 ^ p)) as H. fold c in H.
           rewrite Z.mul_opp_l, <- E2 in H. lia.
Qed.

Lemma rnd_abs_ge x f : in_format p f -> Z.abs f <= Z.abs x -> Z.abs f <= Z.abs (rnd p x).
Proof.
  intros Hf Hle.
  destruct (Z.le_gt_cases 0 x) as [Hx|Hx].
  - pose proof (rnd_nearest x (Z.abs f) (in_format_abs f Hf)). lia.
  - pose proof (rnd_nearest x (- Z.abs f) (in_format_opp _ (in_format_abs f Hf))). lia.
Qed.

(** Rounding does not step over a representable bound. *)
Lemma rnd_abs_le x f : in_format p f -> Z.abs x <= Z.abs f -> Z.abs (rnd p x) <= Z.abs f.
Proof.
  intros Hf Hle.
  pose proof (rnd_nearest x (Z.abs f) (in_format_abs f Hf)).
  pose proof (rnd_nearest x (- Z.abs f) (in_format_opp _ (in_format_abs f Hf))).
  lia.
Qed.

Lemma in_format_pow2 k : 0 <= k -> in_format p (2 ^ k).
Proof.
  intro Hk. unfold in_format, cexp.
  rewrite Z.abs_eq by (apply Z.pow_nonneg; lia).
  rewrite Z.log2_pow2 by exact Hk.
  apply pow2_divide. lia.
Qed.

Lemma rnd_abs_le_pow2 x k : 0 <= k -> Z.abs x <= 2 ^ k -> Z.abs (rnd p x) <= 2 ^ k.
Proof.
  intros Hk Hle. pose proof (pow2_gt0 k Hk) as Hpos.
  rewrite <- (Z.abs_eq (2 ^ k)) by lia.
  apply rnd_abs_le; [now apply in_format_pow2 | lia].
Qed.

(** *** Exact operations *)

(** The error of a rounded sum is representable. *)
Lemma rnd_add_error_ordered x y :
  in_format p x -> in_format p y -> Z.abs y <= Z.abs x ->
  in_format p (rnd p (x + y) - (x + y)).
Proof.
  intros Hx Hy Hle.
  pose proof (cexp_nonneg y) as Hcy. pose proof (cexp_mono y x Hle) as Hcxy.
  apply format_bounded_multiple with (cexp p y); [exact Hcy| |].
  - assert (Hd : (2 ^ cexp p y | x + y)).
    { apply Z.divide_add_r; [now apply in_format_bound with (1 := Hx) | exact Hy]. }
    apply Z.divide_sub_r; [now apply rnd_multiple | exact Hd].
  - pose proof (rnd_nearest (x + y) x Hx). pose proof (abs_lt_cexp y). lia.
Qed.

Lemma rnd_add_error x y :
  in_format p x -> in_format p y -> in_format p (rnd p (x + y) - (x + y)).
Proof.
  intros Hx Hy. destruct (Z.le_ge_cases (Z.abs y) (Z.abs x)).
  - now apply rnd_add_error_ordered.
  - rewrite (Z.add_comm x y). now apply rnd_add_error_ordered.
Qed.

(** A sum that is no larger than either operand is representable
    (Sterbenz). *)
Lemma add_cancel_in_format x y :
  in_format p x -> in_format p y ->
  Z.abs (x + y) <= Z.abs x -> Z.abs (x + y) <= Z.abs y ->
  in_format p (x + y).
Proof.
  intros Hx Hy H1 H2.
  pose proof (cexp_nonneg x). pose proof (cexp_nonneg y).
  pose proof (abs_lt_cexp x). pose proof (abs_lt_cexp y).
  destruct (Z.le_ge_cases (cexp p x) (cexp p y)).
  - apply format_bounded_multiple with (cexp p x); [lia| |lia].
    apply Z.divide_add_r; [exact Hx | now apply in_format_bound with (1 := Hy)].
  - apply format_bounded_multiple with (cexp p y); [lia| |lia].
    apply Z.divide_add_r; [apply in_format_bound with (1 := Hx); lia | exact Hy].
Qed.

(** The rounded sum minus the larger operand is representable. *)
Lemma rnd_add_sub_l x y :
  in_format p x -> in_format p y -> Z.abs y <= Z.abs x ->
  in_format p (rnd p (x + y) - x).
Proof.
  intros Hx Hy Hle.
  pose proof (cexp_nonneg x) as Hcx. pose proof (cexp_nonneg y) as Hcy.
  pose proof (cexp_nonneg (x + y)) as Hcs.
  pose proof (cexp_mono y x Hle) as Hcyx.
  pose proof (abs_lt_cexp x) as Bx. pose proof (abs_lt_cexp y) as By.
  pose proof (rnd_error (x + y)) as Herr.
  assert (Hdy : (2 ^ cexp p y | x + y)).
  { apply Z.divide_add_r; [now apply in_format_bound with (1 := Hx) | exact Hy]. }
  destruct (Z.le_gt_cases (cexp p (x + y)) (cexp p y)) as [C1|C1].
  - (* the sum is exact *)
    rewrite rnd_id.
    + now replace (x + y - x) with y by lia.
    + unfold in_format. eapply Z.divide_trans; [|exact Hdy]. apply pow2_divide. lia.
  - destruct (Z.le_gt_cases (cexp p (x + y)) (cexp p x)) as [C2|C2].
    + apply format_bounded_multiple with (cexp p (x + y)); [lia| |].
      * apply Z.divide_sub_r; [apply rnd_divide|].
        now apply in_format_bound with (1 := Hx).
      * assert (E : 2 ^ (cexp p (x + y) + p) = 2 * 2 ^ (cexp p (x + y) - 1 + p)).
        { rewrite <- pow2_succ by lia. f_equal. lia. }
        assert (By' : Z.abs y < 2 ^ (cexp p (x + y) - 1 + p)).
        { eapply Z.lt_le_trans; [exact By|]. apply pow2_le. lia. }
        assert (2 ^ cexp p (x + y) <= 2 ^ (cexp p (x + y) - 1 + p)).
        { apply pow2_le. lia. }
        lia.
    + assert (C3 : cexp p (x + y) <= cexp p x + 1).
      { apply cexp_le; [lia|].
        replace (cexp p x + 1 + p) with (cexp p x + p + 1) by lia.
        rewrite pow2_succ by lia. lia. }
      assert (C4 : cexp p (x + y) = cexp p x + 1) by lia.
      rewrite C4, pow2_succ in Herr by lia.
      assert (Hd : (2 ^ cexp p x | rnd p (x + y) - x)).
      { apply Z.divide_sub_r; [|exact Hx].
        eapply Z.divide_trans; [|apply rnd_divide]. apply pow2_divide. lia. }
      apply format_bounded_multiple with (cexp p x); [lia|exact Hd|].
      destruct Hd as [m Hm]. rewrite Hm.
      rewrite Z.pow_add_r in * by lia.
      set (P := 2 ^ cexp p x) in *.
      assert (HP : 0 < P) by (apply pow2_gt0; lia).
      assert (Hpp : 0 < 2 ^ p) by (apply pow2_gt0; lia).
      assert (Hb : Z.abs (m * P) < P * 2 ^ p + P) by lia.
      rewrite Z.abs_mul, (Z.abs_eq P) in * by lia.
      assert (Z.abs m < 2 ^ p + 1) by nia.
      nia.
Qed.

(** *** Knuth's TwoSum on representable integers *)

Theorem two_sum_exact a b :
  in_format p a -> in_format p b ->
  let s := rnd p (a + b) in
  let v := rnd p (s - a) in
  let e := rnd p (rnd p (a - rnd p (s - v)) + rnd p (b - v)) in
  s + e = a + b.
Proof.
  intros Ha Hb s v e.
  assert (Hs : in_format p s) by apply rnd_in_format.
  assert (Hdelta : in_format p (s - (a + b))) by (now apply rnd_add_error).
  assert (Hdelta' : in_format p (a + b - s)).
  { replace (a + b - s) with (- (s - (a + b))) by lia. now apply in_format_opp. }
  destruct (Z.le_gt_cases (Z.abs b) (Z.abs a)) as [Hba|Hab].
  - (* |b| <= |a| : the steps of Fast2Sum *)
    assert (Hv : v = s - a).
    { apply rnd_id. now apply rnd_add_sub_l. }
    subst e. rewrite Hv.
    replace (s - (s - a)) with a by lia. rewrite (rnd_id a Ha).
    replace (a - a) with 0 by lia. rewrite rnd_0.
    replace (b - (s - a)) with (a + b - s) by lia.
    rewrite (rnd_id _ Hdelta'). cbn [Z.add]. rewrite (rnd_id _ Hdelta'). lia.
  - destruct (Z.le_gt_cases (Z.abs (a + b)) (Z.abs a)) as [Hcancel|Hgrow].
    + (* the sum is exact *)
      assert (Hsum : s = a + b).
      { apply rnd_id. apply add_cancel_in_format; try assumption; lia. }
      assert (Hv : v = b).
      { subst v. rewrite Hsum. replace (a + b - a) with b by lia. now apply rnd_id. }
      subst e. rewrite Hv, Hsum.
      replace (a + b - b) with a by lia. rewrite (rnd_id a Ha).
      replace (a - a) with 0 by lia. replace (b - b) with 0 by lia.
      rewrite rnd_0. cbn [Z.add]. rewrite rnd_0. lia.
    + assert (Has : Z.abs a <= Z.abs s).
      { apply rnd_abs_ge; [exact Ha | lia]. }
      assert (Hda : Z.abs (s - (a + b)) <= Z.abs a).
      { pose proof (rnd_nearest (a + b) b Hb). fold s in H. lia. }
      assert (Hvb : in_format p (v - b)).
      { subst v. replace (s - a) with (b + (s - (a + b))) by lia.
        apply rnd_add_sub_l; try assumption. lia. }
      assert (Hvs : in_format p (v - s)).
      { subst v. replace (s - a) with (s + - a) by lia.
        apply rnd_add_sub_l; [exact Hs | now apply in_format_opp | lia]. }
      assert (Hverr : in_format p (v - (s - a))).
      { subst v. replace (s - a) with (s + - a) by lia.
        apply rnd_add_error; [exact Hs | now apply in_format_opp]. }
      assert (Hav : rnd p (s - v) = s - v).
      { apply rnd_id. replace (s - v) with (- (v - s)) by lia.
        now apply in_format_opp. }
      assert (Hdb : rnd p (b - v) = b - v).
      { apply rnd_id. replace (b - v) with (- (v - b)) by lia.
        now apply in_format_opp. }
      subst e. rewrite Hav, Hdb.
      replace (a - (s - v)) with (v - (s - a)) by lia.
      rewrite (rnd_id _ Hverr).
      replace (v - (s - a) + (b - v)) with (a + b - s) by lia.
      rewrite (rnd_id _ Hdelta'). lia.
Qed.

End Precision.
End RoundingFacts.

(** ** [SpecFloat] addition and subtraction are correctly rounded *)

Module SpecFloatFacts.
Import Rounding RoundingFacts FloatValue.

Lemma digits2_pos_size m : digits2_pos m = Pos.size m.
Proof. induction m as [m IH|m IH|]; cbn; now rewrite ?IH. Qed.

Lemma digits2_pos_log2 m : Zpos (digits2_pos m) = Z.log2 (Zpos m) + 1.
Proof.
  rewrite digits2_pos_size.
  destruct m; cbn [Pos.size Z.log2]; rewrite ?Pos2Z.inj_succ; lia.
Qed.

Lemma digits2_pos_bounds m :
  2 ^ (Zpos (digits2_pos m) - 1) <= Zpos m < 2 ^ Zpos (digits2_pos m).
Proof.
  rewrite digits2_pos_log2. replace (Z.log2 (Zpos m) + 1 - 1) with (Z.log2 (Zpos m)) by lia.
  apply Z.log2_spec. lia.
Qed.

Lemma log2_unique_bounds x d : 0 < d -> 2 ^ (d - 1) <= x < 2 ^ d -> Z.log2 x + 1 = d.
Proof.
  intros Hd H. rewrite (Z.log2_unique x (d - 1)); [lia|lia|].
  replace (Z.succ (d - 1)) with d by lia. exact H.
Qed.

Lemma iter_pos_nat {A} (f : A -> A) n x :
  iter_pos f n x = Nat.iter (Pos.to_nat n) f x.
Proof.
  revert x. induction n as [n IH|n IH|]; intro x; cbn [iter_pos].
  - rewrite !IH, Pos2Nat.inj_xI.
    replace (2 * Pos.to_nat n)%nat with (Pos.to_nat n + Pos.to_nat n)%nat by lia.
    rewrite Nat.iter_succ_r, Nat.iter_add. reflexivity.
  - rewrite !IH, Pos2Nat.inj_xO.
    replace (2 * Pos.to_nat n)%nat with (Pos.to_nat n + Pos.to_nat n)%nat by lia.
    now rewrite Nat.iter_add.
  - reflexivity.
Qed.

Lemma pos_iter_xO m d : Zpos (Pos.iter xO m d) = Zpos m * 2 ^ Zpos d.
Proof.
  rewrite <- Z.shiftl_mul_pow2 by lia. cbn [Z.shiftl].
  revert m. induction d as [d IH|d IH|]; intro m; cbn [Pos.iter].
  - now rewrite <- !IH.
  - now rewrite <- !IH.
  - reflexivity.
Qed.

(** *** Shifting right with a round bit and a sticky bit *)

Lemma shr_state_init m : 0 <= m -> shr_state m 0 (Build_shr_record m false false).
Proof.
  intro Hm. split; [exact Hm|]. exists 0. cbn. lia.
Qed.

Lemma shr_1_state m k mrs :
  0 <= k -> shr_state m k mrs -> shr_state m (k + 1) (shr_1 mrs).
Proof.
  intros Hk (Hm & u & Hu & Hb & Hs).
  destruct mrs as [m' r s]. cbn [shr_m shr_r shr_s] in *.
  assert (HP : 0 < 2 ^ k) by (apply Z.pow_pos_nonneg; lia).
  assert (Hstep : forall n b,
             m' = 2 * n + Z.b2z b -> 0 <= n ->
             shr_state m (k + 1) (Build_shr_record n b (r || s))).
  { intros n b Hn Hn0. split; [exact Hn0|].
    exists (Z.b2z r * 2 ^ k + u). cbn [shr_m shr_r shr_s].
    rewrite Z.pow_add_r by lia. change (2 ^ 1) with 2.
    repeat split.
    - rewrite Hu, Hn. ring.
    - destruct r; cbn [Z.b2z]; lia.
    - destruct r; cbn [Z.b2z]; lia.
    - rewrite Hs. destruct r; cbn [Z.b2z orb].
      + symmetry. apply negb_true_iff, Z.eqb_neq. lia.
      + now rewrite Z.mul_0_l, Z.add_0_l. }
  destruct m' as [|[q|q|]|q]; cbn [shr_1]; try lia.
  - apply (Hstep 0 false); cbn; lia.
  - apply (Hstep (Zpos q) true); cbn [Z.b2z]; lia.
  - apply (Hstep (Zpos q) false); cbn [Z.b2z]; lia.
  - apply (Hstep 0 true); cbn; lia.
Qed.

Lemma shr_iter_state m n mrs :
  shr_state m 0 mrs ->
  shr_state m (Z.of_nat n) (Nat.iter n shr_1 mrs).
Proof.
  intro H. induction n as [|n IH]; [exact H|].
  rewrite Nat2Z.inj_succ. cbn [Nat.iter]. apply shr_1_state; [lia | exact IH].
Qed.

(** After [k] shifts, the record holds the quotient and the location of the
    remainder; rounding it to nearest-even is [rne_div]. *)
Lemma shr_state_round m k mrs :
  0 <= k -> shr_state m k mrs ->
  round_nearest_even (shr_m mrs) (loc_of_shr_record mrs) = rne_div m k.
Proof.
  intros Hk (Hm & u & Hu & Hb & Hs).
  destruct mrs as [m' r s]. cbn [shr_m shr_r shr_s] in *.
  assert (HP : 0 < 2 ^ k) by (apply Z.pow_pos_nonneg; lia).
  set (w := m - m' * 2 ^ k).
  assert (Hw : 2 * w = Z.b2z r * 2 ^ k + u) by (subst w; lia).
  assert (Hw0 : 0 <= w < 2 ^ k) by (destruct r; cbn [Z.b2z] in Hw; lia).
  assert (Hq : m / 2 ^ k = m') by (symmetry; apply (Z.div_unique m (2 ^ k) m' w); lia).
  assert (Hr : m mod 2 ^ k = w) by (symmetry; apply (Z.mod_unique m (2 ^ k) m' w); lia).
  unfold rne_div. rewrite Hq, Hr, Hw.
  destruct r, s; cbn [Z.b2z loc_of_shr_record round_nearest_even].
  - assert (u <> 0) by (intros ->; discriminate).
    destruct (Z.compare_spec (1 * 2 ^ k + u) (2 ^ k)); lia.
  - assert (u = 0) by (destruct (Z.eqb_spec u 0); [assumption|discriminate]).
    subst u. rewrite Z.add_0_r, Z.mul_1_l, Z.compare_refl. reflexivity.
  - assert (u <> 0) by (intros ->; discriminate).
    destruct (Z.compare_spec (0 * 2 ^ k + u) (2 ^ k)); lia.
  - assert (u = 0) by (destruct (Z.eqb_spec u 0); [assumption|discriminate]).
    subst u. destruct (Z.compare_spec (0 * 2 ^ k + 0) (2 ^ k)); lia.
Qed.

Lemma shr_state_quot m k mrs :
  0 <= k -> shr_state m k mrs -> shr_m mrs = m / 2 ^ k.
Proof.
  intros Hk (Hm & u & Hu & Hb & Hs).
  assert (HP : 0 < 2 ^ k) by (apply Z.pow_pos_nonneg; lia).
  set (w := m - shr_m mrs * 2 ^ k).
  assert (Hw : 2 * w = Z.b2z (shr_r mrs) * 2 ^ k + u) by (subst w; lia).
  assert (Hw0 : 0 <= w < 2 ^ k) by (destruct (shr_r mrs); cbn [Z.b2z] in Hw; lia).
  apply (Z.div_unique m (2 ^ k) (shr_m mrs) w); lia.
Qed.

Lemma shr_spec m e n :
  0 <= m -> 0 <= n ->
  let '(mrs, e') := shr (Build_shr_record m false false) e n in
  e' = e + n /\ shr_state m n mrs.
Proof.
  intros Hm Hn. unfold shr. destruct n as [|n|n]; try lia.
  - split; [lia | now apply shr_state_init].
  - split; [reflexivity|]. rewrite iter_pos_nat, <- positive_nat_Z.
    apply shr_iter_state. now apply shr_state_init.
Qed.

End SpecFloatFacts.

Module BinaryRoundFacts.
Import Rounding RoundingFacts FloatValue SpecFloatFacts.
Section Format.
Variables prec emax : Z.
Hypothesis Hprec : 0 < prec.
Hypothesis Hemax : prec < emax.

Local Abbreviation emin := (emin prec emax).
Local Abbreviation fexp := (fexp prec emax).
Local Abbreviation Zval := (Zval prec emax).
Local Abbreviation valid := (valid_binary prec emax).

Lemma Zdigits2_log2 m : 0 < m -> Zdigits2 m = Z.log2 m + 1.
Proof.
  destruct m as [|m|m]; try lia. intros _. cbn [Zdigits2]. apply digits2_pos_log2.
Qed.

Lemma rne_div_0 x : rne_div x 0 = x.
Proof.
  unfold rne_div. change (2 ^ 0) with 1. rewrite Z.mod_1_r, Z.div_1_r. reflexivity.
Qed.

Lemma rne_div_scale m n j :
  0 <= n -> 0 <= j -> rne_div (m * 2 ^ j) (n + j) = rne_div m n.
Proof.
  intros Hn Hj. unfold rne_div.
  assert (Hj' : 0 < 2 ^ j) by (apply Z.pow_pos_nonneg; lia).
  assert (Hn' : 0 < 2 ^ n) by (apply Z.pow_pos_nonneg; lia).
  rewrite Z.pow_add_r by lia.
  rewrite Z.div_mul_cancel_r by lia.
  rewrite Z.mul_mod_distr_r by lia.
  rewrite Z.mul_assoc, <- Zmult_compare_compat_r by lia.
  reflexivity.
Qed.

Lemma cexp_scaled mz ez :
  emin <= ez ->
  cexp prec (Zpos mz * 2 ^ (ez - emin)) = fexp (Zpos (digits2_pos mz) + ez) - emin.
Proof.
  intro He. unfold cexp, SpecFloat.fexp.
  rewrite Z.abs_eq by (apply Z.mul_nonneg_nonneg; [lia | apply Z.pow_nonneg; lia]).
  rewrite Z.log2_mul_pow2 by lia. rewrite digits2_pos_log2. lia.
Qed.

Lemma cond_Zopp_mul s a b : cond_Zopp s a * b = cond_Zopp s (a * b).
Proof. destruct s; cbn [cond_Zopp]; lia. Qed.

Lemma valid_not_finite x : is_finite x = false -> valid x = true.
Proof. destruct x; try discriminate; reflexivity. Qed.

(** The renormalisation step, on a mantissa that is zero, has at most
    [prec] bits for its exponent, or is exactly [2^prec]. *)
Lemma round_finish_finite s m1 e1 :
  0 < m1 -> emin <= e1 ->
  fexp (Z.log2 m1 + 1 + e1) = e1 \/ (m1 = 2 ^ prec /\ fexp (prec + e1) = e1) ->
  is_finite (round_finish prec emax s m1 e1) = true ->
  valid (round_finish prec emax s m1 e1) = true
  /\ Zval (round_finish prec emax s m1 e1) = cond_Zopp s (m1 * 2 ^ (e1 - emin)).
Proof.
  intros Hm He Hcase. unfold round_finish, shr_fexp.
  rewrite (Zdigits2_log2 m1 Hm). cbn [shr_record_of_loc].
  destruct Hcase as [Hc|[Hm1 Hc]].
  - rewrite Hc, Z.sub_diag. cbn [shr shr_m].
    destruct m1 as [|m|m]; try lia.
    destruct (e1 <=? emax - prec) eqn:Eo; [|discriminate]. intros _.
    split.
    + cbn [valid_binary]. unfold bounded, canonical_mantissa.
      rewrite digits2_pos_log2, Hc, Z.eqb_refl, Eo. reflexivity.
    + cbn [FloatValue.Zval]. apply cond_Zopp_mul.
  - assert (Hl : Z.log2 m1 = prec) by (rewrite Hm1; apply Z.log2_pow2; lia).
    assert (Hf : fexp (Z.log2 m1 + 1 + e1) = e1 + 1).
    { rewrite Hl. unfold SpecFloat.fexp in *. lia. }
    rewrite Hf. replace (e1 + 1 - e1) with 1 by lia.
    pose proof (shr_spec m1 e1 1) as Hshr.
    destruct (shr _ e1 1) as [mrs e2].
    destruct Hshr as [-> Hst]; [lia|lia|].
    pose proof (shr_state_quot _ _ _ (Z.le_0_1) Hst) as Hq.
    assert (Hm2 : shr_m mrs = 2 ^ (prec - 1)).
    { rewrite Hq, Hm1. change (2 ^ 1) with 2.
      replace prec with (prec - 1 + 1) at 1 by lia.
      rewrite Z.pow_add_r by lia. change (2 ^ 1) with 2.
      now rewrite Z.div_mul by lia. }
    assert (Hpos : 0 < 2 ^ (prec - 1)) by (apply Z.pow_pos_nonneg; lia).
    rewrite Hm2. destruct (2 ^ (prec - 1)) as [|m|m] eqn:Em; try lia.
    destruct (e1 + 1 <=? emax - prec) eqn:Eo; [|discriminate]. intros _.
    assert (Hd : Zpos (digits2_pos m) = prec).
    { rewrite digits2_pos_log2, <- Em, Z.log2_pow2 by lia. lia. }
    split.
    + cbn [valid_binary]. unfold bounded, canonical_mantissa.
      rewrite Hd, Eo.
      replace (fexp (prec + (e1 + 1))) with (e1 + 1)
        by (unfold SpecFloat.fexp in *; lia).
      now rewrite Z.eqb_refl.
    + cbn [FloatValue.Zval]. rewrite cond_Zopp_mul. f_equal.
      rewrite <- Em, Hm1, <- !Z.pow_add_r by lia. f_equal. lia.
Qed.

Lemma round_finish_zero s e1 :
  emin <= e1 -> round_finish prec emax s 0 e1 = S754_zero s.
Proof.
  intro He. unfold round_finish, shr_fexp. cbn [Zdigits2 shr_record_of_loc].
  assert (Hn : fexp (0 + e1) - e1 <= 0) by (unfold SpecFloat.fexp; lia).
  destruct (fexp (0 + e1) - e1) as [|n|n]; try lia; reflexivity.
Qed.

(** The overflow test of the renormalisation step passes when the value
    is below [2^emax]. *)
Lemma round_finish_in_range s m1 e1 :
  0 < m1 -> emin <= e1 ->
  fexp (Z.log2 m1 + 1 + e1) = e1 \/ (m1 = 2 ^ prec /\ fexp (prec + e1) = e1) ->
  m1 * 2 ^ (e1 - emin) < 2 ^ (emax - emin) ->
  is_finite (round_finish prec emax s m1 e1) = true.
Proof.
  intros Hm He Hcase Hlt. unfold round_finish, shr_fexp.
  rewrite (Zdigits2_log2 m1 Hm). cbn [shr_record_of_loc].
  assert (Hex : forall k, 0 <= k -> emax <= k + e1 -> 2 ^ k <= m1 -> False).
  { intros k Hk0 Hk Hk'.
    assert (Hle : 2 ^ (emax - emin) <= 2 ^ (k + (e1 - emin)))
      by (apply Z.pow_le_mono_r; lia).
    rewrite Z.pow_add_r in Hle by lia.
    assert (0 < 2 ^ (e1 - emin)) by (apply Z.pow_pos_nonneg; lia).
    nia. }
  destruct Hcase as [Hc|[Hm1 Hc]].
  - rewrite Hc, Z.sub_diag. cbn [shr shr_m].
    destruct m1 as [|m|m]; try lia.
    destruct (e1 <=? emax - prec) eqn:Eo; [reflexivity|].
    apply Z.leb_gt in Eo. exfalso.
    apply (Hex (Z.log2 (Zpos m))).
    + apply Z.log2_nonneg.
    + unfold SpecFloat.fexp, SpecFloat.emin in *. lia.
    + apply Z.log2_spec. lia.
  - assert (Hl : Z.log2 m1 = prec) by (rewrite Hm1; apply Z.log2_pow2; lia).
    assert (Hf : fexp (Z.log2 m1 + 1 + e1) = e1 + 1).
    { rewrite Hl. unfold SpecFloat.fexp in *. lia. }
    rewrite Hf. replace (e1 + 1 - e1) with 1 by lia.
    pose proof (shr_spec m1 e1 1) as Hshr.
    destruct (shr _ e1 1) as [mrs e2].
    destruct Hshr as [-> Hst]; [lia|lia|].
    pose proof (shr_state_quot _ _ _ (Z.le_0_1) Hst) as Hq.
    assert (Hm2 : shr_m mrs = 2 ^ (prec - 1)).
    { rewrite Hq, Hm1. change (2 ^ 1) with 2.
      replace prec with (prec - 1 + 1) at 1 by lia.
      rewrite Z.pow_add_r by lia. change (2 ^ 1) with 2.
      now rewrite Z.div_mul by lia. }
    assert (Hpos : 0 < 2 ^ (prec - 1)) by (apply Z.pow_pos_nonneg; lia).
    rewrite Hm2. destruct (2 ^ (prec - 1)) as [|m|m] eqn:Em; try lia.
    destruct (e1 + 1 <=? emax - prec) eqn:Eo; [reflexivity|].
    apply Z.leb_gt in Eo. exfalso.
    apply (Hex prec); lia.
Qed.

Lemma round_finish_spec s m1 e1 :
  0 <= m1 -> emin <= e1 ->
  m1 = 0 \/ fexp (Z.log2 m1 + 1 + e1) = e1
  \/ (m1 = 2 ^ prec /\ fexp (prec + e1) = e1) ->
  valid (round_finish prec emax s m1 e1) = true
  /\ (is_finite (round_finish prec emax s m1 e1) = true ->
      Zval (round_finish prec emax s m1 e1) = cond_Zopp s (m1 * 2 ^ (e1 - emin)))
  /\ (m1 * 2 ^ (e1 - emin) < 2 ^ (emax - emin) ->
      is_finite (round_finish prec emax s m1 e1) = true).
Proof.
  intros Hm He Hcase.
  destruct (Z.eq_dec m1 0) as [->|Hm0].
  - rewrite round_finish_zero by exact He. split; [reflexivity|].
    split; [|reflexivity].
    intros _. destruct s; reflexivity.
  - assert (Hcase' : fexp (Z.log2 m1 + 1 + e1) = e1
                     \/ (m1 = 2 ^ prec /\ fexp (prec + e1) = e1)) by tauto.
    assert (Hr : m1 * 2 ^ (e1 - emin) < 2 ^ (emax - emin) ->
                 is_finite (round_finish prec emax s m1 e1) = true)
      by (apply round_finish_in_range; try assumption; lia).
    destruct (is_finite (round_finish prec emax s m1 e1)) eqn:Ef.
    + destruct (round_finish_finite s m1 e1) as [Hv Hz]; try assumption; try lia.
      split; [exact Hv | split; [intros _; exact Hz | reflexivity]].
    + split; [now apply valid_not_finite | split; [discriminate | exact Hr]].
Qed.

Lemma binary_round_aux_finish s mx ex lx :
  binary_round_aux prec emax s mx ex lx
  = let '(mrs, e1) := shr_fexp prec emax mx ex lx in
    round_finish prec emax s
      (round_nearest_even (shr_m mrs) (loc_of_shr_record mrs)) e1.
Proof.
  unfold binary_round_aux, round_finish.
  destruct (shr_fexp prec emax mx ex lx) as [mrs e1]. reflexivity.
Qed.

Lemma fexp_ge e : emin <= fexp e.
Proof. unfold SpecFloat.fexp. lia. Qed.

(** [binary_round_aux] on an exact mantissa whose exponent is not above
    its canonical exponent: shift, round to nearest-even, renormalise. *)
Lemma binary_round_aux_gen s mz ez :
  ez <= fexp (Zpos (digits2_pos mz) + ez) ->
  let e1 := fexp (Zpos (digits2_pos mz) + ez) in
  let r := binary_round_aux prec emax s (Zpos mz) ez loc_Exact in
  valid r = true
  /\ (is_finite r = true ->
      Zval r = cond_Zopp s (rne_div (Zpos mz) (e1 - ez) * 2 ^ (e1 - emin)))
  /\ (rne_div (Zpos mz) (e1 - ez) * 2 ^ (e1 - emin) < 2 ^ (emax - emin) ->
      is_finite r = true).
Proof.
  intros Hf e1 r. subst r. rewrite binary_round_aux_finish. unfold shr_fexp.
  cbn [Zdigits2 shr_record_of_loc].
  set (d := Zpos (digits2_pos mz)) in *. fold e1.
  set (n := e1 - ez).
  assert (Hn : 0 <= n) by (subst n; lia).
  assert (He1 : emin <= e1) by apply fexp_ge.
  pose proof (shr_spec (Zpos mz) ez n) as Hshr.
  destruct (shr _ ez n) as [mrs e1'].
  destruct Hshr as [-> Hst]; [lia|exact Hn|].
  rewrite (shr_state_round _ _ _ Hn Hst).
  replace (ez + n) with e1 by (subst n; lia).
  pose proof (digits2_pos_bounds mz) as Hd. fold d in Hd.
  assert (Hd0 : 0 < d) by (subst d; lia).
  destruct (Z.eq_dec n 0) as [Hn0|Hn0].
  - (* nothing is shifted out *)
    rewrite Hn0, rne_div_0.
    apply round_finish_spec; try lia.
    right; left. rewrite <- digits2_pos_log2. fold d.
    replace (d + e1) with (d + ez) by (subst n; lia). reflexivity.
  - destruct (rne_div_cases (Zpos mz) n Hn) as (Hx & Hr & Hc).
    assert (HP : 0 < 2 ^ n) by (apply Z.pow_pos_nonneg; lia).
    assert (Hpp : 0 < 2 ^ (prec - 1)) by (apply Z.pow_pos_nonneg; lia).
    assert (E3 : 2 ^ prec = 2 * 2 ^ (prec - 1)).
    { replace prec with (prec - 1 + 1) at 1 by lia.
      rewrite Z.pow_add_r by lia. change (2 ^ 1) with 2. lia. }
    assert (Hq0 : 0 <= Zpos mz / 2 ^ n) by (apply Z.div_pos; lia).
    destruct (Z.eq_dec e1 (d + ez - prec)) as [Hfe|Hfe].
    + (* the result is in the normal range *)
      assert (Hnd : n = d - prec) by (subst n; lia).
      assert (E1 : 2 ^ (d - 1) = 2 ^ (prec - 1) * 2 ^ n).
      { rewrite <- Z.pow_add_r by lia. f_equal. lia. }
      assert (E2 : 2 ^ d = 2 ^ prec * 2 ^ n).
      { rewrite <- Z.pow_add_r by lia. f_equal. lia. }
      assert (Hq : 2 ^ (prec - 1) <= Zpos mz / 2 ^ n < 2 ^ prec).
      { split.
        - apply Z.div_le_lower_bound; lia.
        - apply Z.div_lt_upper_bound; lia. }
      assert (Hm1 : 2 ^ (prec - 1) <= rne_div (Zpos mz) n <= 2 ^ prec).
      { destruct Hc as [[-> _]|[-> _]]; lia. }
      apply round_finish_spec; try lia.
      right.
      destruct (Z.eq_dec (rne_div (Zpos mz) n) (2 ^ prec)) as [Heq|Hne].
      * right. split; [exact Heq|]. unfold SpecFloat.fexp in *. lia.
      * left. rewrite (log2_unique_bounds _ prec); [|lia|lia].
        unfold SpecFloat.fexp in *. lia.
    + (* the result is subnormal *)
      assert (Hemin : e1 = emin) by (subst e1; unfold SpecFloat.fexp in *; lia).
      assert (Hdn : d + ez - prec < emin) by (subst e1; unfold SpecFloat.fexp in *; lia).
      assert (Hq : Zpos mz / 2 ^ n < 2 ^ (prec - 1)).
      { apply Z.div_lt_upper_bound; [lia|].
        eapply Z.lt_le_trans; [apply Hd|].
        rewrite <- Z.pow_add_r by lia. apply Z.pow_le_mono_r; lia. }
      assert (Hm1 : 0 <= rne_div (Zpos mz) n <= 2 ^ (prec - 1)).
      { destruct Hc as [[-> _]|[-> _]]; lia. }
      apply round_finish_spec; try lia.
      destruct (Z.eq_dec (rne_div (Zpos mz) n) 0) as [H0|H0]; [left; exact H0|].
      right; left.
      assert (Hl : Z.log2 (rne_div (Zpos mz) n) < prec).
      { apply Z.log2_lt_pow2; lia. }
      pose proof (Z.log2_nonneg (rne_div (Zpos mz) n)).
      unfold SpecFloat.fexp in *. lia.
Qed.

Lemma rnd_scaled mz ez :
  emin <= ez -> ez <= fexp (Zpos (digits2_pos mz) + ez) ->
  rnd prec (Zpos mz * 2 ^ (ez - emin))
  = rne_div (Zpos mz) (fexp (Zpos (digits2_pos mz) + ez) - ez)
    * 2 ^ (fexp (Zpos (digits2_pos mz) + ez) - emin).
Proof.
  intros He Hf.
  unfold rnd. rewrite cexp_scaled by exact He.
  set (e1 := fexp (Zpos (digits2_pos mz) + ez)) in *.
  replace (e1 - emin) with ((e1 - ez) + (ez - emin)) at 1 by lia.
  rewrite rne_div_scale by lia. reflexivity.
Qed.

Lemma binary_round_aux_spec s mz ez :
  emin <= ez -> ez <= fexp (Zpos (digits2_pos mz) + ez) ->
  is_finite (binary_round_aux prec emax s (Zpos mz) ez loc_Exact) = true ->
  valid (binary_round_aux prec emax s (Zpos mz) ez loc_Exact) = true
  /\ Zval (binary_round_aux prec emax s (Zpos mz) ez loc_Exact)
     = cond_Zopp s (rnd prec (Zpos mz * 2 ^ (ez - emin))).
Proof.
  intros He Hf Hfin.
  destruct (binary_round_aux_gen s mz ez Hf) as (Hv & Hz & _).
  split; [exact Hv|]. rewrite (Hz Hfin). f_equal.
  symmetry. now apply rnd_scaled.
Qed.

Lemma binary_round_aux_in_range s mz ez :
  emin <= ez -> ez <= fexp (Zpos (digits2_pos mz) + ez) ->
  rnd prec (Zpos mz * 2 ^ (ez - emin)) < 2 ^ (emax - emin) ->
  is_finite (binary_round_aux prec emax s (Zpos mz) ez loc_Exact) = true.
Proof.
  intros He Hf Hlt.
  destruct (binary_round_aux_gen s mz ez Hf) as (_ & _ & Hr).
  apply Hr. now rewrite <- rnd_scaled.
Qed.

Lemma shl_align_spec mx ex ex' :
  let '(mz, ez) := shl_align mx ex ex' in
  ez = Z.min ex ex' /\ Zpos mz = Zpos mx * 2 ^ (ex - ez).
Proof.
  unfold shl_align. destruct (ex' - ex) as [|d|d] eqn:E.
  - split; [lia|]. rewrite Z.sub_diag. cbn. lia.
  - split; [lia|]. rewrite Z.sub_diag. cbn. lia.
  - split; [lia|]. rewrite pos_iter_xO. f_equal. f_equal. lia.
Qed.

Lemma binary_round_spec s m e :
  emin <= e ->
  is_finite (binary_round prec emax s m e) = true ->
  valid (binary_round prec emax s m e) = true
  /\ Zval (binary_round prec emax s m e)
     = cond_Zopp s (rnd prec (Zpos m * 2 ^ (e - emin))).
Proof.
  intros He. unfold binary_round.
  pose proof (shl_align_spec m e (fexp (Zpos (digits2_pos m) + e))) as Hsh.
  destruct (shl_align m e _) as [mz ez]. destruct Hsh as [Hez Hmz].
  pose proof (fexp_ge (Zpos (digits2_pos m) + e)) as Hfe.
  assert (Hez' : emin <= ez) by lia.
  assert (Hd : Zpos (digits2_pos mz) + ez = Zpos (digits2_pos m) + e).
  { rewrite !digits2_pos_log2, Hmz, Z.log2_mul_pow2 by lia. lia. }
  replace (Zpos m * 2 ^ (e - emin)) with (Zpos mz * 2 ^ (ez - emin)).
  - apply binary_round_aux_spec; [exact Hez'|]. rewrite Hd. lia.
  - rewrite Hmz, <- Z.mul_assoc, <- Z.pow_add_r by lia. f_equal. f_equal. lia.
Qed.

Lemma binary_round_in_range s m e :
  emin <= e ->
  rnd prec (Zpos m * 2 ^ (e - emin)) < 2 ^ (emax - emin) ->
  is_finite (binary_round prec emax s m e) = true.
Proof.
  intros He. unfold binary_round.
  pose proof (shl_align_spec m e (fexp (Zpos (digits2_pos m) + e))) as Hsh.
  destruct (shl_align m e _) as [mz ez]. destruct Hsh as [Hez Hmz].
  pose proof (fexp_ge (Zpos (digits2_pos m) + e)) as Hfe.
  assert (Hez' : emin <= ez) by lia.
  assert (Hd : Zpos (digits2_pos mz) + ez = Zpos (digits2_pos m) + e).
  { rewrite !digits2_pos_log2, Hmz, Z.log2_mul_pow2 by lia. lia. }
  replace (Zpos m * 2 ^ (e - emin)) with (Zpos mz * 2 ^ (ez - emin)).
  - apply binary_round_aux_in_range; [exact Hez'|]. rewrite Hd. lia.
  - rewrite Hmz, <- Z.mul_assoc, <- Z.pow_add_r by lia. f_equal. f_equal. lia.
Qed.

(** No overflow: a result whose rounded magnitude is below [2^emax] is
    finite. *)
Lemma binary_normalize_in_range N e sz :
  emin <= e ->
  Z.abs (rnd prec (N * 2 ^ (e - emin))) < 2 ^ (emax - emin) ->
  is_finite (binary_normalize prec emax N e sz) = true.
Proof.
  intros He Hlt. destruct N as [|m|m]; cbn [binary_normalize].
  - reflexivity.
  - apply binary_round_in_range; [exact He|]. lia.
  - apply binary_round_in_range; [exact He|].
    replace (Z.neg m * 2 ^ (e - emin)) with (- (Zpos m * 2 ^ (e - emin))) in Hlt by lia.
    rewrite rnd_opp in Hlt. lia.
Qed.

Lemma binary_normalize_spec N e sz :
  emin <= e ->
  is_finite (binary_normalize prec emax N e sz) = true ->
  valid (binary_normalize prec emax N e sz) = true
  /\ Zval (binary_normalize prec emax N e sz) = rnd prec (N * 2 ^ (e - emin)).
Proof.
  intros He. destruct N as [|m|m]; cbn [binary_normalize].
  - intros _. split; [reflexivity|]. cbn. symmetry. apply rnd_0.
  - intro H. destruct (binary_round_spec false m e He H) as [Hv Hz].
    split; [exact Hv|]. rewrite Hz. reflexivity.
  - intro H. destruct (binary_round_spec true m e He H) as [Hv Hz].
    split; [exact Hv|]. rewrite Hz. cbn [cond_Zopp].
    rewrite <- rnd_opp. f_equal. lia.
Qed.

(** *** Valid numbers *)

Lemma valid_finite_emin s m e : valid (S754_finite s m e) = true -> emin <= e.
Proof.
  cbn [valid_binary]. unfold bounded, canonical_mantissa.
  intro H. apply andb_true_iff in H. destruct H as [H _].
  apply Z.eqb_eq in H. pose proof (fexp_ge (Zpos (digits2_pos m) + e)). lia.
Qed.

Lemma valid_in_format x : valid x = true -> in_format prec (Zval x).
Proof.
  destruct x as [s|s| |s m e]; try (intros _; apply in_format_0).
  intro Hv. pose proof (valid_finite_emin s m e Hv) as He.
  cbn [valid_binary] in Hv. unfold bounded, canonical_mantissa in Hv.
  apply andb_true_iff in Hv. destruct Hv as [Hc _]. apply Z.eqb_eq in Hc.
  cbn [FloatValue.Zval]. rewrite cond_Zopp_mul.
  assert (Hpos : in_format prec (Zpos m * 2 ^ (e - emin))).
  { unfold in_format. rewrite cexp_scaled, Hc by exact He.
    apply Z.divide_factor_r. }
  destruct s; cbn [cond_Zopp]; [now apply in_format_opp | exact Hpos].
Qed.

Lemma Zval_align s m e ez :
  ez <= e -> emin <= ez ->
  cond_Zopp s (Zpos m) * 2 ^ (e - emin)
  = cond_Zopp s (Zpos (fst (shl_align m e ez))) * 2 ^ (ez - emin).
Proof.
  intros H1 H2. pose proof (shl_align_spec m e ez) as Hs.
  destruct (shl_align m e ez) as [mz ez']. destruct Hs as [Hez Hmz].
  cbn [fst]. rewrite Hmz, !cond_Zopp_mul. f_equal.
  rewrite <- Z.mul_assoc, <- Z.pow_add_r by lia. f_equal. f_equal. lia.
Qed.

(** *** Addition and subtraction: when the result is finite, it is the
    rounding of the exact result *)

Lemma SFadd_finite x y :
  is_finite (SFadd prec emax x y) = true -> is_finite x = true /\ is_finite y = true.
Proof.
  destruct x as [[|]|[|]| |sx mx ex], y as [[|]|[|]| |sy my ey];
    cbn; intro H; try discriminate H; split; reflexivity.
Qed.

Lemma SFsub_finite x y :
  is_finite (SFsub prec emax x y) = true -> is_finite x = true /\ is_finite y = true.
Proof.
  destruct x as [[|]|[|]| |sx mx ex], y as [[|]|[|]| |sy my ey];
    cbn; intro H; try discriminate H; split; reflexivity.
Qed.

Lemma SFadd_spec x y :
  valid x = true -> valid y = true ->
  is_finite (SFadd prec emax x y) = true ->
  valid (SFadd prec emax x y) = true
  /\ Zval (SFadd prec emax x y) = rnd prec (Zval x + Zval y).
Proof.
  intros Hx Hy Hf.
  pose proof (valid_in_format x Hx) as Fx. pose proof (valid_in_format y Hy) as Fy.
  destruct (SFadd_finite _ _ Hf) as [Hfx Hfy].
  destruct x as [sx|sx| |sx mx ex], y as [sy|sy| |sy my ey];
    try discriminate Hfx; try discriminate Hfy.
  - destruct sx, sy; cbn; (split; [reflexivity | symmetry; apply rnd_0]).
  - cbn [SFadd]. split; [exact Hy|].
    change (Zval (S754_zero sx)) with 0. rewrite Z.add_0_l. symmetry. now apply rnd_id.
  - cbn [SFadd]. split; [exact Hx|].
    change (Zval (S754_zero sy)) with 0. rewrite Z.add_0_r. symmetry. now apply rnd_id.
  - pose proof (valid_finite_emin _ _ _ Hx) as Hex.
    pose proof (valid_finite_emin _ _ _ Hy) as Hey.
    cbn [SFadd] in *.
    destruct (binary_normalize_spec _ _ _ (Z.min_glb _ _ _ Hex Hey) Hf) as [Hv Hz].
    split; [exact Hv|]. rewrite Hz. f_equal.
    cbn [FloatValue.Zval].
    rewrite (Zval_align sx mx ex (Z.min ex ey)), (Zval_align sy my ey (Z.min ex ey)) by lia.
    ring.
Qed.

Lemma SFsub_spec x y :
  valid x = true -> valid y = true ->
  is_finite (SFsub prec emax x y) = true ->
  valid (SFsub prec emax x y) = true
  /\ Zval (SFsub prec emax x y) = rnd prec (Zval x - Zval y).
Proof.
  intros Hx Hy Hf.
  pose proof (valid_in_format x Hx) as Fx. pose proof (valid_in_format y Hy) as Fy.
  destruct (SFsub_finite _ _ Hf) as [Hfx Hfy].
  destruct x as [sx|sx| |sx mx ex], y as [sy|sy| |sy my ey];
    try discriminate Hfx; try discriminate Hfy.
  - destruct sx, sy; cbn; (split; [reflexivity | symmetry; apply rnd_0]).
  - cbn [SFsub]. split; [exact Hy|].
    change (Zval (S754_zero sx)) with 0. rewrite Z.sub_0_l.
    rewrite rnd_opp, rnd_id by exact Fy.
    cbn [FloatValue.Zval]. destruct sy; cbn [cond_Zopp negb]; lia.
  - cbn [SFsub]. split; [exact Hx|].
    change (Zval (S754_zero sy)) with 0. rewrite Z.sub_0_r. symmetry. now apply rnd_id.
  - pose proof (valid_finite_emin _ _ _ Hx) as Hex.
    pose proof (valid_finite_emin _ _ _ Hy) as Hey.
    cbn [SFsub] in *.
    destruct (binary_normalize_spec _ _ _ (Z.min_glb _ _ _ Hex Hey) Hf) as [Hv Hz].
    split; [exact Hv|]. rewrite Hz. f_equal.
    cbn [FloatValue.Zval].
    rewrite (Zval_align sx mx ex (Z.min ex ey)), (Zval_align sy my ey (Z.min ex ey)) by lia.
    ring.
Qed.

(** Addition and subtraction of finite numbers do not overflow when the
    rounded exact result is below [2^emax] in magnitude. *)
Lemma SFadd_in_range x y :
  valid x = true -> valid y = true ->
  is_finite x = true -> is_finite y = true ->
  Z.abs (rnd prec (Zval x + Zval y)) < 2 ^ (emax - emin) ->
  is_finite (SFadd prec emax x y) = true.
Proof.
  intros Hx Hy Hfx Hfy Hlt.
  destruct x as [sx|sx| |sx mx ex], y as [sy|sy| |sy my ey];
    try discriminate Hfx; try discriminate Hfy.
  - destruct sx, sy; reflexivity.
  - reflexivity.
  - reflexivity.
  - pose proof (valid_finite_emin _ _ _ Hx) as Hex.
    pose proof (valid_finite_emin _ _ _ Hy) as Hey.
    cbn [SFadd]. apply binary_normalize_in_range; [lia|].
    cbn [FloatValue.Zval] in Hlt.
    rewrite (Zval_align sx mx ex (Z.min ex ey)), (Zval_align sy my ey (Z.min ex ey))
      in Hlt by lia.
    rewrite <- Z.mul_add_distr_r in Hlt. exact Hlt.
Qed.

Lemma SFsub_in_range x y :
  valid x = true -> valid y = true ->
  is_finite x = true -> is_finite y = true ->
  Z.abs (rnd prec (Zval x - Zval y)) < 2 ^ (emax - emin) ->
  is_finite (SFsub prec emax x y) = true.
Proof.
  intros Hx Hy Hfx Hfy Hlt.
  destruct x as [sx|sx| |sx mx ex], y as [sy|sy| |sy my ey];
    try discriminate Hfx; try discriminate Hfy.
  - destruct sx, sy; reflexivity.
  - reflexivity.
  - reflexivity.
  - pose proof (valid_finite_emin _ _ _ Hx) as Hex.
    pose proof (valid_finite_emin _ _ _ Hy) as Hey.
    cbn [SFsub]. apply binary_normalize_in_range; [lia|].
    cbn [FloatValue.Zval] in Hlt.
    rewrite (Zval_align sx mx ex (Z.min ex ey)), (Zval_align sy my ey (Z.min ex ey))
      in Hlt by lia.
    rewrite <- Z.mul_sub_distr_r in Hlt. exact Hlt.
Qed.

Lemma SFadd_valid x y :
  valid x = true -> valid y = true -> valid (SFadd prec emax x y) = true.
Proof.
  intros Hx Hy. destruct (is_finite (SFadd prec emax x y)) eqn:Ef.
  - now apply SFadd_spec.
  - now apply valid_not_finite.
Qed.

Lemma SFsub_valid x y :
  valid x = true -> valid y = true -> valid (SFsub prec emax x y) = true.
Proof.
  intros Hx Hy. destruct (is_finite (SFsub prec emax x y)) eqn:Ef.
  - now apply SFsub_spec.
  - now apply valid_not_finite.
Qed.

Lemma valid_canonical s m e :
  valid (S754_finite s m e) = true -> fexp (Zpos (digits2_pos m) + e) = e.
Proof.
  cbn [valid_binary]. unfold bounded, canonical_mantissa.
  intro H. apply andb_true_iff in H. destruct H as [H _]. now apply Z.eqb_eq in H.
Qed.


End Format.
End BinaryRoundFacts.

(** ** The double-double kernel on binary32 *)

Module DoubleDoubleFacts.
Import Rounding RoundingFacts FloatValue BinaryRoundFacts Shader.
Import DoubleDoubleErrors.

Lemma F32_prec : 0 < F32.prec.
Proof. reflexivity. Qed.

Lemma F32_emax : F32.prec < F32.emax.
Proof. reflexivity. Qed.

Lemma add_spec x y :
  F32.valid x = true -> F32.valid y = true ->
  is_finite (F32.add x y) = true ->
  F32.valid (F32.add x y) = true
  /\ F32.units (F32.add x y) = rnd F32.prec (F32.units x + F32.units y).
Proof. apply SFadd_spec; reflexivity. Qed.

Lemma sub_spec x y :
  F32.valid x = true -> F32.valid y = true ->
  is_finite (F32.sub x y) = true ->
  F32.valid (F32.sub x y) = true
  /\ F32.units (F32.sub x y) = rnd F32.prec (F32.units x - F32.units y).
Proof. apply SFsub_spec; reflexivity. Qed.

Lemma units_in_format x : F32.valid x = true -> in_format F32.prec (F32.units x).
Proof. apply valid_in_format; reflexivity. Qed.

(** The rational value of a valid number is its integer value times
    [2^-149]. *)
Lemma SF2Q_units x :
  F32.valid x = true ->
  (SF2Q x == inject_Z (F32.units x) * Qpower 2 (-149))%Q.
Proof.
  destruct x as [s|s| |s m e]; try (intros _; cbn; ring).
  intro Hv. pose proof (valid_finite_emin F32.prec F32.emax s m e Hv) as He.
  change (emin F32.prec F32.emax) with (-149) in He.
  unfold F32.units. cbn [SF2Q FloatValue.Zval].
  change (emin F32.prec F32.emax) with (-149).
  rewrite inject_Z_mult, Zpower_Qpower by lia.
  rewrite <- Qmult_assoc. apply Qmult_comp; [reflexivity|].
  change (inject_Z 2) with (2%Q).
  rewrite <- Qpower_plus by discriminate.
  replace (e - -149 + -149) with e by lia. reflexivity.
Qed.

(** The operations of [twoSum] are all finite as soon as its error term
    is. *)
Lemma twoSum_finite a b :
  is_finite (snd (twoSum a b)) = true ->
  is_finite a = true /\ is_finite b = true
  /\ is_finite (F32.add a b) = true
  /\ is_finite (F32.sub (F32.add a b) a) = true
  /\ is_finite (F32.sub (F32.add a b) (F32.sub (F32.add a b) a)) = true
  /\ is_finite (F32.sub a (F32.sub (F32.add a b) (F32.sub (F32.add a b) a))) = true
  /\ is_finite (F32.sub b (F32.sub (F32.add a b) a)) = true.
Proof.
  unfold twoSum. cbn [snd]. intro He.
  apply SFadd_finite in He. destruct He as [Hda Hdb].
  pose proof Hda as Hda'. pose proof Hdb as Hdb'.
  apply SFsub_finite in Hda. destruct Hda as [Ha Hav].
  apply SFsub_finite in Hdb. destruct Hdb as [Hb Hv].
  pose proof Hav as Hav'. apply SFsub_finite in Hav. destruct Hav as [Hs _].
  repeat split; assumption.
Qed.

(** [twoSum] on integers-in-units: the result pair adds up to the exact sum
    whenever the error term is finite. *)
Lemma twoSum_units a b :
  F32.valid a = true -> F32.valid b = true ->
  is_finite (snd (twoSum a b)) = true ->
  F32.valid (fst (twoSum a b)) = true /\ F32.valid (snd (twoSum a b)) = true
  /\ is_finite (fst (twoSum a b)) = true
  /\ F32.units (fst (twoSum a b)) + F32.units (snd (twoSum a b))
     = F32.units a + F32.units b.
Proof.
  intros Va Vb He.
  destruct (twoSum_finite a b He) as (Fa & Fb & Fs & Fv & Fav & Fda & Fdb).
  unfold twoSum in *. cbn [fst snd] in *.
  set (s := F32.add a b) in *.
  set (v := F32.sub s a) in *.
  set (av := F32.sub s v) in *.
  set (da := F32.sub a av) in *.
  set (db := F32.sub b v) in *.
  destruct (add_spec a b Va Vb Fs) as [Vs Zs]. fold s in Vs, Zs.
  destruct (sub_spec s a Vs Va Fv) as [Vv Zv]. fold v in Vv, Zv.
  destruct (sub_spec s v Vs Vv Fav) as [Vav Zav]. fold av in Vav, Zav.
  destruct (sub_spec a av Va Vav Fda) as [Vda Zda]. fold da in Vda, Zda.
  destruct (sub_spec b v Vb Vv Fdb) as [Vdb Zdb]. fold db in Vdb, Zdb.
  destruct (add_spec da db Vda Vdb He) as [Ve Ze].
  repeat split; try assumption.
  rewrite Ze, Zda, Zdb, Zav, Zv, Zs.
  apply (two_sum_exact F32.prec); [unfold F32.prec; lia | | ];
    now apply units_in_format.
Qed.

Lemma add_in_range x y k :
  F32.valid x = true -> F32.valid y = true ->
  is_finite x = true -> is_finite y = true ->
  0 <= k < 277 ->
  Z.abs (F32.units x + F32.units y) <= 2 ^ k ->
  is_finite (F32.add x y) = true /\ F32.valid (F32.add x y) = true
  /\ Z.abs (F32.units (F32.add x y)) <= 2 ^ k.
Proof.
  intros Vx Vy Fx Fy Hk Hle.
  assert (Hr : Z.abs (rnd F32.prec (F32.units x + F32.units y)) <= 2 ^ k)
    by (apply rnd_abs_le_pow2; [unfold F32.prec|..]; lia).
  assert (Hf : is_finite (F32.add x y) = true).
  { apply SFadd_in_range; try assumption; try reflexivity.
    eapply Z.le_lt_trans; [exact Hr|].
    change (F32.emax - emin F32.prec F32.emax) with 277.
    apply Z.pow_lt_mono_r; lia. }
  destruct (add_spec x y Vx Vy Hf) as [Vs Us].
  rewrite Us. auto.
Qed.

Lemma sub_in_range x y k :
  F32.valid x = true -> F32.valid y = true ->
  is_finite x = true -> is_finite y = true ->
  0 <= k < 277 ->
  Z.abs (F32.units x - F32.units y) <= 2 ^ k ->
  is_finite (F32.sub x y) = true /\ F32.valid (F32.sub x y) = true
  /\ Z.abs (F32.units (F32.sub x y)) <= 2 ^ k.
Proof.
  intros Vx Vy Fx Fy Hk Hle.
  assert (Hr : Z.abs (rnd F32.prec (F32.units x - F32.units y)) <= 2 ^ k)
    by (apply rnd_abs_le_pow2; [unfold F32.prec|..]; lia).
  assert (Hf : is_finite (F32.sub x y) = true).
  { apply SFsub_in_range; try assumption; try reflexivity.
    eapply Z.le_lt_trans; [exact Hr|].
    change (F32.emax - emin F32.prec F32.emax) with 277.
    apply Z.pow_lt_mono_r; lia. }
  destruct (sub_spec x y Vx Vy Hf) as [Vs Us].
  rewrite Us. auto.
Qed.

(** No operation of [twoSum] overflows on operands of magnitude at most
    [2^122] (that is [2^271] units of [2^-149]): the error term is then
    finite. *)
Lemma twoSum_finite_in_range a b :
  F32.valid a = true -> F32.valid b = true ->
  is_finite a = true -> is_finite b = true ->
  Z.abs (F32.units a) <= 2 ^ 271 -> Z.abs (F32.units b) <= 2 ^ 271 ->
  is_finite (snd (twoSum a b)) = true.
Proof.
  intros Va Vb Fa Fb Ha Hb. unfold twoSum. cbn [snd].
  destruct (add_in_range a b 272 Va Vb Fa Fb) as (Fs & Vs & Hs); [lia|lia|].
  set (s := F32.add a b) in *.
  destruct (sub_in_range s a 273 Vs Va Fs Fa) as (Fv & Vv & Hv); [lia|lia|].
  set (v := F32.sub s a) in *.
  destruct (sub_in_range s v 274 Vs Vv Fs Fv) as (Fav & Vav & Hav); [lia|lia|].
  set (av := F32.sub s v) in *.
  destruct (sub_in_range a av 275 Va Vav Fa Fav) as (Fda & Vda & Hda); [lia|lia|].
  destruct (sub_in_range b v 274 Vb Vv Fb Fv) as (Fdb & Vdb & Hdb); [lia|lia|].
  destruct (add_in_range _ _ 276 Vda Vdb Fda Fdb) as (Fe & _ & _); [lia|lia|].
  exact Fe.
Qed.

(** C2, as stated, fails next to the overflow threshold: for
    a = -1.5 * 2^104 and b = (2^24 - 1) * 2^104 the sum a + b is in range
    and [s] is finite, but [s - a] overflows and the error term is NaN. *)
Lemma twoSum_fails_near_overflow :
  F32.valid near_max_a = true /\ F32.valid near_max_b = true
  /\ is_finite near_max_a = true /\ is_finite near_max_b = true
  /\ is_finite (F32.add near_max_a near_max_b) = true
  /\ is_finite (fst (twoSum near_max_a near_max_b)) = true
  /\ F32.sub (F32.add near_max_a near_max_b) near_max_a = S754_infinity false
  /\ snd (twoSum near_max_a near_max_b) = S754_nan
  /\ ~ (SF2Q (fst (twoSum near_max_a near_max_b))
        + SF2Q (snd (twoSum near_max_a near_max_b))
        == SF2Q near_max_a + SF2Q near_max_b)%Q.
Proof.
  repeat split; try (vm_compute; reflexivity).
  vm_compute. discriminate.
Qed.

(** C2, amended.  For all well-formed binary32 numbers [a] and [b] such
    that the error term returned by [twoSum(a, b)] is finite (no operation
    of [twoSum] has overflowed), [a], [b] and [s] are finite and
    [s + e = a + b] exactly, as rational numbers. *)
Theorem twoSum_exact_when_finite a b :
  F32.valid a = true -> F32.valid b = true ->
  is_finite (snd (twoSum a b)) = true ->
  is_finite a = true /\ is_finite b = true /\ is_finite (fst (twoSum a b)) = true
  /\ (SF2Q (fst (twoSum a b)) + SF2Q (snd (twoSum a b)) == SF2Q a + SF2Q b)%Q.
Proof.
  intros Va Vb He.
  destruct (twoSum_units a b Va Vb He) as (Vs & Ve & Fs & Hsum).
  destruct (twoSum_finite a b He) as (Fa & Fb & _).
  repeat split; try assumption.
  rewrite !SF2Q_units by assumption.
  rewrite <- !Qmult_plus_distr_l, <- !inject_Z_plus, Hsum. reflexivity.
Qed.

Lemma twoSum_exact_when_finite_witness :
  let a := F32.of_decimal 1 1 in
  let b := F32.of_Z 3 in
  F32.valid a = true /\ F32.valid b = true
  /\ is_finite (snd (twoSum a b)) = true
  /\ is_finite a = true /\ is_finite b = true /\ is_finite (fst (twoSum a b)) = true
  /\ (SF2Q (fst (twoSum a b)) + SF2Q (snd (twoSum a b)) == SF2Q a + SF2Q b)%Q.
Proof.
  intros a b.
  assert (Va : F32.valid a = true) by (vm_compute; reflexivity).
  assert (Vb : F32.valid b = true) by (vm_compute; reflexivity).
  assert (He : is_finite (snd (twoSum a b)) = true) by (vm_compute; reflexivity).
  split; [exact Va|]. split; [exact Vb|]. split; [exact He|].
  exact (twoSum_exact_when_finite a b Va Vb He).
Defined.

(** In particular [twoSum] is exact on all operands of magnitude at most
    [2^122]: none of its operations can overflow there. *)
Corollary twoSum_exact_in_range a b :
  F32.valid a = true -> F32.valid b = true ->
  is_finite a = true -> is_finite b = true ->
  Z.abs (F32.units a) <= 2 ^ 271 -> Z.abs (F32.units b) <= 2 ^ 271 ->
  is_finite (fst (twoSum a b)) = true /\ is_finite (snd (twoSum a b)) = true
  /\ (SF2Q (fst (twoSum a b)) + SF2Q (snd (twoSum a b)) == SF2Q a + SF2Q b)%Q.
Proof.
  intros Va Vb Fa Fb Ha Hb.
  pose proof (twoSum_finite_in_range a b Va Vb Fa Fb Ha Hb) as He.
  destruct (twoSum_units a b Va Vb He) as (Vs & Ve & Fs & Hsum).
  repeat split; try assumption.
  rewrite !SF2Q_units by assumption.
  rewrite <- !Qmult_plus_distr_l, <- !inject_Z_plus, Hsum. reflexivity.
Qed.

(** *** Double-double addition and multiplication *)

Lemma add_valid x y :
  F32.valid x = true -> F32.valid y = true -> F32.valid (F32.add x y) = true.
Proof. apply SFadd_valid; reflexivity. Qed.

Lemma sub_valid x y :
  F32.valid x = true -> F32.valid y = true -> F32.valid (F32.sub x y) = true.
Proof. apply SFsub_valid; reflexivity. Qed.


Lemma add_finite x y :
  is_finite (F32.add x y) = true -> is_finite x = true /\ is_finite y = true.
Proof. apply SFadd_finite. Qed.

(** The error of a finite native addition, in units. *)
Lemma add_error_units x y :
  F32.valid x = true -> F32.valid y = true ->
  (add_error x y
   == inject_Z (F32.units (F32.add x y) - (F32.units x + F32.units y))
      * Qpower 2 (-149))%Q.
Proof.
  intros Vx Vy. unfold add_error.
  rewrite !SF2Q_units by (try apply add_valid; assumption).
  unfold Z.sub. rewrite !inject_Z_plus, inject_Z_opp, inject_Z_plus. ring.
Qed.

Lemma ddValue_units a :
  valid_pair a ->
  (ddValue a == inject_Z (F32.units (fst a) + F32.units (snd a)) * Qpower 2 (-149))%Q.
Proof.
  intros [V1 V2]. unfold ddValue. rewrite !SF2Q_units by assumption.
  rewrite inject_Z_plus. ring.
Qed.

Lemma twoSum_valid_pair x y :
  F32.valid x = true -> F32.valid y = true -> valid_pair (twoSum x y).
Proof.
  intros Vx Vy. unfold twoSum, valid_pair. cbn [fst snd].
  split; repeat first [apply add_valid | apply sub_valid | assumption].
Qed.

(** [ddAdd], seen through its four [twoSum] calls and two native
    additions. *)
Lemma ddAdd_unfold a b :
  ddAdd a b
  = let s := twoSum (fst a) (fst b) in
    let t := twoSum (snd a) (snd b) in
    let s' := twoSum (fst s) (F32.add (snd s) (fst t)) in
    twoSum (fst s') (F32.add (snd s') (snd t)).
Proof. reflexivity. Qed.

Lemma ddAdd_units ax ay bx by_ :
  F32.valid ax = true -> F32.valid ay = true ->
  F32.valid bx = true -> F32.valid by_ = true ->
  forall s t s' r,
    s = twoSum ax bx -> t = twoSum ay by_ ->
    s' = twoSum (fst s) (F32.add (snd s) (fst t)) ->
    r = twoSum (fst s') (F32.add (snd s') (snd t)) ->
    is_finite (snd r) = true ->
    valid_pair r /\ valid_pair s /\ valid_pair t /\ valid_pair s'
    /\ F32.units (fst r) + F32.units (snd r)
       = (F32.units ax + F32.units ay) + (F32.units bx + F32.units by_)
         + (F32.units (F32.add (snd s) (fst t))
            - (F32.units (snd s) + F32.units (fst t)))
         + (F32.units (F32.add (snd s') (snd t))
            - (F32.units (snd s') + F32.units (snd t))).
Proof.
  intros Vax Vay Vbx Vby s t s' r Es Et Es' Er Hfin.
  pose proof (twoSum_valid_pair ax bx Vax Vbx) as Vs. rewrite <- Es in Vs.
  pose proof (twoSum_valid_pair ay by_ Vay Vby) as Vt. rewrite <- Et in Vt.
  destruct Vs as [Vs1 Vs2]. destruct Vt as [Vt1 Vt2].
  pose proof (add_valid _ _ Vs2 Vt1) as Vc.
  pose proof (twoSum_valid_pair _ _ Vs1 Vc) as Vs'. rewrite <- Es' in Vs'.
  destruct Vs' as [Vs'1 Vs'2].
  pose proof (add_valid _ _ Vs'2 Vt2) as Vw.
  (* finiteness, from the last error term back to the first *)
  assert (Hr : is_finite (snd (twoSum (fst s') (F32.add (snd s') (snd t)))) = true)
    by (now rewrite <- Er).
  destruct (twoSum_units _ _ Vs'1 Vw Hr) as (Vr1 & Vr2 & _ & Ur).
  destruct (twoSum_finite _ _ Hr) as (_ & Fw & _).
  destruct (add_finite _ _ Fw) as [Fs'2 Ft2].
  assert (Hs' : is_finite (snd (twoSum (fst s) (F32.add (snd s) (fst t)))) = true)
    by (now rewrite <- Es').
  destruct (twoSum_units _ _ Vs1 Vc Hs') as (_ & _ & _ & Us').
  destruct (twoSum_finite _ _ Hs') as (_ & Fc & _).
  destruct (add_finite _ _ Fc) as [Fs2 Ft1].
  assert (Hs : is_finite (snd (twoSum ax bx)) = true) by (now rewrite <- Es).
  assert (Ht : is_finite (snd (twoSum ay by_)) = true) by (now rewrite <- Et).
  destruct (twoSum_units _ _ Vax Vbx Hs) as (_ & _ & _ & Us).
  destruct (twoSum_units _ _ Vay Vby Ht) as (_ & _ & _ & Ut).
  rewrite <- Es in Us. rewrite <- Et in Ut. rewrite <- Es' in Us'. rewrite <- Er in Ur.
  rewrite <- Er in Vr1, Vr2.
  repeat split; try assumption. lia.
Qed.




(** The pair returned by [ddAdd] adds up to the exact sum of the operands
    plus the rounding errors of its two native additions. *)
Lemma ddAdd_accounting a b :
  valid_pair a -> valid_pair b ->
  is_finite (snd (ddAdd a b)) = true ->
  let s := twoSum (fst a) (fst b) in
  let t := twoSum (snd a) (snd b) in
  let s' := twoSum (fst s) (F32.add (snd s) (fst t)) in
  (ddValue (ddAdd a b)
   == ddValue a + ddValue b
      + add_error (snd s) (fst t) + add_error (snd s') (snd t))%Q.
Proof.
  intros [Vax Vay] [Vbx Vby].
  rewrite ddAdd_unfold. cbv zeta.
  remember (twoSum (fst a) (fst b)) as s eqn:Es.
  remember (twoSum (snd a) (snd b)) as t eqn:Et.
  remember (twoSum (fst s) (F32.add (snd s) (fst t))) as s' eqn:Es'.
  remember (twoSum (fst s') (F32.add (snd s') (snd t))) as r eqn:Er.
  intros Hfin.
  destruct (ddAdd_units _ _ _ _ Vax Vay Vbx Vby s t s' r Es Et Es' Er Hfin)
    as (Vr & [Vs1 Vs2] & [Vt1 Vt2] & [Vs'1 Vs'2] & Hu).
  rewrite (ddValue_units r Vr), (ddValue_units a (conj Vax Vay)),
    (ddValue_units b (conj Vbx Vby)).
  rewrite !add_error_units by assumption.
  rewrite <- !Qmult_plus_distr_l, <- !inject_Z_plus, Hu. reflexivity.
Qed.


(** Without the product of the low parts, [ddMul] is still not exact: the
    cross terms are rounded.  Here [B.lo = 0], so the product of the low
    parts is 0, and the result misses [2^-76] of [A * B]. *)
Lemma ddMul_cross_terms_round :
  valid_pair dd_cross_a /\ valid_pair dd_cross_b
  /\ is_finite (snd (ddMul dd_cross_a dd_cross_b)) = true
  /\ (SF2Q (snd dd_cross_a) * SF2Q (snd dd_cross_b) == 0)%Q
  /\ (twoProd_error (fst dd_cross_a) (fst dd_cross_b) == 0)%Q
  /\ ~ (mul_error (snd dd_cross_a) (fst dd_cross_b) == 0)%Q
  /\ ~ (ddValue (ddMul dd_cross_a dd_cross_b)
        == ddValue dd_cross_a * ddValue dd_cross_b)%Q.
Proof.
  repeat split; try (vm_compute; reflexivity); vm_compute; discriminate.
Qed.

(** [twoProd] itself is not exact when the product underflows:
    [2^-75 * 2^-75] gives the pair (0, 0). *)
Lemma twoProd_underflow :
  F32.valid tiny_factor = true
  /\ twoProd tiny_factor tiny_factor = (F32.zero, F32.zero)
  /\ ~ (twoProd_error tiny_factor tiny_factor == 0)%Q.
Proof.
  repeat split; try (vm_compute; reflexivity); vm_compute; discriminate.
Qed.




(** Operands without rounding: with integer components every native
    addition of [ddAdd] is exact, and so is the result. *)
Lemma ddAdd_exact_example :
  let a := (F32.of_Z 5, F32.of_Z 0) in
  let b := (F32.of_Z 7, F32.of_Z 0) in
  ddAdd a b = (F32.of_Z 12, F32.zero)
  /\ (ddValue (ddAdd a b) == ddValue a + ddValue b)%Q.
Proof. split; vm_compute; reflexivity. Qed.

End DoubleDoubleFacts.

(** ** The CPU reference iteration *)

Module ComplexMathFacts.
Import ComplexMath.
Section WithMath.
Variable M : JsMath.

Lemma origin_step :
  mandelbrot_step M default_options lit_2 (F64.zero, F64.zero) (F64.zero, F64.zero)
  = ((F64.zero, F64.zero), false).
Proof. vm_compute. reflexivity. Qed.

Lemma origin_loop (n i : nat) :
  mandelbrot_loop M default_options lit_2 (F64.zero, F64.zero) n i (F64.zero, F64.zero)
  = None.
Proof.
  revert i. induction n as [|n IH]; intro i; [reflexivity|].
  cbn [mandelbrot_loop]. rewrite origin_step. apply IH.
Qed.

(** C7.  For c = (0, 0) and power 2 the escape test never fires: whatever
    the iteration cap [maxIter] (in particular every [maxIter >= 1]), all
    [maxIter] turns of the loop run to the end and [mandelbrotIteration]
    returns [maxIter]. *)
Theorem origin_never_escapes (maxIter : nat) :
  mandelbrot_loop M default_options (F64.of_Z 2) (F64.zero, F64.zero)
    maxIter 0 (F64.zero, F64.zero) = None
  /\ mandelbrotIteration M (F64.zero, F64.zero) maxIter (F64.of_Z 2) default_options
     = maxIter.
Proof.
  split.
  - apply origin_loop.
  - unfold mandelbrotIteration. cbn [juliaMode default_options].
    change (F64.of_Z 2) with lit_2. now rewrite origin_loop.
Qed.

(** C8.  At c = (0.5, 0.5), power 2, maxIterations 100 the standard
    iteration escapes at count 4 and the Burning Ship iteration at count
    3: the two counts differ. *)
Theorem burning_ship_changes_count :
  mandelbrotIteration M fixture_c 100 (F64.of_Z 2) default_options = 4%nat
  /\ mandelbrotIteration M fixture_c 100 (F64.of_Z 2) burning_options = 3%nat
  /\ mandelbrotIteration M fixture_c 100 (F64.of_Z 2) burning_options
     <> mandelbrotIteration M fixture_c 100 (F64.of_Z 2) default_options.
Proof.
  assert (H4 : mandelbrotIteration M fixture_c 100 (F64.of_Z 2) default_options = 4%nat)
    by (vm_compute; reflexivity).
  assert (H3 : mandelbrotIteration M fixture_c 100 (F64.of_Z 2) burning_options = 3%nat)
    by (vm_compute; reflexivity).
  rewrite H3, H4. repeat split; discriminate.
Qed.

(** The first-escape reading of [smooth_loop]: started at counter [i], it
    returns at the first counter [j] whose updated [z] passes the test,
    with the smoothed value built from that [j], that |z|^2 and
    [Math.log(power)] in both divisors. *)
Lemma smooth_loop_escape power c n i z0 v :
  smooth_loop M power c n i z0 = Some v ->
  exists j zj,
    (i <= j < i + n)%nat
    /\ F64.gtb (magnitudeSquared zj) lit_256 = true
    /\ v = smooth_value M power j (magnitudeSquared zj).
Proof.
  revert i z0. induction n as [|n IH]; intros i z0; cbn [smooth_loop]; [discriminate|].
  destruct (F64.gtb _ lit_256) eqn:E.
  - intros [= <-]. eexists i, _. repeat split; [lia | lia | exact E].
  - intros H. destruct (IH _ _ H) as (j & zj & Hj & Hz & Hv).
    exists j, zj. repeat split; try assumption; lia.
Qed.

(** The repository's own unit tests of [ComplexMath.js], on the model: the
    squaring branch needs none of the transcendental functions. *)
Example complexPower_tests :
  complexPower M (point 3 4) (F64.of_Z 2) = point (-7) 24
  /\ complexPower M (point 2 0) (F64.of_Z 2) = point 4 0
  /\ complexPower M (point 0 2) (F64.of_Z 2) = point (-4) 0.
Proof. vm_compute. auto. Qed.

Example magnitudeSquared_tests :
  magnitudeSquared (point 3 4) = F64.of_Z 25
  /\ magnitudeSquared (point (-3) (-4)) = F64.of_Z 25
  /\ magnitudeSquared (point 0 0) = F64.of_Z 0.
Proof. vm_compute. auto. Qed.

Example complexAdd_tests :
  complexAdd (point 1 2) (point 3 4) = point 4 6
  /\ complexAdd (point 1 (-2)) (point (-3) 4) = point (-2) 2.
Proof. vm_compute. auto. Qed.

Example mandelbrotIteration_tests :
  mandelbrotIteration M (point 0 0) 100 (F64.of_Z 2) default_options = 100%nat
  /\ mandelbrotIteration M (point (-2) 0) 100 (F64.of_Z 2) default_options = 100%nat
  /\ (mandelbrotIteration M (point 1 0) 100 (F64.of_Z 2) default_options < 10)%nat
  /\ mandelbrotIteration M (point 10 10) 100 (F64.of_Z 2) default_options = 0%nat.
Proof. vm_compute. repeat split; lia. Qed.

Example smoothIteration_tests :
  smoothIteration M (point 0 0) 100 (F64.of_Z 2) = F64.of_Z 100.
Proof. vm_compute. reflexivity. Qed.
End WithMath.
End ComplexMathFacts.

(** ** State validation and uniform marshalling *)

Module RendererFacts.
Import FractalState WebGLRenderer.

Lemma sub_self (x : F64.t) :
  F64.sub x x = if is_finite x then S754_zero false else S754_nan.
Proof.
  destruct x as [[|]|[|]| |s m e]; try reflexivity.
  unfold F64.sub, SFsub. rewrite Z.sub_diag. reflexivity.
Qed.

(** C3.  [splitDouble] returns [hi = v] untouched, so the low part
    [v - hi] is +0 for every finite [v] (and NaN otherwise): it never holds
    the residual that the conversion to the shader's precision drops.  For
    v = 0.1 that residual, [v - float32(v)], is not zero, and the uploaded
    pair adds up to [float32(v)], not to [v]. *)
Theorem splitDouble_residual_is_zero :
  (forall v, splitDouble v = (v, if is_finite v then S754_zero false else S754_nan))
  /\ (let '(hi, lo) := splitDouble tenth in
      lo = F64.zero
      /\ ~ (SF2Q (F64.sub tenth (F64.of_F32 (F32.of_F64 tenth))) == 0)%Q
      /\ ~ (SF2Q (F32.of_F64 hi) + SF2Q (F32.of_F64 lo) == SF2Q tenth)%Q
      /\ (SF2Q (F32.of_F64 hi) + SF2Q (F32.of_F64 lo) == SF2Q (F32.of_F64 tenth))%Q).
Proof.
  split.
  - intro v. unfold splitDouble. now rewrite sub_self.
  - vm_compute. repeat split; try discriminate; reflexivity.
Qed.

(** C4, as stated, fails: at zoom 2e6 and power 2.005 the deep-zoom path
    is taken although the power is not 2. *)
Lemma dd_path_not_only_power_2 :
  let st := with_view (F64.of_Z 2000000) (F64.of_decimal 2005 3) in
  Shader.use_dd_path (updateUniforms st) = true /\ ~ claimed_dd_condition st.
Proof.
  split; [vm_compute; reflexivity|].
  intros (_ & H & _). vm_compute in H. discriminate.
Qed.

Lemma use_dd_path_updateUniforms st :
  Shader.use_dd_path (updateUniforms st)
  = F64.gtb (zoom st) lit_1e6
    && F32.ltb (F32.abs (F32.sub (F32.of_F64 (power st)) F32.two)) Shader.lit_0_01
    && negb (juliaMode st) && negb (burningShip st).
Proof.
  unfold Shader.use_dd_path, updateUniforms.
  destruct (splitDouble (centerX st)), (splitDouble (centerY st)).
  cbn [Shader.u_useDoublePrecision Shader.u_power Shader.u_juliaMode Shader.u_burningShip].
  destruct (F64.gtb (zoom st) lit_1e6), (juliaMode st), (burningShip st);
    cbn [negb andb]; rewrite ?andb_false_r, ?andb_true_r; try reflexivity.
Qed.

(** C4, amended.  For every state the deep-zoom path is taken if and only
    if zoom > 1e6, the uploaded power is within 0.01 of 2 (in the shader's
    precision), Julia mode is off and Burning Ship is off.  The choice is a
    function of the state: with power 2 and both variants off, the largest
    number below 1e6 and 1e6 itself select the native path, the smallest
    number above 1e6 selects the deep-zoom path. *)
Theorem dd_path_selection st :
  (Shader.use_dd_path (updateUniforms st) = true <-> shader_dd_condition st)
  /\ Shader.use_dd_path
       (updateUniforms (with_view (SFpred F64.prec F64.emax lit_1e6) (F64.of_Z 2))) = false
  /\ Shader.use_dd_path (updateUniforms (with_view lit_1e6 (F64.of_Z 2))) = false
  /\ Shader.use_dd_path
       (updateUniforms (with_view (SFsucc F64.prec F64.emax lit_1e6) (F64.of_Z 2))) = true.
Proof.
  split; [|repeat split; vm_compute; reflexivity].
  rewrite use_dd_path_updateUniforms. unfold shader_dd_condition.
  rewrite !andb_true_iff, !negb_true_iff. tauto.
Qed.

Lemma update_colorScheme st x :
  F64.eqb (validated_scheme x) (validated_scheme x) = true ->
  F64.eqb (colorScheme (update st (only_colorScheme x))) (validated_scheme x) = true.
Proof.
  intro Hrefl. unfold update.
  destruct (hasChanges st _) eqn:E.
  - exact Hrefl.
  - unfold hasChanges in E.
    cbn [_validateChanges ch_centerX ch_centerY ch_zoom ch_power ch_maxIter
         ch_numberBase ch_colorScheme ch_colorOffset ch_burningShip ch_juliaMode
         ch_juliaC ch_width ch_height ch_coloringMode only_colorScheme option_map
         num_differs bool_differs array_differs orb] in E.
    rewrite !orb_false_r in E. apply negb_false_iff in E. exact E.
Qed.

Lemma scheme_ids id :
  0 <= id <= 19 -> In id [0;1;2;3;4;5;6;7;8;9;10;11;12;13;14;15;16;17;18;19].
Proof. intros H. cbn. lia. Qed.

Ltac each_id H :=
  repeat (destruct H as [<-|H]; [vm_compute; reflexivity|]); destruct H.

Lemma validated_scheme_ids id :
  0 <= id <= 19 -> validated_scheme (F64.of_Z id) = F64.of_Z (Z.min id 7).
Proof. intro H. apply scheme_ids in H. each_id H. Qed.

Lemma eqb_small id : 0 <= id <= 19 -> F64.eqb (F64.of_Z id) (F64.of_Z id) = true.
Proof. intro H. apply scheme_ids in H. each_id H. Qed.

Lemma eqb_finite_eq x s m e :
  SFeqb x (S754_finite s m e) = true -> x = S754_finite s m e.
Proof.
  unfold SFeqb.
  destruct x as [sx|sx| |sx mx ex]; cbn [SFcompare];
    try discriminate; try (destruct sx; discriminate); try (destruct s; discriminate).
  destruct sx, s; try discriminate;
    destruct (Z.compare_spec ex e) as [->| |]; try discriminate;
    change (Pos.compare_cont Eq mx m) with (Pos.compare mx m);
    destruct (Pos.compare_spec mx m) as [->| |]; cbn; try discriminate;
    reflexivity.
Qed.

(** C9 on the code.  Updating the state with a scheme id from 0 to 19
    stores [min(id, 7)]: the ids 8 to 19 are all stored as 7, and the
    shader then runs the formula of scheme 7 (Neon) for them. *)
Theorem colorScheme_clamped_to_7 st id :
  0 <= id <= 19 ->
  let st' := update st (only_colorScheme (F64.of_Z id)) in
  F64.eqb (colorScheme st') (F64.of_Z (Z.min id 7)) = true
  /\ (8 <= id ->
      F64.eqb (colorScheme st') (F64.of_Z id) = false
      /\ Shader.scheme_branch (Shader.u_colorScheme (updateUniforms st'))
         = Shader.Neon).
Proof.
  intros H st'.
  assert (E : F64.eqb (colorScheme st') (F64.of_Z (Z.min id 7)) = true).
  { rewrite <- validated_scheme_ids by exact H. apply update_colorScheme.
    rewrite validated_scheme_ids by exact H. apply eqb_small. lia. }
  split; [exact E|]. intro H8.
  replace (Z.min id 7) with 7 in E by lia.
  assert (Hid : In id [8;9;10;11;12;13;14;15;16;17;18;19]) by (cbn; lia).
  unfold updateUniforms.
  destruct (splitDouble (centerX st')), (splitDouble (centerY st')).
  cbn [Shader.u_colorScheme].
  apply (eqb_finite_eq _ false 7881299347898368 (-50)) in E. rewrite E.
  split; [|vm_compute; reflexivity].
  each_id Hid.
Qed.

Lemma colorScheme_clamped_to_7_witness :
  0 <= 12 <= 19
  /\ let st' := update DEFAULT_STATE (only_colorScheme (F64.of_Z 12)) in
     F64.eqb (colorScheme st') (F64.of_Z (Z.min 12 7)) = true
     /\ (8 <= 12 ->
         F64.eqb (colorScheme st') (F64.of_Z 12) = false
         /\ Shader.scheme_branch (Shader.u_colorScheme (updateUniforms st'))
            = Shader.Neon).
Proof.
  split; [lia|]. apply (colorScheme_clamped_to_7 DEFAULT_STATE 12). lia.
Defined.

(** The repository's own unit tests of the validation, on the model. *)
Example validation_tests :
  let st1 := update DEFAULT_STATE (view_changes (F64.of_Z 1) (F64.of_Z 0)) in
  let st2 := update st1 (view_changes (F64.of_Z 1) (F64.of_Z 100)) in
  let st3 := update DEFAULT_STATE (only_maxIter (F64.of_Z 1)) in
  let st4 := update st3 (only_maxIter (F64.of_Z 100000)) in
  let st5 := update DEFAULT_STATE (view_changes (F64.of_decimal 1 3) (F64.of_Z 2)) in
  let st6 := update DEFAULT_STATE (only_colorOffset (F64.of_Z 150)) in
  let st7 := update st6 (only_colorOffset (F64.of_Z (-30))) in
  power st1 = F64.of_Z 1 /\ power st2 = F64.of_Z 12
  /\ maxIter st3 = F64.of_Z 10 /\ maxIter st4 = F64.of_Z 10000
  /\ zoom st5 = F64.of_decimal 1 1
  /\ colorOffset st6 = F64.of_Z 50 /\ colorOffset st7 = F64.of_Z 70.
Proof. vm_compute. repeat split. Qed.
End RendererFacts.

(** ** The per-pixel loop of the shader *)

Module ShaderFacts.
Import Shader.
Section WithMath.
Variable G : GlslMath.

Lemma track_and_test_spec nu_base i v z' dz' zx zy :
  let r := track_and_test G nu_base i v z' dz' zx zy in
  z (fst r) = z' /\ dz (fst r) = dz'
  /\ snd r = F32.gtb (dot z' z') lit_256
  /\ (snd r = true -> iterations (fst r) = smooth_count G nu_base i (dot z' z')).
Proof.
  unfold track_and_test. destruct (F32.gtb (dot z' z') lit_256); cbn;
    repeat split; try reflexivity; discriminate.
Qed.

Lemma dd_body_dz cx cy i v : dz (fst (dd_body G cx cy i v)) = dz v.
Proof. unfold dd_body. apply track_and_test_spec. Qed.

Lemma run_loop_invariant (P : Vars -> Prop) body maxIter :
  (forall i v, P v -> P (fst (body i v))) ->
  (forall v it, P v -> P (set_iterations v it)) ->
  forall fuel i v, P v -> P (vars (run_loop body maxIter fuel i v)).
Proof.
  intros Hb Hs. induction fuel as [|fuel IH]; intros i v Hv; cbn [run_loop].
  - exact Hv.
  - destruct (F32.geb _ maxIter); [exact Hv|].
    specialize (Hb i v Hv). destruct (body i v) as [v' esc]. cbn in Hb.
    destruct esc; [exact Hb|]. apply IH, Hs, Hb.
Qed.

Lemma run_loop_steps body maxIter fuel i v :
  (i <= steps (run_loop body maxIter fuel i v) <= i + fuel)%nat.
Proof.
  revert i v. induction fuel as [|fuel IH]; intros i v; cbn [run_loop].
  - cbn. lia.
  - destruct (F32.geb _ maxIter); [cbn; lia|].
    destruct (body i v) as [v' esc]. destruct esc; [cbn; lia|].
    specialize (IH (S i) (set_iterations v' (F32.of_Z (Z.of_nat i)))). lia.
Qed.

Lemma run_loop_escaped body maxIter fuel i v :
  exit_by (run_loop body maxIter fuel i v) = Escaped ->
  exists j w,
    steps (run_loop body maxIter fuel i v) = S j
    /\ (i <= j < i + fuel)%nat
    /\ F32.geb (F32.of_Z (Z.of_nat j)) maxIter = false
    /\ body j w = (vars (run_loop body maxIter fuel i v), true).
Proof.
  revert i v. induction fuel as [|fuel IH]; intros i v; cbn [run_loop].
  - discriminate.
  - destruct (F32.geb _ maxIter) eqn:Ecap; [discriminate|].
    destruct (body i v) as [v' esc] eqn:Eb. destruct esc.
    + intros _. exists i, v. cbn. repeat split; try lia; assumption.
    + intros H. destruct (IH _ _ H) as (j & w & Hs & Hj & Hc & Hb).
      exists j, w. repeat split; try assumption; lia.
Qed.

Lemma run_loop_bound_reached body maxIter fuel i v :
  exit_by (run_loop body maxIter fuel i v) = BoundReached ->
  steps (run_loop body maxIter fuel i v) = (i + fuel)%nat.
Proof.
  revert i v. induction fuel as [|fuel IH]; intros i v; cbn [run_loop].
  - cbn. lia.
  - destruct (F32.geb _ maxIter); [discriminate|].
    destruct (body i v) as [v' esc]. destruct esc; [discriminate|].
    intros H. rewrite (IH _ _ H). lia.
Qed.

Lemma run_loop_cap body maxIter fuel i v n :
  F32.geb (F32.of_Z (Z.of_nat n)) maxIter = true ->
  (i <= n)%nat ->
  (steps (run_loop body maxIter fuel i v) <= n)%nat.
Proof.
  intros Hn. revert i v. induction fuel as [|fuel IH]; intros i v Hi; cbn [run_loop].
  - exact Hi.
  - destruct (F32.geb (F32.of_Z (Z.of_nat i)) maxIter) eqn:Ecap; [exact Hi|].
    assert (i <> n) by (intros ->; congruence).
    destruct (body i v) as [v' esc]. destruct esc; [cbn; lia|].
    apply IH. lia.
Qed.
Lemma escape_turn_spec nu_base j w v' z' dz' zx zy :
  track_and_test G nu_base j w z' dz' zx zy = (v', true) ->
  F32.gtb (dot (z v') (z v')) lit_256 = true
  /\ iterations v' = smooth_count G nu_base j (dot (z v') (z v')).
Proof.
  intros E.
  destruct (track_and_test_spec nu_base j w z' dz' zx zy) as (Hz & _ & Hs & Hi).
  rewrite E in Hz, Hs, Hi. cbn [fst snd] in Hz, Hs, Hi.
  rewrite Hz. split; [now rewrite <- Hs | now apply Hi].
Qed.

Lemma cap_check_fires n :
  Z.of_nat n <= 10000 ->
  F32.geb (F32.of_Z (Z.of_nat n)) (F32.of_F64 (F64.of_Z (Z.of_nat n))) = true.
Proof.
  intro Hn.
  assert (H : forallb (fun k => F32.geb (F32.of_Z (Z.of_nat k))
                                  (F32.of_F64 (F64.of_Z (Z.of_nat k))))
                (seq 0 (Z.to_nat 10001)) = true) by (vm_compute; reflexivity).
  rewrite forallb_forall in H. apply H, in_seq. lia.
Qed.

Lemma main_loop_for_steps bound st fragCoord n :
  Z.of_nat n <= 10000 ->
  FractalState.maxIter st = F64.of_Z (Z.of_nat n) ->
  let r := main_loop_for G bound (WebGLRenderer.updateUniforms st) fragCoord in
  (steps r <= bound)%nat /\ (steps r <= n)%nat
  /\ (exit_by r = BoundReached -> steps r = bound).
Proof.
  intros Hn Hst r.
  assert (Hu : u_maxIter (WebGLRenderer.updateUniforms st)
               = F32.of_F64 (F64.of_Z (Z.of_nat n))).
  { unfold WebGLRenderer.updateUniforms.
    destruct (WebGLRenderer.splitDouble _), (WebGLRenderer.splitDouble _).
    cbn [u_maxIter]. now rewrite Hst. }
  subst r. unfold main_loop_for.
  generalize (dd_constant (WebGLRenderer.updateUniforms st) fragCoord).
  generalize (native_start (WebGLRenderer.updateUniforms st) fragCoord).
  intros [z0 c] [cx cy].
  destruct (use_dd_path _).
  - repeat split.
    + apply (run_loop_steps _ _ bound 0%nat).
    + apply run_loop_cap; [rewrite Hu; now apply cap_check_fires | lia].
    + apply run_loop_bound_reached.
  - repeat split.
    + apply (run_loop_steps _ _ bound 0%nat).
    + apply run_loop_cap; [rewrite Hu; now apply cap_check_fires | lia].
    + apply run_loop_bound_reached.
Qed.

(** X16.  The loop always ends, after at most [structural_bound] turns;
    when the state holds an integer cap [n <= 10000] it makes at most [n]
    turns, and it is left through the structural bound only if
    [n >= 2000]. *)
Lemma main_loop_steps st fragCoord n :
  Z.of_nat n <= 10000 ->
  FractalState.maxIter st = F64.of_Z (Z.of_nat n) ->
  let r := main_loop G (WebGLRenderer.updateUniforms st) fragCoord in
  (steps r <= structural_bound)%nat /\ (steps r <= n)%nat
  /\ (exit_by r = BoundReached -> (structural_bound <= n)%nat).
Proof.
  intros Hn Hst. unfold main_loop. generalize structural_bound. intro bound.
  destruct (main_loop_for_steps bound st fragCoord n Hn Hst) as (H1 & H2 & H3).
  cbv zeta. repeat split; try assumption.
  intro Hb. rewrite <- (H3 Hb). exact H2.
Qed.

(** C6 on the code.  The validator accepts maxIter = 10000, but for the
    middle pixel of the default view (a point that never escapes) the
    standard-precision loop makes 2000 turns and is then left through the
    structural bound of the [for] header: the early-exit test against
    [u_maxIter] has not fired at counter 2000, and [iterations] is 1999. *)
Theorem cap_cut_by_structural_bound :
  let st := FractalState.update FractalState.DEFAULT_STATE
              (FractalState.only_maxIter (F64.of_Z 10000)) in
  let u := WebGLRenderer.updateUniforms st in
  let r := main_loop G u WebGLRenderer.middle_fragment in
  FractalState.maxIter st = F64.of_Z 10000
  /\ use_dd_path u = false
  /\ exit_by r = BoundReached
  /\ steps r = 2000%nat
  /\ F32.geb (F32.of_Z 2000) (u_maxIter u) = false
  /\ iterations (vars r) = F32.of_Z 1999.
Proof.
  vm_compute. repeat split; reflexivity.
Qed.

Lemma native_escape_for bound u fragCoord :
  use_dd_path u = false ->
  exit_by (main_loop_for G bound u fragCoord) = Escaped ->
  exists i,
    steps (main_loop_for G bound u fragCoord) = S i
    /\ let v := vars (main_loop_for G bound u fragCoord) in
       F32.gtb (dot (z v) (z v)) lit_256 = true
       /\ iterations v = smooth_count G (u_power u) i (dot (z v) (z v)).
Proof.
  intros Hpath. unfold main_loop_for. rewrite Hpath.
  generalize (native_start u fragCoord). intros [z0 c]. cbn [fst snd].
  intros Hesc. destruct (run_loop_escaped _ _ _ _ _ Hesc) as (j & w & Hs & _ & _ & Hb).
  exists j. split; [exact Hs|].
  unfold native_body in Hb. apply escape_turn_spec in Hb. exact Hb.
Qed.

(** C5 on the code.  When the standard-precision loop is left through the
    escape test, after turn number [i], the count it has assigned is
    [float(i) + 1.0 - log(log(magSq) / 2.0 / log(2.0)) / log(u_power)]
    with [magSq = dot(z, z) > 256] of the escaping [z]: the inner divisor is
    [log(2.0)], whatever the power. *)
Theorem native_escape_count u fragCoord :
  use_dd_path u = false ->
  exit_by (main_loop G u fragCoord) = Escaped ->
  exists i,
    steps (main_loop G u fragCoord) = S i
    /\ let v := vars (main_loop G u fragCoord) in
       let magSq := dot (z v) (z v) in
       F32.gtb magSq lit_256 = true
       /\ iterations v
          = F32.sub (F32.add (F32.of_Z (Z.of_nat i)) F32.one)
              (F32.div
                 (glsl_log G (F32.div (F32.div (glsl_log G magSq) F32.two)
                                      (glsl_log G F32.two)))
                 (glsl_log G (u_power u))).
Proof.
  unfold main_loop. generalize structural_bound. intro bound.
  exact (native_escape_for bound u fragCoord).
Qed.

Lemma length_unit : length (F32.one, F32.zero) = F32.one.
Proof. vm_compute. reflexivity. Qed.

(** C10.  On the deep-zoom path [dz] is never written: whatever the number
    of turns the loop is allowed ([bound]), the variables it leaves have
    [dz = (1, 0)]; so the distance estimate that follows is computed with
    [dzMag = length((1, 0)) = 1]. *)
Theorem dd_path_keeps_dz u fragCoord :
  use_dd_path u = true ->
  (forall bound, dz (vars (main_loop_for G bound u fragCoord)) = (F32.one, F32.zero))
  /\ let v := vars (main_loop G u fragCoord) in
     let zMag := length (z v) in
     distance_estimate G u v
     = if F32.ltb (iterations v) (F32.sub (u_maxIter u) lit_0_5)
       then F32.mul (F32.div (F32.mul (glsl_log G (F32.mul zMag zMag)) zMag) F32.one)
                    lit_0_5
       else F32.zero.
Proof.
  intros Hpath.
  assert (Hdz : forall bound,
             dz (vars (main_loop_for G bound u fragCoord)) = (F32.one, F32.zero)).
  { intro bound. unfold main_loop_for. rewrite Hpath.
    generalize (dd_constant u fragCoord). intros [cx cy]. cbn [fst snd].
    apply (run_loop_invariant (fun v => dz v = (F32.one, F32.zero))).
    - intros i v Hv. now rewrite dd_body_dz.
    - intros v it Hv. exact Hv.
    - reflexivity. }
  split; [exact Hdz|].
  cbv zeta. unfold distance_estimate, main_loop. generalize structural_bound.
  intro bound. rewrite Hdz, length_unit. reflexivity.
Qed.
(** On the standard path, by contrast, [dz] follows the derivative
    recurrence: for the middle pixel of the default view it has left (1, 0)
    when the loop ends. *)
Lemma native_path_updates_dz :
  let u := WebGLRenderer.updateUniforms FractalState.DEFAULT_STATE in
  use_dd_path u = false
  /\ dz (vars (main_loop G u WebGLRenderer.middle_fragment)) <> (F32.one, F32.zero).
Proof.
  split; [vm_compute; reflexivity|]. vm_compute. discriminate.
Qed.

(** The shader's loop at the Burning Ship fixture c = (0.5, 0.5), power 2,
    cap 100, bailout 256: seven turns without the absolute-value step, six
    with it. *)
Lemma shader_burning_ship_changes_steps :
  let c := (F32.of_dyadic 1 (-1), F32.of_dyadic 1 (-1)) in
  let u0 := WebGLRenderer.updateUniforms
              (FractalState.update FractalState.DEFAULT_STATE
                 (FractalState.fixture_changes false)) in
  let u1 := WebGLRenderer.updateUniforms
              (FractalState.update FractalState.DEFAULT_STATE
                 (FractalState.fixture_changes true)) in
  steps (run_loop (native_body G u0 c) (u_maxIter u0) structural_bound 0
           (start_vars (F32.zero, F32.zero))) = 7%nat
  /\ steps (run_loop (native_body G u1 c) (u_maxIter u1) structural_bound 0
              (start_vars (F32.zero, F32.zero))) = 6%nat.
Proof.
  split; vm_compute; reflexivity.
Qed.

End WithMath.

Lemma dd_path_keeps_dz_witness :
  let G := {| glsl_log := fun x => x; glsl_atan := fun x _ => x;
              glsl_pow := fun x _ => x; glsl_cos := fun x => x;
              glsl_sin := fun x => x |} in
  let u := WebGLRenderer.updateUniforms
             (WebGLRenderer.with_view (F64.of_Z 2000000) (F64.of_Z 2)) in
  let fragCoord := WebGLRenderer.middle_fragment in
  use_dd_path u = true
  /\ (forall bound, dz (vars (main_loop_for G bound u fragCoord)) = (F32.one, F32.zero))
  /\ let v := vars (main_loop G u fragCoord) in
     let zMag := length (z v) in
     distance_estimate G u v
     = if F32.ltb (iterations v) (F32.sub (u_maxIter u) lit_0_5)
       then F32.mul (F32.div (F32.mul (glsl_log G (F32.mul zMag zMag)) zMag) F32.one)
                    lit_0_5
       else F32.zero.
Proof.
  intros G u fragCoord.
  assert (H : use_dd_path u = true) by (vm_compute; reflexivity).
  split; [exact H|]. exact (dd_path_keeps_dz G u fragCoord H).
Defined.

Lemma native_escape_count_witness :
  let G := {| glsl_log := fun x => x; glsl_atan := fun x _ => x;
              glsl_pow := fun x _ => x; glsl_cos := fun x => x;
              glsl_sin := fun x => x |} in
  let u := WebGLRenderer.updateUniforms
             (FractalState.merge FractalState.DEFAULT_STATE
                (FractalState.only_centerX (F64.of_Z 10))) in
  let fragCoord := WebGLRenderer.middle_fragment in
  use_dd_path u = false
  /\ exit_by (main_loop G u fragCoord) = Escaped
  /\ exists i,
       steps (main_loop G u fragCoord) = S i
       /\ let v := vars (main_loop G u fragCoord) in
          let magSq := dot (z v) (z v) in
          F32.gtb magSq lit_256 = true
          /\ iterations v
             = F32.sub (F32.add (F32.of_Z (Z.of_nat i)) F32.one)
                 (F32.div
                    (glsl_log G (F32.div (F32.div (glsl_log G magSq) F32.two)
                                         (glsl_log G F32.two)))
                    (glsl_log G (u_power u))).
Proof.
  intros G u fragCoord.
  assert (H1 : use_dd_path u = false) by (vm_compute; reflexivity).
  assert (H2 : exit_by (main_loop G u fragCoord) = Escaped) by (vm_compute; reflexivity).
  split; [exact H1|]. split; [exact H2|].
  exact (native_escape_count G u fragCoord H1 H2).
Defined.

(** A stand-in for the built-ins, to run the loop where no built-in is
    reached or where its value does not matter. *)
Lemma main_loop_steps_witness :
  let G := {| glsl_log := fun x => x; glsl_atan := fun x _ => x;
              glsl_pow := fun x _ => x; glsl_cos := fun x => x;
              glsl_sin := fun x => x |} in
  let st := FractalState.DEFAULT_STATE in
  Z.of_nat 256 <= 10000
  /\ FractalState.maxIter st = F64.of_Z (Z.of_nat 256)
  /\ let r := main_loop G (WebGLRenderer.updateUniforms st) WebGLRenderer.middle_fragment in
     (steps r <= structural_bound)%nat /\ (steps r <= 256)%nat
     /\ (exit_by r = BoundReached -> (structural_bound <= 256)%nat).
Proof.
  intros G st. split; [lia|]. split; [reflexivity|].
  apply (main_loop_steps G st WebGLRenderer.middle_fragment 256); [lia|reflexivity].
Defined.
End ShaderFacts.

(** ** Comparisons of floating-point numbers *)

Module CompareFacts.
Import Rounding RoundingFacts FloatValue SpecFloatFacts BinaryRoundFacts.

Lemma SFcompare_antisym x y : SFcompare y x = option_map CompOpp (SFcompare x y).
Proof.
  destruct x as [[|]|[|]| |[|] m1 e1], y as [[|]|[|]| |[|] m2 e2];
    cbn -[Z.compare Pos.compare_cont]; try reflexivity;
    rewrite (Z.compare_antisym e2 e1); destruct (e2 ?= e1); cbn [CompOpp]; try reflexivity.
  - rewrite (Pos.compare_cont_antisym m1 m2 Eq). reflexivity.
  - rewrite (Pos.compare_cont_antisym m1 m2 Eq). reflexivity.
Qed.

Section Format.
Variables prec emax : Z.
Hypothesis Hprec : 0 < prec.
Hypothesis Hemax : prec < emax.

Local Abbreviation emin := (emin prec emax).
Local Abbreviation fexp := (fexp prec emax).
Local Abbreviation Zval := (Zval prec emax).
Local Abbreviation valid := (valid_binary prec emax).

Lemma canonical_lt s1 m1 e1 s2 m2 e2 :
  valid (S754_finite s1 m1 e1) = true -> valid (S754_finite s2 m2 e2) = true ->
  e1 < e2 ->
  Zpos m1 * 2 ^ (e1 - emin) < Zpos m2 * 2 ^ (e2 - emin).
Proof.
  intros V1 V2 Hlt.
  pose proof (valid_finite_emin prec emax s1 m1 e1 V1) as He1.
  pose proof (valid_canonical prec emax s1 m1 e1 V1) as C1.
  pose proof (valid_canonical prec emax s2 m2 e2 V2) as C2.
  pose proof (digits2_pos_bounds m1) as [_ B1].
  pose proof (digits2_pos_bounds m2) as [B2 _].
  set (d1 := Zpos (digits2_pos m1)) in *. set (d2 := Zpos (digits2_pos m2)) in *.
  assert (Hd1 : d1 <= prec) by (unfold SpecFloat.fexp in C1; lia).
  assert (Hd2 : d2 = prec) by (unfold SpecFloat.fexp in C2; lia).
  assert (Hd1' : 0 < d1) by (subst d1; lia).
  rewrite Hd2 in B2.
  set (a := e1 - emin) in *. set (b := e2 - emin) in *.
  assert (Ha : 0 <= a) by (subst a; lia). assert (Hb : a + 1 <= b) by (subst a b; lia).
  assert (Pa : 0 < 2 ^ a) by (apply Z.pow_pos_nonneg; lia).
  assert (Pb : 0 < 2 ^ b) by (apply Z.pow_pos_nonneg; lia).
  assert (H1 : Zpos m1 * 2 ^ a < 2 ^ (prec + a)).
  { rewrite Z.pow_add_r by lia.
    assert (2 ^ d1 <= 2 ^ prec) by (apply Z.pow_le_mono_r; lia). nia. }
  assert (H2 : 2 ^ (prec - 1 + b) <= Zpos m2 * 2 ^ b).
  { rewrite Z.pow_add_r by lia. nia. }
  assert (H3 : 2 ^ (prec + a) <= 2 ^ (prec - 1 + b)) by (apply Z.pow_le_mono_r; lia).
  lia.
Qed.

Lemma canonical_compare s1 m1 e1 s2 m2 e2 :
  valid (S754_finite s1 m1 e1) = true -> valid (S754_finite s2 m2 e2) = true ->
  (Zpos m1 * 2 ^ (e1 - emin) ?= Zpos m2 * 2 ^ (e2 - emin))
  = match e1 ?= e2 with
    | Eq => Pos.compare_cont Eq m1 m2
    | Lt => Lt
    | Gt => Gt
    end.
Proof.
  intros V1 V2.
  destruct (Z.compare_spec e1 e2) as [E|E|E].
  - subst e2. pose proof (valid_finite_emin prec emax s1 m1 e1 V1) as He1.
    rewrite <- Zmult_compare_compat_r
      by (apply Z.lt_gt, Z.pow_pos_nonneg; lia).
    reflexivity.
  - apply Z.compare_lt_iff. eapply canonical_lt; eassumption.
  - apply Z.compare_gt_iff. eapply canonical_lt; eassumption.
Qed.

(** On well-formed numbers that are finite, [SFcompare] is the comparison
    of the values. *)
Lemma SFcompare_Zval x y :
  valid x = true -> valid y = true ->
  is_finite x = true -> is_finite y = true ->
  SFcompare x y = Some (Zval x ?= Zval y).
Proof.
  intros Vx Vy Fx Fy.
  destruct x as [sx|sx| |sx mx ex], y as [sy|sy| |sy my ey];
    try discriminate Fx; try discriminate Fy.
  - reflexivity.
  - pose proof (valid_finite_emin prec emax sy my ey Vy) as He.
    assert (0 < 2 ^ (ey - emin)) by (apply Z.pow_pos_nonneg; lia).
    cbn [SFcompare FloatValue.Zval]. f_equal. symmetry.
    destruct sy; cbn [cond_Zopp]; [apply Z.compare_gt_iff | apply Z.compare_lt_iff]; nia.
  - pose proof (valid_finite_emin prec emax sx mx ex Vx) as He.
    assert (0 < 2 ^ (ex - emin)) by (apply Z.pow_pos_nonneg; lia).
    cbn [SFcompare FloatValue.Zval]. f_equal. symmetry.
    destruct sx; cbn [cond_Zopp]; [apply Z.compare_lt_iff | apply Z.compare_gt_iff]; nia.
  - pose proof (valid_finite_emin prec emax sx mx ex Vx) as Hex.
    pose proof (valid_finite_emin prec emax sy my ey Vy) as Hey.
    assert (Px : 0 < 2 ^ (ex - emin)) by (apply Z.pow_pos_nonneg; lia).
    assert (Py : 0 < 2 ^ (ey - emin)) by (apply Z.pow_pos_nonneg; lia).
    pose proof (canonical_compare sx mx ex sy my ey Vx Vy) as Hc.
    cbn -[Z.compare Pos.compare_cont Z.mul Z.pow] . f_equal.
    destruct sx, sy; cbn [cond_Zopp].
    + replace (- Zpos mx * 2 ^ (ex - emin)) with (- (Zpos mx * 2 ^ (ex - emin))) by lia.
      replace (- Zpos my * 2 ^ (ey - emin)) with (- (Zpos my * 2 ^ (ey - emin))) by lia.
      rewrite Z.compare_opp, (Z.compare_antisym (Zpos mx * _)), Hc.
      destruct (ex ?= ey); reflexivity.
    + symmetry. apply Z.compare_lt_iff. nia.
    + symmetry. apply Z.compare_gt_iff. nia.
    + rewrite Hc. reflexivity.
Qed.

Lemma SFltb_Zval x y :
  valid x = true -> valid y = true ->
  is_finite x = true -> is_finite y = true ->
  SFltb x y = (Zval x <? Zval y).
Proof.
  intros. unfold SFltb, Z.ltb. rewrite SFcompare_Zval by assumption.
  destruct (Zval x ?= Zval y); reflexivity.
Qed.

Lemma SFleb_Zval x y :
  valid x = true -> valid y = true ->
  is_finite x = true -> is_finite y = true ->
  SFleb x y = (Zval x <=? Zval y).
Proof.
  intros. unfold SFleb, Z.leb. rewrite SFcompare_Zval by assumption.
  destruct (Zval x ?= Zval y); reflexivity.
Qed.

Lemma SFeqb_Zval x y :
  valid x = true -> valid y = true ->
  is_finite x = true -> is_finite y = true ->
  SFeqb x y = (Zval x =? Zval y).
Proof.
  intros. unfold SFeqb. rewrite SFcompare_Zval, Z.eqb_compare by assumption.
  reflexivity.
Qed.

(** A dyadic number with at most [prec] bits, in range, is represented
    exactly. *)
Lemma normalize_exact N e sz :
  emin <= e -> Z.abs N < 2 ^ prec -> prec + e <= emax ->
  let r := binary_normalize prec emax N e sz in
  is_finite r = true /\ valid r = true /\ Zval r = N * 2 ^ (e - emin).
Proof.
  intros He HN Hr r.
  set (k := e - emin). assert (Hk : 0 <= k) by (subst k; lia).
  assert (Pk : 0 < 2 ^ k) by (apply Z.pow_pos_nonneg; lia).
  assert (Hb : Z.abs (N * 2 ^ k) < 2 ^ (k + prec)).
  { rewrite Z.abs_mul, (Z.abs_eq (2 ^ k)), Z.pow_add_r by lia. nia. }
  assert (Hp1 : 1 <= prec) by lia.
  assert (Hfmt : in_format prec (N * 2 ^ k)).
  { apply (format_bounded_multiple prec) with k; try lia.
    apply Z.divide_factor_r. }
  assert (Hfin : is_finite r = true).
  { apply binary_normalize_in_range; try assumption.
    fold k. rewrite (rnd_id _ _ Hfmt).
    eapply Z.lt_le_trans; [exact Hb|]. apply Z.pow_le_mono_r; subst k; lia. }
  destruct (binary_normalize_spec prec emax Hprec Hemax N e sz He Hfin) as [Hv Hz].
  repeat split; try assumption.
  fold r in Hz. rewrite Hz. fold k. now apply rnd_id.
Qed.

End Format.
End CompareFacts.

(** ** FractalState.js: validation, [update] and [reset] *)

Module ValidationFacts.
Import Rounding RoundingFacts FloatValue SpecFloatFacts BinaryRoundFacts CompareFacts.
Import JsNumber FractalState StateRules.

Lemma F64_prec : 0 < F64.prec.
Proof. reflexivity. Qed.
Lemma F64_emax : F64.prec < F64.emax.
Proof. reflexivity. Qed.

Lemma compare_none x y : SFcompare x y = None -> is_nan x || is_nan y = true.
Proof.
  destruct x as [?|?| |? ? ?], y as [?|?| |? ? ?]; cbn; try discriminate; reflexivity.
Qed.

Lemma compare_some x y : is_nan x = false -> is_nan y = false -> SFcompare x y <> None.
Proof.
  intros Hx Hy H. apply compare_none in H. rewrite Hx, Hy in H. discriminate.
Qed.

Lemma leb_of_compare x y c : SFcompare x y = Some c -> c <> Gt -> F64.leb x y = true.
Proof. unfold F64.leb, SFleb. intros -> H. destruct c; congruence. Qed.

Lemma leb_of_compare_sym x y c : SFcompare y x = Some c -> c <> Lt -> F64.leb x y = true.
Proof.
  intros H Hc. rewrite (SFcompare_antisym x y) in H.
  unfold F64.leb, SFleb. destruct (SFcompare x y) as [[| |]|]; cbn in H; congruence.
Qed.

(** [Math.max(lo, Math.min(hi, x))] lies between [lo] and [hi] unless [x]
    is NaN. *)
Lemma clamp_range lo hi x :
  is_nan lo = false -> is_nan hi = false ->
  F64.leb lo hi = true -> F64.leb lo lo = true -> F64.leb hi hi = true ->
  is_nan x = false ->
  is_nan (clamp lo hi x) = false
  /\ F64.leb lo (clamp lo hi x) = true /\ F64.leb (clamp lo hi x) hi = true.
Proof.
  intros Nlo Nhi Hlh Hll Hhh Nx. unfold clamp.
  assert (Hy : is_nan (Js.Math_min hi x) = false
               /\ F64.leb (Js.Math_min hi x) hi = true).
  { unfold Js.Math_min.
    destruct (SFcompare hi x) as [c|] eqn:E; [|now apply compare_some in E].
    destruct c.
    - destruct (Js.is_neg_zero hi); [now split|].
      split; [exact Nx|]. eapply leb_of_compare_sym; [exact E | discriminate].
    - now split.
    - split; [exact Nx|]. eapply leb_of_compare_sym; [exact E | discriminate]. }
  destruct Hy as [Ny Hy]. set (y := Js.Math_min hi x) in *.
  unfold Js.Math_max.
  destruct (SFcompare lo y) as [c|] eqn:E; [|now apply compare_some in E].
  destruct c.
  - destruct (Js.is_neg_zero lo); [|now repeat split].
    repeat split; try assumption. eapply leb_of_compare; [exact E | discriminate].
  - repeat split; try assumption. eapply leb_of_compare; [exact E | discriminate].
  - now repeat split.
Qed.

Lemma clamp_nan lo hi : clamp lo hi S754_nan = S754_nan.
Proof. unfold clamp, Js.Math_min, Js.Math_max. destruct hi, lo; reflexivity. Qed.

(** *** Integer-valued keys *)

Lemma units_finite s m e :
  units (S754_finite s m e) = cond_Zopp s (Zpos m) * 2 ^ (e + 1074).
Proof. unfold units. cbn [FloatValue.Zval]. reflexivity. Qed.

(** Small integers are represented exactly. *)
Lemma of_Z_exact n :
  Z.abs n < 2 ^ 53 ->
  is_finite (F64.of_Z n) = true /\ F64.valid (F64.of_Z n) = true
  /\ units (F64.of_Z n) = n * 2 ^ 1074.
Proof.
  intro Hn.
  apply (normalize_exact F64.prec F64.emax F64_prec F64_emax n 0 false);
    unfold F64.prec, F64.emax, emin; lia.
Qed.

Lemma compare_units x y :
  F64.valid x = true -> F64.valid y = true ->
  is_finite x = true -> is_finite y = true ->
  SFcompare x y = Some (units x ?= units y).
Proof. apply (SFcompare_Zval F64.prec F64.emax F64_prec). Qed.

Lemma compare_of_Z a b :
  Z.abs a < 2 ^ 53 -> Z.abs b < 2 ^ 53 ->
  SFcompare (F64.of_Z a) (F64.of_Z b) = Some (a ?= b).
Proof.
  intros Ha Hb.
  destruct (of_Z_exact a Ha) as (Fa & Va & Ua), (of_Z_exact b Hb) as (Fb & Vb & Ub).
  rewrite compare_units, Ua, Ub by assumption.
  f_equal. symmetry. apply Zmult_compare_compat_r. reflexivity.
Qed.

Lemma of_Z_not_neg_zero n : 0 <= n -> Js.is_neg_zero (F64.of_Z n) = false.
Proof.
  intro Hn. unfold F64.of_Z, F64.of_dyadic.
  destruct n as [|p|p]; cbn [binary_normalize]; [reflexivity | | lia].
  unfold binary_round. destruct (shl_align _ _ _) as [mz ez].
  unfold binary_round_aux. destruct (shr_fexp _ _ _ _ _) as [mrs e'].
  destruct (shr_fexp _ _ _ _ _) as [mrs' e''].
  destruct (shr_m mrs') as [|q|q]; try reflexivity.
  match goal with |- context [if ?b then _ else _] => destruct b end; reflexivity.
Qed.

(** [Math.floor] of a well-formed finite number: an integer [F], and the
    result is [F] itself unless it is at least [2^52] in magnitude. *)
Lemma floor_integer x :
  F64.valid x = true -> is_finite x = true ->
  exists F,
    is_finite (Js.Math_floor x) = true /\ F64.valid (Js.Math_floor x) = true
    /\ units (Js.Math_floor x) = F * 2 ^ 1074
    /\ (Z.abs F < 2 ^ 52 -> Js.Math_floor x = F64.of_Z F \/ Js.Math_floor x = S754_zero true).
Proof.
  intros Vx Fx. destruct x as [s|s| |s m e]; try discriminate Fx.
  - exists 0. cbn [Js.Math_floor]. repeat split. intros _.
    destruct s; [right | left]; reflexivity.
  - pose proof (valid_finite_emin F64.prec F64.emax s m e Vx) as He.
    pose proof (valid_canonical F64.prec F64.emax s m e Vx) as Hc.
    pose proof (digits2_pos_bounds m) as [Bl Bu].
    set (d := Zpos (digits2_pos m)) in *.
    unfold F64.prec, F64.emax, fexp, emin in He, Hc.
    cbn [Js.Math_floor]. destruct (Z.leb_spec 0 e) as [He0|He0].
    + exists (cond_Zopp s (Zpos m) * 2 ^ e). repeat split; try assumption.
      * rewrite units_finite, Z.pow_add_r by lia. ring.
      * intro HF. exfalso.
        assert (Hd : d = 53) by lia. rewrite Hd in Bl.
        assert (1 <= 2 ^ e) by (apply (Z.pow_le_mono_r 2 0 e); lia).
        change (2 ^ (53 - 1)) with (2 ^ 52) in Bl.
        assert (Z.abs (cond_Zopp s (Zpos m) * 2 ^ e) = Zpos m * 2 ^ e)
          by (destruct s; cbn [cond_Zopp]; lia).
        nia.
    + set (N := Z.shiftr (cond_Zopp s (Zpos m)) (- e)).
      assert (HN : Z.abs N < 2 ^ 53).
      { subst N. rewrite Z.shiftr_div_pow2 by lia.
        assert (Hp : 0 < 2 ^ (- e)) by (apply Z.pow_pos_nonneg; lia).
        assert (Hm : Zpos m < 2 ^ 53).
        { eapply Z.lt_le_trans; [exact Bu|]. apply Z.pow_le_mono_r; lia. }
        pose proof (Z.div_mod (cond_Zopp s (Zpos m)) (2 ^ (- e)) ltac:(lia)) as Hdm.
        pose proof (Z.mod_pos_bound (cond_Zopp s (Zpos m)) (2 ^ (- e)) Hp) as Hmod.
        destruct s; cbn [cond_Zopp] in *; nia. }
      destruct (of_Z_exact N HN) as (Fn & Vn & Un).
      exists N. repeat split; try assumption. intros _. left. reflexivity.
Qed.

Lemma floor_special x :
  is_finite x = false -> Js.Math_floor x = x.
Proof. destruct x; try discriminate; reflexivity. Qed.

(** [Math.max(lo, Math.min(hi, Math.floor(x)))] for integer bounds
    [0 <= lo <= hi < 2^52]: an integer between them. *)
Lemma clamp_floor_integer lo hi x :
  0 <= lo <= hi -> hi < 2 ^ 52 ->
  F64.valid x = true -> is_nan x = false ->
  exists n, lo <= n <= hi
    /\ clamp (F64.of_Z lo) (F64.of_Z hi) (Js.Math_floor x) = F64.of_Z n.
Proof.
  intros Hlo Hhi Vx Nx.
  assert (Blo : Z.abs lo < 2 ^ 53) by (change (2 ^ 53) with (2 * 2 ^ 52); lia).
  assert (Bhi : Z.abs hi < 2 ^ 53) by (change (2 ^ 53) with (2 * 2 ^ 52); lia).
  destruct (of_Z_exact lo Blo) as (Flo & Vlo & Ulo).
  destruct (of_Z_exact hi Bhi) as (Fhi & Vhi & Uhi).
  pose proof (compare_of_Z lo hi Blo Bhi) as Clh.
  pose proof (of_Z_not_neg_zero lo ltac:(lia)) as Zlo.
  pose proof (of_Z_not_neg_zero hi ltac:(lia)) as Zhi.
  assert (P : 0 < 2 ^ 1074) by reflexivity.
  unfold clamp.
  destruct (is_finite x) eqn:Fx.
  - destruct (floor_integer x Vx Fx) as (F & Ff & Vf & Uf & Hf).
    set (fx := Js.Math_floor x) in *.
    assert (Chf : SFcompare (F64.of_Z hi) fx = Some (hi ?= F)).
    { rewrite compare_units, Uhi, Uf by assumption. f_equal. symmetry.
      apply Zmult_compare_compat_r. reflexivity. }
    assert (Clf : SFcompare (F64.of_Z lo) fx = Some (lo ?= F)).
    { rewrite compare_units, Ulo, Uf by assumption. f_equal. symmetry.
      apply Zmult_compare_compat_r. reflexivity. }
    unfold Js.Math_min. rewrite Chf, Zhi.
    destruct (Z.compare_spec hi F) as [E|E|E].
    + (* floor = hi *)
      unfold Js.Math_max. rewrite Clf.
      destruct (Z.compare_spec lo F) as [E'|E'|E'].
      * rewrite Zlo. exists lo. split; [lia | reflexivity].
      * exists F. split; [lia|].
        destruct Hf as [Hf|Hf]; [lia | exact Hf |].
        exfalso. rewrite Hf in Uf. cbn in Uf. lia.
      * lia.
    + (* floor above hi *)
      unfold Js.Math_max. rewrite Clh.
      destruct (Z.compare_spec lo hi) as [E'|E'|E'].
      * rewrite Zlo. exists lo. split; [lia | reflexivity].
      * exists hi. split; [lia | reflexivity].
      * lia.
    + (* floor below hi *)
      unfold Js.Math_max. rewrite Clf.
      destruct (Z.compare_spec lo F) as [E'|E'|E'].
      * rewrite Zlo. exists lo. split; [lia | reflexivity].
      * exists F. split; [lia|].
        destruct Hf as [Hf|Hf]; [lia | exact Hf |].
        exfalso. rewrite Hf in Uf. cbn in Uf. lia.
      * exists lo. split; [lia | reflexivity].
  - rewrite (floor_special x Fx).
    destruct x as [s|[|]| |s m e]; try discriminate.
    + (* -infinity *)
      assert (E : Js.Math_min (F64.of_Z hi) (S754_infinity true) = S754_infinity true).
      { unfold Js.Math_min. destruct (F64.of_Z hi); try discriminate; reflexivity. }
      rewrite E. exists lo. split; [lia|].
      unfold Js.Math_max. destruct (F64.of_Z lo); try discriminate; reflexivity.
    + (* +infinity *)
      assert (E : Js.Math_min (F64.of_Z hi) (S754_infinity false) = F64.of_Z hi).
      { unfold Js.Math_min. destruct (F64.of_Z hi); try discriminate; reflexivity. }
      rewrite E. unfold Js.Math_max. rewrite Clh.
      destruct (Z.compare_spec lo hi) as [E'|E'|E'].
      * rewrite Zlo. exists lo. split; [lia | reflexivity].
      * exists hi. split; [lia | reflexivity].
      * lia.
Qed.


(** *** The remainder operator and the wrap of [colorOffset] *)

Lemma valid_mantissa_bound s m e :
  F64.valid (S754_finite s m e) = true -> Zpos m < 2 ^ 53 /\ -1074 <= e <= 971.
Proof.
  intro V.
  pose proof (valid_finite_emin F64.prec F64.emax s m e V) as He.
  pose proof (valid_canonical F64.prec F64.emax s m e V) as Hc.
  pose proof (digits2_pos_bounds m) as [_ Bu].
  unfold F64.valid in V. cbn [valid_binary] in V. unfold bounded in V.
  apply andb_true_iff in V. destruct V as [_ Vb]. apply Z.leb_le in Vb.
  unfold F64.prec, F64.emax, fexp, emin in *.
  split; [|lia].
  eapply Z.lt_le_trans; [exact Bu|]. apply Z.pow_le_mono_r; lia.
Qed.

(** [x % y] is exact: its magnitude is the remainder of the magnitudes and
    it has the sign of [x]. *)
Lemma rem_spec x sy my ey :
  F64.valid x = true -> F64.valid (S754_finite sy my ey) = true ->
  is_finite x = true ->
  let r := Js.rem x (S754_finite sy my ey) in
  is_finite r = true /\ F64.valid r = true
  /\ units r = Z.sgn (units x) * (Z.abs (units x) mod Z.abs (units (S754_finite sy my ey))).
Proof.
  intros Vx Vy Fx r. subst r.
  destruct x as [sx|sx| |sx mx ex]; try discriminate Fx.
  - cbn [Js.rem]. repeat split.
  - destruct (valid_mantissa_bound _ _ _ Vx) as [Bx Ex].
    destruct (valid_mantissa_bound _ _ _ Vy) as [By Ey].
    cbn [Js.rem]. cbv zeta.
    set (ez := Z.min ex ey).
    pose proof (shl_align_spec mx ex ez) as Sx.
    pose proof (shl_align_spec my ey ez) as Sy.
    destruct (shl_align mx ex ez) as [ax ez1], (shl_align my ey ez) as [ay ez2].
    cbn [fst]. destruct Sx as [Ez1 Ax], Sy as [Ez2 Ay].
    assert (Hz1 : ez1 = ez) by (subst ez; lia).
    assert (Hz2 : ez2 = ez) by (subst ez; lia).
    rewrite Hz1 in Ax. rewrite Hz2 in Ay.
    set (N := Zpos ax mod Zpos ay).
    assert (HN : 0 <= N < Zpos ay) by (apply Z.mod_pos_bound; lia).
    assert (HNx : N <= Zpos ax) by (apply Z.mod_le; lia).
    assert (HN53 : N < 2 ^ 53).
    { destruct (Z.le_ge_cases ex ey) as [L|L].
      - replace (ex - ez) with 0 in Ax by (subst ez; lia). cbn in Ax. lia.
      - replace (ey - ez) with 0 in Ay by (subst ez; lia). cbn in Ay. lia. }
    assert (HcN : Z.abs (cond_Zopp sx N) < 2 ^ 53)
      by (destruct sx; cbn [cond_Zopp]; lia).
    destruct (normalize_exact F64.prec F64.emax F64_prec F64_emax
                (cond_Zopp sx N) ez sx) as (Fr & Vr & Ur);
      try (unfold F64.prec, F64.emax, emin; subst ez; lia).
    repeat split; try assumption.
    unfold units. rewrite Ur. cbn [FloatValue.Zval].
    unfold F64.prec, F64.emax, emin.
    replace (3 - 1024 - 53) with (-1074) by reflexivity.
    set (K := 2 ^ (ez - -1074)).
    assert (HK : 0 < K) by (apply Z.pow_pos_nonneg; subst ez; lia).
    assert (Xv : Zpos mx * 2 ^ (ex - -1074) = Zpos ax * K).
    { rewrite Ax. unfold K. rewrite <- Z.mul_assoc, <- Z.pow_add_r by (subst ez; lia).
      f_equal. f_equal. lia. }
    assert (Yv : Zpos my * 2 ^ (ey - -1074) = Zpos ay * K).
    { rewrite Ay. unfold K. rewrite <- Z.mul_assoc, <- Z.pow_add_r by (subst ez; lia).
      f_equal. f_equal. lia. }
    assert (Ax' : Z.abs (cond_Zopp sx (Zpos mx) * 2 ^ (ex - -1074)) = Zpos ax * K)
      by (destruct sx; cbn [cond_Zopp]; lia).
    assert (Ay' : Z.abs (cond_Zopp sy (Zpos my) * 2 ^ (ey - -1074)) = Zpos ay * K)
      by (destruct sy; cbn [cond_Zopp]; lia).
    rewrite Ax', Ay', Z.mul_mod_distr_r by lia. fold N.
    destruct sx; cbn [cond_Zopp].
    + replace (Z.sgn (- Zpos mx * 2 ^ (ex - -1074))) with (-1); [lia|].
      symmetry. apply Z.sgn_neg. lia.
    + replace (Z.sgn (Zpos mx * 2 ^ (ex - -1074))) with 1; [lia|].
      symmetry. apply Z.sgn_pos. lia.
Qed.

(** The wrap [((x % 100) + 100) % 100] of a finite number lands in
    [0, 100). *)
Lemma wrap_range x :
  F64.valid x = true -> is_finite x = true ->
  let w := Js.rem (F64.add (Js.rem x lit_100) lit_100) lit_100 in
  F64.leb F64.zero w = true /\ F64.ltb w lit_100 = true.
Proof.
  intros Vx Fx.
  assert (E100 : lit_100 = S754_finite false 7036874417766400 (-46)) by reflexivity.
  assert (V100 : F64.valid lit_100 = true) by reflexivity.
  assert (U100 : units lit_100 = 100 * 2 ^ 1074) by reflexivity.
  assert (P : 0 < 2 ^ 1074) by reflexivity.
  set (C := 100 * 2 ^ 1074) in *. assert (HC : 0 < C) by (subst C; lia).
  rewrite E100 in *.
  destruct (rem_spec x false 7036874417766400 (-46) Vx V100 Fx) as (F1 & V1 & U1).
  set (r1 := Js.rem x (S754_finite false 7036874417766400 (-46))) in *.
  rewrite U100, (Z.abs_eq C) in U1 by lia.
  assert (B1 : - C < units r1 < C).
  { rewrite U1. pose proof (Z.mod_pos_bound (Z.abs (units x)) C HC).
    destruct (Z.sgn_spec (units x)) as [[_ ->]|[[_ ->]|[_ ->]]]; lia. }
  (* the sum *)
  assert (Hp1 : 1 <= F64.prec) by (unfold F64.prec; lia).
  assert (Bs : Z.abs (rnd F64.prec (units r1 + C)) <= 2 ^ 1082).
  { apply rnd_abs_le_pow2; [exact Hp1 | lia |].
    change (2 ^ 1082) with (256 * 2 ^ 1074). subst C. lia. }
  assert (Fs : is_finite (F64.add r1 (S754_finite false 7036874417766400 (-46))) = true).
  { apply (SFadd_in_range F64.prec F64.emax F64_prec F64_emax); try assumption; try reflexivity.
    fold (units r1). fold (units (S754_finite false 7036874417766400 (-46))).
    rewrite U100. eapply Z.le_lt_trans; [exact Bs|]. reflexivity. }
  destruct (SFadd_spec F64.prec F64.emax F64_prec F64_emax _ _ V1 V100 Fs) as [Vs Us].
  fold (units r1) in Us. fold (units (S754_finite false 7036874417766400 (-46))) in Us.
  rewrite U100 in Us.
  set (sm := SFadd F64.prec F64.emax r1 (S754_finite false 7036874417766400 (-46))) in *.
  change (F64.add r1 (S754_finite false 7036874417766400 (-46))) with sm in *.
  fold (units sm) in Us.
  assert (Ns : 0 <= units sm).
  { rewrite Us.
    pose proof (rnd_nearest F64.prec Hp1 (units r1 + C) 0 (in_format_0 _)). lia. }
  destruct (rem_spec sm false 7036874417766400 (-46) Vs V100 Fs) as (Fw & Vw & Uw).
  cbv zeta. set (w := Js.rem sm (S754_finite false 7036874417766400 (-46))) in *.
  rewrite U100, (Z.abs_eq C) in Uw by lia.
  assert (Bw : 0 <= units w < C).
  { rewrite Uw. pose proof (Z.mod_pos_bound (Z.abs (units sm)) C HC).
    destruct (Z.sgn_spec (units sm)) as [[Hs ->]|[[Hs ->]|[Hs ->]]]; lia. }
  split.
  - unfold F64.leb. rewrite (SFleb_Zval F64.prec F64.emax F64_prec) by (assumption || reflexivity).
    fold (units w). apply Z.leb_le. cbn. lia.
  - unfold F64.ltb. rewrite (SFltb_Zval F64.prec F64.emax F64_prec) by (assumption || reflexivity).
    fold (units w). fold (units (S754_finite false 7036874417766400 (-46))).
    rewrite U100. apply Z.ltb_lt. lia.
Qed.

Lemma wrap_not_finite x :
  is_finite x = false ->
  Js.rem (F64.add (Js.rem x lit_100) lit_100) lit_100 = S754_nan.
Proof. destruct x; try discriminate; reflexivity. Qed.


(** *** What [update] stores *)

Lemma eqb_same_compare a b :
  F64.eqb a b = true ->
  forall c, SFcompare a c = SFcompare b c /\ SFcompare c a = SFcompare c b.
Proof.
  unfold F64.eqb, SFeqb.
  destruct a as [[|]|[|]| |[|] ma ea], b as [[|]|[|]| |[|] mb eb];
    cbn -[Z.compare Pos.compare_cont]; try discriminate;
    try (intros _ c; destruct c; split; reflexivity);
    destruct (Z.compare_spec ea eb) as [E|E|E]; try discriminate; subst eb;
    intro H;
    assert (Hm : Pos.compare ma mb = Eq)
      by (unfold Pos.compare; destruct (Pos.compare_cont Eq ma mb);
          cbn in H; congruence);
    apply Pos.compare_eq in Hm; subst mb; intro c; split; reflexivity.
Qed.

Lemma eqb_leb_l a b c : F64.eqb a b = true -> F64.leb c a = F64.leb c b.
Proof.
  intro H. unfold F64.leb, SFleb. now rewrite (proj2 (eqb_same_compare a b H c)).
Qed.

Lemma eqb_leb_r a b c : F64.eqb a b = true -> F64.leb a c = F64.leb b c.
Proof.
  intro H. unfold F64.leb, SFleb. now rewrite (proj1 (eqb_same_compare a b H c)).
Qed.

Lemma eqb_ltb_r a b c : F64.eqb a b = true -> F64.ltb a c = F64.ltb b c.
Proof.
  intro H. unfold F64.ltb, SFltb. now rewrite (proj1 (eqb_same_compare a b H c)).
Qed.

Lemma eqb_nan_r a : F64.eqb a S754_nan = false.
Proof. destruct a; reflexivity. Qed.

Lemma eqb_trans a b c : F64.eqb a b = true -> F64.eqb b c = true -> F64.eqb a c = true.
Proof.
  intros H1 H2. unfold F64.eqb, SFeqb in *.
  now rewrite (proj1 (eqb_same_compare a b H1 c)).
Qed.

Lemma hasChanges_false s v :
  hasChanges s v = false ->
  num_differs (ch_centerX v) (centerX s) = false
  /\ num_differs (ch_centerY v) (centerY s) = false
  /\ num_differs (ch_zoom v) (zoom s) = false
  /\ num_differs (ch_power v) (power s) = false
  /\ num_differs (ch_maxIter v) (maxIter s) = false
  /\ num_differs (ch_numberBase v) (numberBase s) = false
  /\ num_differs (ch_colorScheme v) (colorScheme s) = false
  /\ num_differs (ch_colorOffset v) (colorOffset s) = false
  /\ bool_differs (ch_burningShip v) (burningShip s) = false
  /\ bool_differs (ch_juliaMode v) (juliaMode s) = false
  /\ array_differs (ch_juliaC v) (juliaC s) = false
  /\ num_differs (ch_width v) (width s) = false
  /\ num_differs (ch_height v) (height s) = false.
Proof.
  unfold hasChanges. intro H.
  repeat (apply orb_false_iff in H; let H' := fresh in destruct H as [H H']).
  repeat split; assumption.
Qed.

Lemma num_differs_false p old :
  num_differs (Some p) old = false -> F64.eqb old p = true.
Proof. unfold num_differs, Js.strict_neq. apply negb_false_iff. Qed.

Ltac stored_field :=
  intros s c p Hp; unfold update;
  destruct (hasChanges s (_validateChanges c)) eqn:E;
  [ left; unfold merge;
    cbn [centerX centerY zoom power maxIter numberBase colorScheme colorOffset
         width height];
    rewrite Hp; reflexivity
  | right; apply hasChanges_false in E;
    repeat match goal with H : _ /\ _ |- _ => destruct H end;
    apply num_differs_false; rewrite <- Hp; assumption ].

Lemma stored_power : stored power ch_power.
Proof. stored_field. Qed.
Lemma stored_zoom : stored zoom ch_zoom.
Proof. stored_field. Qed.
Lemma stored_maxIter : stored maxIter ch_maxIter.
Proof. stored_field. Qed.
Lemma stored_numberBase : stored numberBase ch_numberBase.
Proof. stored_field. Qed.
Lemma stored_colorScheme : stored colorScheme ch_colorScheme.
Proof. stored_field. Qed.
Lemma stored_colorOffset : stored colorOffset ch_colorOffset.
Proof. stored_field. Qed.


Lemma stored_nan field key s c :
  stored field key -> key (_validateChanges c) = Some S754_nan ->
  field (update s c) = S754_nan.
Proof.
  intros St Hk. destruct (St s c _ Hk) as [H|H]; [exact H|].
  now rewrite eqb_nan_r in H.
Qed.

(** X1.  When the changes carry a number for [power] or for [zoom],
    [update] never stores a value outside [1, 12] or [0.1, 1e15] for it: a
    number that is not NaN is clamped into the range; NaN is not caught by
    the validation and is stored as NaN. *)
Theorem update_clamps_power_and_zoom s c :
  (forall x, ch_power c = Some x ->
     if is_nan x then power (update s c) = S754_nan
     else F64.leb (F64.of_Z 1) (power (update s c)) = true
          /\ F64.leb (power (update s c)) (F64.of_Z 12) = true)
  /\ (forall x, ch_zoom c = Some x ->
     if is_nan x then zoom (update s c) = S754_nan
     else F64.leb (F64.of_decimal 1 1) (zoom (update s c)) = true
          /\ F64.leb (zoom (update s c)) (F64.of_Z (10 ^ 15)) = true).
Proof.
  split; intros x Hx.
  - assert (Hv : ch_power (_validateChanges c)
                 = Some (clamp (F64.of_Z 1) (F64.of_Z 12) x))
      by (cbn [_validateChanges ch_power]; now rewrite Hx).
    destruct (is_nan x) eqn:Nx.
    + destruct x; try discriminate. rewrite clamp_nan in Hv.
      exact (stored_nan _ _ s c stored_power Hv).
    + destruct (clamp_range (F64.of_Z 1) (F64.of_Z 12) x
                  eq_refl eq_refl eq_refl eq_refl eq_refl Nx) as (_ & L & U).
      destruct (stored_power s c _ Hv) as [E|E].
      * rewrite E. now split.
      * rewrite (eqb_leb_l _ _ _ E), (eqb_leb_r _ _ _ E). now split.
  - assert (Hv : ch_zoom (_validateChanges c)
                 = Some (clamp (F64.of_decimal 1 1) (F64.of_Z (10 ^ 15)) x))
      by (cbn [_validateChanges ch_zoom]; now rewrite Hx).
    destruct (is_nan x) eqn:Nx.
    + destruct x; try discriminate. rewrite clamp_nan in Hv.
      exact (stored_nan _ _ s c stored_zoom Hv).
    + assert (B1 : F64.leb (F64.of_decimal 1 1) (F64.of_Z (10 ^ 15)) = true)
        by (vm_compute; reflexivity).
      assert (B2 : F64.leb (F64.of_decimal 1 1) (F64.of_decimal 1 1) = true)
        by (vm_compute; reflexivity).
      assert (B3 : F64.leb (F64.of_Z (10 ^ 15)) (F64.of_Z (10 ^ 15)) = true)
        by (vm_compute; reflexivity).
      assert (N1 : is_nan (F64.of_decimal 1 1) = false) by (vm_compute; reflexivity).
      assert (N2 : is_nan (F64.of_Z (10 ^ 15)) = false) by (vm_compute; reflexivity).
      destruct (clamp_range _ _ x N1 N2 B1 B2 B3 Nx) as (_ & L & U).
      destruct (stored_zoom s c _ Hv) as [E|E].
      * rewrite E. now split.
      * rewrite (eqb_leb_l _ _ _ E), (eqb_leb_r _ _ _ E). now split.
Qed.

Lemma eqb_of_Z_refl n : Z.abs n < 2 ^ 53 -> F64.eqb (F64.of_Z n) (F64.of_Z n) = true.
Proof.
  intro H. unfold F64.eqb, SFeqb. now rewrite compare_of_Z, Z.compare_refl.
Qed.

Lemma stored_integer field key lo hi s c x :
  stored field key ->
  0 <= lo <= hi -> hi < 2 ^ 52 ->
  key (_validateChanges c)
  = Some (clamp (F64.of_Z lo) (F64.of_Z hi) (Js.Math_floor x)) ->
  F64.valid x = true -> is_nan x = false ->
  exists n, lo <= n <= hi /\ F64.eqb (field (update s c)) (F64.of_Z n) = true.
Proof.
  intros St Hlo Hhi Hk Vx Nx.
  destruct (clamp_floor_integer lo hi x Hlo Hhi Vx Nx) as (n & Hn & En).
  rewrite En in Hk. exists n. split; [exact Hn|].
  destruct (St s c _ Hk) as [E|E]; [|exact E].
  rewrite E. apply eqb_of_Z_refl. change (2 ^ 53) with (2 * 2 ^ 52). lia.
Qed.

(** X2.  [update] stores only integers for [maxIter], [numberBase] and
    [colorScheme]: for every well-formed number [x] other than NaN, the
    stored value is (strictly equal to) an integer of [10, 10000],
    [2, 60] and [0, 7] respectively. *)
Theorem update_stores_integers_in_range s c :
  (forall x, ch_maxIter c = Some x -> F64.valid x = true -> is_nan x = false ->
     exists n, 10 <= n <= 10000
       /\ F64.eqb (maxIter (update s c)) (F64.of_Z n) = true)
  /\ (forall x, ch_numberBase c = Some x -> F64.valid x = true -> is_nan x = false ->
     exists n, 2 <= n <= 60
       /\ F64.eqb (numberBase (update s c)) (F64.of_Z n) = true)
  /\ (forall x, ch_colorScheme c = Some x -> F64.valid x = true -> is_nan x = false ->
     exists n, 0 <= n <= 7
       /\ F64.eqb (colorScheme (update s c)) (F64.of_Z n) = true).
Proof.
  assert (B : 10000 < 2 ^ 52) by reflexivity.
  repeat split; intros x Hx Vx Nx.
  - apply (stored_integer maxIter ch_maxIter 10 10000 s c x stored_maxIter);
      try assumption; try lia.
    cbn [_validateChanges ch_maxIter]. now rewrite Hx.
  - apply (stored_integer numberBase ch_numberBase 2 60 s c x stored_numberBase);
      try assumption; try lia.
    cbn [_validateChanges ch_numberBase]. now rewrite Hx.
  - apply (stored_integer colorScheme ch_colorScheme 0 7 s c x stored_colorScheme);
      try assumption; try lia.
    cbn [_validateChanges ch_colorScheme]. now rewrite Hx.
Qed.

(** X3.  [update] wraps [colorOffset] into [0, 100): for every well-formed
    finite [x] the stored offset [w] satisfies [0 <= w < 100]; an infinite
    or NaN [x] is stored as NaN. *)
Theorem update_wraps_colorOffset s c x :
  ch_colorOffset c = Some x -> F64.valid x = true ->
  let w := colorOffset (update s c) in
  if is_finite x
  then F64.leb F64.zero w = true /\ F64.ltb w (F64.of_Z 100) = true
  else w = S754_nan.
Proof.
  intros Hx Vx.
  assert (Hv : ch_colorOffset (_validateChanges c)
               = Some (Js.rem (F64.add (Js.rem x lit_100) lit_100) lit_100))
    by (cbn [_validateChanges ch_colorOffset]; now rewrite Hx).
  cbv zeta. destruct (is_finite x) eqn:Fx.
  - destruct (wrap_range x Vx Fx) as [L U].
    destruct (stored_colorOffset s c _ Hv) as [E|E].
    + rewrite E. now split.
    + rewrite (eqb_leb_l _ _ _ E), (eqb_ltb_r _ _ _ E). now split.
  - rewrite (wrap_not_finite x Fx) in Hv.
    exact (stored_nan _ _ s c stored_colorOffset Hv).
Qed.

Lemma update_wraps_colorOffset_witness :
  let c := only_colorOffset (F64.of_Z (-30)) in
  let x := F64.of_Z (-30) in
  let w := colorOffset (update DEFAULT_STATE c) in
  ch_colorOffset c = Some x /\ F64.valid x = true
  /\ (if is_finite x
      then F64.leb F64.zero w = true /\ F64.ltb w (F64.of_Z 100) = true
      else w = S754_nan).
Proof.
  intros c x w.
  assert (H1 : ch_colorOffset c = Some x) by reflexivity.
  assert (H2 : F64.valid x = true) by reflexivity.
  split; [exact H1|]. split; [exact H2|].
  exact (update_wraps_colorOffset DEFAULT_STATE c x H1 H2).
Defined.

(** The wrap does not keep every offset that is already in [0, 100): the
    number [28 + 2^-46] comes out as 28. *)
Example wrap_moves_an_offset_in_range :
  let x := F64.of_dyadic (28 * 2 ^ 46 + 1) (-46) in
  F64.leb F64.zero x = true /\ F64.ltb x (F64.of_Z 100) = true
  /\ colorOffset (update DEFAULT_STATE (only_colorOffset x)) = F64.of_Z 28.
Proof. vm_compute. repeat split. Qed.

(** *** [update] twice, and [reset] *)

Lemma over_idem {A} (n : option A) (o : A) : over n (over n o) = over n o.
Proof. destruct n; reflexivity. Qed.

Lemma merge_idem s v : merge (merge s v) v = merge s v.
Proof.
  unfold merge.
  cbn [centerX centerY zoom power maxIter numberBase colorScheme colorOffset
       burningShip juliaMode juliaC width height coloringMode].
  rewrite !over_idem. destruct (ch_coloringMode v); reflexivity.
Qed.

(** X4.  [update] is idempotent: passing the same changes a second time
    leaves the state that the first call produced. *)
Theorem update_idempotent s c : update (update s c) c = update s c.
Proof.
  unfold update. destruct (hasChanges s (_validateChanges c)) eqn:E; cbv iota.
  - destruct (hasChanges (merge s (_validateChanges c)) (_validateChanges c));
      [apply merge_idem | reflexivity].
  - now rewrite E.
Qed.

Lemma some_differs_false old new :
  length old = length new -> some_differs old new = false ->
  Forall2 (fun o n => F64.eqb o n = true) old new.
Proof.
  revert new. induction old as [|o old IH]; intros [|n new] Hl; try discriminate.
  - constructor.
  - cbn [some_differs]. intro H. apply orb_false_iff in H. destruct H as [H1 H2].
    constructor; [now apply negb_false_iff in H1 | apply IH; [now injection Hl | exact H2]].
Qed.

(** X5.  [reset()] brings every key of [DEFAULT_STATE] back to (a value
    strictly equal to) its default, whatever the state was; [coloringMode],
    which [DEFAULT_STATE] does not list, is left as it is. *)
Theorem reset_restores_defaults s :
  let s' := reset s in
  F64.eqb (centerX s') (centerX DEFAULT_STATE) = true
  /\ F64.eqb (centerY s') (centerY DEFAULT_STATE) = true
  /\ F64.eqb (zoom s') (zoom DEFAULT_STATE) = true
  /\ F64.eqb (power s') (power DEFAULT_STATE) = true
  /\ F64.eqb (maxIter s') (maxIter DEFAULT_STATE) = true
  /\ F64.eqb (numberBase s') (numberBase DEFAULT_STATE) = true
  /\ F64.eqb (colorScheme s') (colorScheme DEFAULT_STATE) = true
  /\ F64.eqb (colorOffset s') (colorOffset DEFAULT_STATE) = true
  /\ burningShip s' = false /\ juliaMode s' = false
  /\ Forall2 (fun o n => F64.eqb o n = true) (juliaC s') (juliaC DEFAULT_STATE)
  /\ F64.eqb (width s') (width DEFAULT_STATE) = true
  /\ F64.eqb (height s') (height DEFAULT_STATE) = true
  /\ coloringMode s' = coloringMode s.
Proof.
  cbv zeta. unfold reset, update.
  assert (Ev : _validateChanges default_changes = default_changes)
    by (vm_compute; reflexivity).
  rewrite Ev. destruct (hasChanges s default_changes) eqn:E.
  - unfold merge, default_changes.
    cbn [centerX centerY zoom power maxIter numberBase colorScheme colorOffset
         burningShip juliaMode juliaC width height coloringMode
         ch_centerX ch_centerY ch_zoom ch_power ch_maxIter ch_numberBase
         ch_colorScheme ch_colorOffset ch_burningShip ch_juliaMode ch_juliaC
         ch_width ch_height ch_coloringMode over].
    repeat split; try (vm_compute; reflexivity).
    repeat constructor; vm_compute; reflexivity.
  - apply hasChanges_false in E.
    destruct E as (H1 & H2 & H3 & H4 & H5 & H6 & H7 & H8 & H9 & H10 & H11 & H12 & H13).
    unfold default_changes in *.
    cbn [ch_centerX ch_centerY ch_zoom ch_power ch_maxIter ch_numberBase
         ch_colorScheme ch_colorOffset ch_burningShip ch_juliaMode ch_juliaC
         ch_width ch_height ch_coloringMode] in *.
    repeat split; try (now apply num_differs_false).
    + unfold bool_differs in H9. apply negb_false_iff in H9.
      destruct (burningShip s); [discriminate H9 | reflexivity].
    + unfold bool_differs in H10. apply negb_false_iff in H10.
      destruct (juliaMode s); [discriminate H10 | reflexivity].
    + unfold array_differs in H11. apply orb_false_iff in H11.
      destruct H11 as [Hl Hd]. apply negb_false_iff, Nat.eqb_eq in Hl.
      now apply some_differs_false.
Qed.

(** X26.  [update] keeps [juliaC] a pair: when the changes carry an array
    for [juliaC], of whatever length, a state whose [juliaC] has two
    entries still has two afterwards (an array that is not of length 2 is
    dropped by the validation, not stored). *)
Theorem update_keeps_juliaC_a_pair s c array :
  ch_juliaC c = Some array ->
  length (juliaC s) = 2%nat -> length (juliaC (update s c)) = 2%nat.
Proof.
  intros Hc H. unfold update. destruct (hasChanges s (_validateChanges c)); [|exact H].
  unfold merge, _validateChanges. cbn [juliaC ch_juliaC]. rewrite Hc.
  destruct array as [|a [|b [|d l]]]; cbn [over]; try exact H.
  reflexivity.
Qed.

Lemma update_keeps_juliaC_a_pair_witness :
  let c := {| ch_centerX := None; ch_centerY := None; ch_zoom := None;
              ch_power := None; ch_maxIter := Some (F64.of_Z 100);
              ch_numberBase := None; ch_colorScheme := None;
              ch_colorOffset := None; ch_burningShip := None;
              ch_juliaMode := None; ch_juliaC := Some [F64.of_Z 1];
              ch_width := None; ch_height := None; ch_coloringMode := None |} in
  length (juliaC (update DEFAULT_STATE c)) = 2%nat.
Proof.
  intro c. apply (update_keeps_juliaC_a_pair DEFAULT_STATE c [F64.of_Z 1]);
    reflexivity.
Defined.

End ValidationFacts.

(** ** FractalState.js: the undo history *)

Module HistoryFacts.
Import FractalState StateRules History.

Lemma slice_length {A} (l : list A) fin :
  (length (slice_from_start l fin) <= length l)%nat.
Proof. unfold slice_from_start. rewrite length_firstn. lia. Qed.

Lemma slice_all {A} (l : list A) :
  slice_from_start l (Z.of_nat (length l) - 1 + 1) = l.
Proof.
  unfold slice_from_start.
  destruct (Z.ltb_spec (Z.of_nat (length l) - 1 + 1) 0); [lia|].
  rewrite Z.min_l by lia.
  replace (Z.to_nat (Z.of_nat (length l) - 1 + 1)) with (length l) by lia.
  apply firstn_all.
Qed.

Lemma pushHistory_ok o : history_ok o -> history_ok (_pushHistory o).
Proof.
  unfold history_ok, _pushHistory, _maxHistorySize. intros [Hi Hl].
  pose proof (slice_length (_history o) (_historyIndex o + 1)) as Hs.
  set (h := slice_from_start (_history o) (_historyIndex o + 1) ++ [_state o]).
  assert (Hh : length h = S (length (slice_from_start (_history o) (_historyIndex o + 1))))
    by (subst h; rewrite length_app; cbn; lia).
  destruct (Z.ltb_spec 50 (Z.of_nat (length h))) as [Hgt|Hle];
    cbn [_history _historyIndex].
  - destruct h as [|x t]; [cbn in Hh; lia|]. cbn [tl length] in *. lia.
  - lia.
Qed.

Lemma update_with_ok o c b : history_ok o -> history_ok (update_with o c b).
Proof.
  intro H. unfold update_with.
  destruct (hasChanges _ _); [|exact H].
  destruct b; cbn [_history _historyIndex]; [apply pushHistory_ok|]; exact H.
Qed.

Lemma undo_ok o :
  history_ok o ->
  exists ok o', undo o = Some (ok, o') /\ ok = canUndo o /\ history_ok o'
    /\ _history o' = _history o.
Proof.
  unfold history_ok, undo, canUndo. intros [Hi Hl].
  destruct (Z.ltb_spec (_historyIndex o) 0) as [Hn|Hn].
  - exists false, o. repeat split; lia.
  - destruct (nth_error (_history o) (Z.to_nat (_historyIndex o))) as [s|] eqn:E.
    + eexists true, _. split; [reflexivity|]. cbn [_history _historyIndex].
      repeat split; lia.
    + apply nth_error_None in E. lia.
Qed.

(** X6.  The undo history is kept well formed: from construction on and
    through every [update], [applyPreset] and [undo], the index stays
    within the history (or is -1) and the history never holds more than 50
    states; so [undo()] always finds the state it restores, and it returns
    [canUndo()]. *)
Theorem history_stays_well_formed :
  (forall initialState, history_ok (new_FractalState initialState))
  /\ (forall o changes addToHistory,
        history_ok o -> history_ok (update_with o changes addToHistory))
  /\ (forall o preset, history_ok o -> history_ok (applyPreset o preset))
  /\ (forall o, history_ok o ->
        exists ok o', undo o = Some (ok, o') /\ ok = canUndo o /\ history_ok o').
Proof.
  split; [|split; [|split]].
  - intro i. unfold history_ok, _maxHistorySize. cbn. lia.
  - intros. now apply update_with_ok.
  - intros. now apply update_with_ok.
  - intros o H. destruct (undo_ok o H) as (ok & o' & H1 & H2 & H3 & _).
    now exists ok, o'.
Qed.
End HistoryFacts.

(** ** FractalState.js: undoing, for any state object *)

Module ObjectHistoryFacts.
Import FractalObject.
Section Methods.
Context {state changes : Type} {ops : StateOps state changes}.
Implicit Types (o : Object state) (presets : list changes).

Lemma obj_pushHistory_ok o : history_ok o -> history_ok (_pushHistory o).
Proof.
  unfold history_ok, _pushHistory, _maxHistorySize. intros [Hi Hl].
  pose proof (HistoryFacts.slice_length (_history o) (_historyIndex o + 1)) as Hs.
  set (h := History.slice_from_start (_history o) (_historyIndex o + 1) ++ [_state o]).
  assert (Hh : length h = S (length (History.slice_from_start (_history o) (_historyIndex o + 1))))
    by (subst h; rewrite length_app; cbn; lia).
  destruct (Z.ltb_spec 50 (Z.of_nat (length h))) as [Hgt|Hle];
    cbn [_history _historyIndex].
  - destruct h as [|x t]; [cbn in Hh; lia|]. cbn [tl length] in *. lia.
  - lia.
Qed.

Lemma obj_update_with_ok o c b : history_ok o -> history_ok (update_with o c b).
Proof.
  intro H. unfold update_with.
  destruct (hasChanges _ _); [|exact H].
  destruct b; cbn [_history _historyIndex]; [apply obj_pushHistory_ok|]; exact H.
Qed.

(** *** Undoing *)

Lemma obj_pushHistory_state o : _state (_pushHistory o) = _state o.
Proof. unfold _pushHistory. destruct (_ <? _); reflexivity. Qed.

(** After a push the history ends with the state pushed and the index is
    on it. *)
Lemma obj_pushHistory_last o :
  exists pre,
    _history (_pushHistory o) = pre ++ [_state o]
    /\ _historyIndex (_pushHistory o)
       = Z.of_nat (length (_history (_pushHistory o))) - 1.
Proof.
  unfold _pushHistory, _maxHistorySize.
  set (sl := History.slice_from_start (_history o) (_historyIndex o + 1)).
  destruct (Z.ltb_spec 50 (Z.of_nat (length (sl ++ [_state o])))) as [Hgt|Hle];
    cbn [_history _historyIndex].
  - rewrite length_app in Hgt. cbn [length] in Hgt.
    destruct sl as [|x t]; [cbn in Hgt; lia|].
    exists t. cbn [app tl]. split; [reflexivity|].
    cbn [length]. rewrite !length_app. cbn [length]. lia.
  - exists sl. split; [reflexivity | lia].
Qed.

(** When the index is on the last entry, a push appends: the [L] most
    recent entries are kept as long as the cap of 50 allows. *)
Lemma obj_pushHistory_appends o pre L :
  _history o = pre ++ L ->
  _historyIndex o = Z.of_nat (length (_history o)) - 1 ->
  (length L < 50)%nat ->
  exists pre',
    _history (_pushHistory o) = pre' ++ L ++ [_state o]
    /\ _historyIndex (_pushHistory o)
       = Z.of_nat (length (_history (_pushHistory o))) - 1.
Proof.
  intros Hh Hi HL. unfold _pushHistory, _maxHistorySize.
  rewrite Hi, HistoryFacts.slice_all, Hh.
  destruct (Z.ltb_spec 50 (Z.of_nat (length ((pre ++ L) ++ [_state o])))) as [Hgt|Hle];
    cbn [_history _historyIndex].
  - rewrite !length_app in Hgt. cbn [length] in Hgt.
    destruct pre as [|x pre0]; [cbn [length] in Hgt; lia|].
    exists pre0. cbn [app tl]. split; [now rewrite <- app_assoc|].
    cbn [length]. rewrite !length_app. cbn [length]. lia.
  - exists pre. split; [now rewrite <- app_assoc | lia].
Qed.

Lemma obj_applyPreset_effective o p :
  hasChanges (_state o) (_validateChanges p) = true ->
  _history (applyPreset o p) = _history (_pushHistory o)
  /\ _historyIndex (applyPreset o p) = _historyIndex (_pushHistory o).
Proof. intro H. unfold applyPreset, update_with. rewrite H. split; reflexivity. Qed.

Lemma obj_apply_presets_appends presets :
  forall o pre L,
    _history o = pre ++ L ->
    _historyIndex o = Z.of_nat (length (_history o)) - 1 ->
    (length L + length presets <= 50)%nat ->
    all_effective o presets = true ->
    exists pre',
      _history (apply_presets o presets) = pre' ++ L ++ states_met o presets
      /\ _historyIndex (apply_presets o presets)
         = Z.of_nat (length (_history (apply_presets o presets))) - 1.
Proof.
  induction presets as [|p rest IH]; intros o pre L Hh Hi Hl He.
  - exists pre. cbn [apply_presets states_met]. rewrite app_nil_r. now split.
  - cbn [apply_presets states_met all_effective length] in *.
    apply andb_true_iff in He. destruct He as [Hp He].
    destruct (obj_applyPreset_effective o p Hp) as [E1 E2].
    destruct (obj_pushHistory_appends o pre L Hh Hi ltac:(lia)) as (pre1 & H1 & H2).
    destruct (IH (applyPreset o p) pre1 (L ++ [_state o])) as (pre' & H3 & H4).
    + now rewrite E1, H1.
    + now rewrite E1, E2.
    + rewrite length_app. cbn [length]. lia.
    + exact He.
    + exists pre'. split; [|exact H4]. rewrite H3, <- app_assoc. reflexivity.
Qed.

(** The history after a run of at most 50 effective presets ends with the
    states the presets met, whatever the object was before. *)
Lemma obj_apply_presets_history o presets :
  (length presets <= 50)%nat ->
  all_effective o presets = true ->
  presets <> [] ->
  exists pre,
    _history (apply_presets o presets) = pre ++ states_met o presets
    /\ _historyIndex (apply_presets o presets)
       = Z.of_nat (length (_history (apply_presets o presets))) - 1.
Proof.
  destruct presets as [|p rest]; [congruence|]. intros Hl He _.
  cbn [apply_presets states_met all_effective length] in *.
  apply andb_true_iff in He. destruct He as [Hp He].
  destruct (obj_applyPreset_effective o p Hp) as [E1 E2].
  destruct (obj_pushHistory_last o) as (pre1 & H1 & H2).
  destruct (obj_apply_presets_appends rest (applyPreset o p) pre1 [_state o])
    as (pre' & H3 & H4).
  - now rewrite E1, H1.
  - now rewrite E1, E2.
  - cbn [length]. lia.
  - exact He.
  - exists pre'. split; [exact H3 | exact H4].
Qed.

Lemma obj_undo_step o pre L s rest :
  _history o = pre ++ L ++ s :: rest ->
  _historyIndex o = Z.of_nat (length pre + length L) ->
  undo o = Some (true, {| _state := s; _history := _history o;
                          _historyIndex := _historyIndex o - 1 |}).
Proof.
  intros Hh Hi. unfold undo.
  destruct (Z.ltb_spec (_historyIndex o) 0); [lia|].
  rewrite Hi, Nat2Z.id, Hh, app_assoc.
  rewrite nth_error_app2 by (rewrite length_app; lia).
  rewrite length_app, Nat.sub_diag. reflexivity.
Qed.

Lemma obj_undo_times_walk L :
  forall o pre s rest,
    _history o = pre ++ s :: L ++ rest ->
    _historyIndex o = Z.of_nat (length pre + length L) ->
    exists o', undo_times (S (length L)) o = Some o' /\ _state o' = s
               /\ _historyIndex o' = Z.of_nat (length pre) - 1.
Proof.
  induction L as [|x L IH] using rev_ind; intros o pre s rest Hh Hi.
  - cbn [length app] in *. cbn [undo_times].
    rewrite (obj_undo_step o pre [] s rest); [| exact Hh | cbn [length]; lia].
    eexists. split; [reflexivity|]. cbn [_state _historyIndex]. split; [reflexivity|lia].
  - rewrite length_app in *. cbn [length] in *.
    replace (S (length L + 1)) with (S (S (length L))) by lia.
    cbn [undo_times].
    rewrite (obj_undo_step o pre (s :: L) x rest).
    + apply (IH _ pre s (x :: rest)); cbn [_history _historyIndex].
      * rewrite Hh, <- app_assoc. reflexivity.
      * lia.
    + rewrite Hh. cbn [app]. rewrite <- app_assoc. reflexivity.
    + cbn [length]. lia.
Qed.

Lemma obj_states_met_length presets : forall o, length (states_met o presets) = length presets.
Proof. induction presets as [|p r IH]; intro o; cbn; [reflexivity | now rewrite IH]. Qed.

Lemma obj_states_met_nth presets :
  forall o i, (i < length presets)%nat ->
    nth_error (states_met o presets) i
    = Some (_state (apply_presets o (firstn i presets))).
Proof.
  induction presets as [|p r IH]; intros o i Hi; [cbn in Hi; lia|].
  destruct i as [|i]; [reflexivity|].
  cbn [states_met nth_error firstn apply_presets]. apply IH. cbn in Hi. lia.
Qed.

(** X7.  Undo unwinds the history step by step, whatever keys the state
    and the presets carry.  After a run of at most 50 presets, each of which
    changed the state it met (the test of [update] over the keys of the
    validated preset was true), [j] calls of [undo()] all succeed and leave
    the state that the first [k - j] presets had produced ([k] the length of
    the run); in particular [k] calls give back the state the run started
    from. *)
Theorem undo_unwinds_presets o presets j :
  all_effective o presets = true ->
  (length presets <= 50)%nat ->
  (j <= length presets)%nat ->
  exists o',
    undo_times j (apply_presets o presets) = Some o'
    /\ _state o' = _state (apply_presets o (firstn (length presets - j) presets)).
Proof.
  intros He Hl Hj.
  destruct j as [|j].
  - exists (apply_presets o presets). split; [reflexivity|].
    now rewrite Nat.sub_0_r, firstn_all.
  - assert (Hne : presets <> []) by (destruct presets; [cbn in Hj; lia | discriminate]).
    destruct (obj_apply_presets_history o presets Hl He Hne) as (pre & Hh & Hi).
    set (k := length presets) in *.
    set (S0 := states_met o presets) in *.
    assert (HS : length S0 = k) by apply obj_states_met_length.
    assert (Hn : nth_error S0 (k - S j)
                 = Some (_state (apply_presets o (firstn (k - S j) presets))))
      by (apply obj_states_met_nth; fold k; lia).
    destruct (nth_error_split _ _ Hn) as (l1 & l2 & ES & El1).
    assert (Hl2 : length l2 = j).
    { rewrite ES, length_app in HS. cbn [length] in HS. lia. }
    destruct (obj_undo_times_walk l2 (apply_presets o presets) (pre ++ l1)
                (_state (apply_presets o (firstn (k - S j) presets))) [])
      as (o' & Ho & Hs & _).
    + rewrite Hh, ES, app_nil_r, <- app_assoc. reflexivity.
    + rewrite Hi, Hh, ES. rewrite ?length_app. cbn [length]. rewrite ?length_app. lia.
    + exists o'. rewrite Hl2 in Ho. split; assumption.
Qed.


Lemma obj_apply_presets_app p1 : forall o p2,
  apply_presets o (p1 ++ p2) = apply_presets (apply_presets o p1) p2.
Proof. induction p1 as [|p r IH]; intros o p2; [reflexivity | apply IH]. Qed.

Lemma obj_all_effective_app p1 : forall o p2,
  all_effective o (p1 ++ p2)
  = all_effective o p1 && all_effective (apply_presets o p1) p2.
Proof.
  induction p1 as [|p r IH]; intros o p2; [reflexivity|].
  cbn [app all_effective apply_presets]. now rewrite IH, andb_assoc.
Qed.

Lemma obj_apply_presets_ok presets : forall o,
  history_ok o -> history_ok (apply_presets o presets).
Proof.
  induction presets as [|p r IH]; intros o H; [exact H|].
  cbn [apply_presets]. apply IH. now apply obj_update_with_ok.
Qed.

(** X27.  The undo depth is capped at 50, whatever keys the state and
    the presets carry.  After a run of 50 or more presets, each of which
    changed the state it met, exactly 50 calls of [undo()] succeed: they
    lead back to the state that the run had reached 50 presets before its
    end, and there [canUndo()] is false and a further [undo()] returns
    [false] and changes nothing.  What was before is lost. *)
Theorem undo_depth_is_capped o presets :
  history_ok o ->
  all_effective o presets = true ->
  (50 <= length presets)%nat ->
  exists o',
    undo_times 50 (apply_presets o presets) = Some o'
    /\ _state o' = _state (apply_presets o (firstn (length presets - 50) presets))
    /\ canUndo o' = false
    /\ undo o' = Some (false, o').
Proof.
  intros Hok He Hl.
  set (k := (length presets - 50)%nat).
  fold k. rewrite <- (firstn_skipn k presets) in He.
  set (p1 := firstn k presets) in *. set (p2 := skipn k presets) in *.
  assert (L2 : length p2 = 50%nat) by (subst p2 k; rewrite length_skipn; lia).
  rewrite obj_all_effective_app in He. apply andb_true_iff in He. destruct He as [_ He].
  assert (EA : apply_presets o presets = apply_presets (apply_presets o p1) p2).
  { rewrite <- obj_apply_presets_app. subst p1 p2. now rewrite firstn_skipn. }
  rewrite EA. clear EA.
  set (o1 := apply_presets o p1) in *.
  assert (Hok1 : history_ok o1) by now apply obj_apply_presets_ok.
  assert (Hne : p2 <> []) by (intro E; rewrite E in L2; discriminate).
  destruct (obj_apply_presets_history o1 p2 ltac:(lia) He Hne) as (pre & Hh & Hi).
  pose proof (obj_apply_presets_ok p2 o1 Hok1) as [_ Hcap].
  unfold _maxHistorySize in Hcap.
  pose proof (obj_states_met_length p2 o1) as Hsm.
  assert (Hpre : pre = []).
  { rewrite Hh, length_app, Hsm, L2 in Hcap.
    destruct pre; [reflexivity | cbn [length] in Hcap; lia]. }
  subst pre. cbn [app] in Hh.
  assert (H0 : nth_error (states_met o1 p2) 0 = Some (_state o1))
    by (rewrite obj_states_met_nth by lia; reflexivity).
  destruct (states_met o1 p2) as [|s0 L] eqn:ES; [discriminate H0|].
  injection H0 as ->. cbn [length] in Hsm.
  destruct (obj_undo_times_walk L (apply_presets o1 p2) [] (_state o1) [])
    as (o' & Ho & Hs & Hidx).
  - rewrite Hh, app_nil_r. reflexivity.
  - rewrite Hi, Hh. cbn [length]. lia.
  - exists o'. replace (S (length L)) with 50%nat in Ho by lia.
    split; [exact Ho|]. split; [exact Hs|].
    cbn [length] in Hidx. unfold canUndo, undo. rewrite Hidx.
    split; reflexivity.
Qed.

End Methods.

(** The preset [classic] repeats the default values of the state keys; it
    still counts as a change at the default state, for the state has no
    [name] yet, and so it is recorded in the history.  Applied a second
    time it changes nothing. *)
Lemma classic_preset_is_recorded :
  FractalState.hasChanges FractalState.DEFAULT_STATE
    (FractalState._validateChanges (fst PresetObjects.classic)) = false
  /\ all_effective PresetObjects.fresh [PresetObjects.classic] = true
  /\ _historyIndex (applyPreset PresetObjects.fresh PresetObjects.classic) = 0
  /\ all_effective PresetObjects.fresh [PresetObjects.classic; PresetObjects.classic]
     = false.
Proof. repeat split; vm_compute; reflexivity. Qed.

Lemma undo_unwinds_presets_witness :
  let o := PresetObjects.fresh in
  let presets := [PresetObjects.classic; PresetObjects.burning;
                  PresetObjects.seahorse] in
  exists o',
    undo_times 2 (apply_presets o presets) = Some o'
    /\ _state o' = _state (apply_presets o (firstn (3 - 2) presets)).
Proof.
  intros o presets.
  apply (undo_unwinds_presets o presets 2);
    [vm_compute; reflexivity | cbn; lia | cbn; lia].
Defined.

Lemma undo_depth_is_capped_witness :
  let o := new_FractalState FractalState.DEFAULT_STATE FractalState.no_changes in
  let presets :=
    map (fun i => FractalState.only_maxIter (F64.of_Z (Z.of_nat i + 100))) (seq 0 51) in
  exists o',
    undo_times 50 (apply_presets o presets) = Some o'
    /\ _state o' = _state (apply_presets o (firstn (length presets - 50) presets))
    /\ canUndo o' = false
    /\ undo o' = Some (false, o').
Proof.
  intros o presets.
  apply (undo_depth_is_capped o presets);
    [ unfold history_ok, _maxHistorySize; cbn; lia
    | vm_compute; reflexivity
    | subst presets; rewrite length_map, length_seq; lia ].
Defined.
End ObjectHistoryFacts.

(** ** ControlPanel.js: the bookmark manager *)

Module BookmarkFacts.
Import Ascii String JsNumber FractalState StateRules ValidationFacts BookmarkManager.

Lemma find_app_l {A} (p : A -> bool) l1 l2 :
  find p (l1 ++ l2) = match find p l1 with Some x => Some x | None => find p l2 end.
Proof.
  induction l1 as [|x l1 IH]; [reflexivity|]. cbn [app find].
  destruct (p x); [reflexivity | exact IH].
Qed.

(** X22.  [saveBookmark] appends: the list grows by one and no other id
    is looked up differently.  The new bookmark is found under its id only
    if that id was not in use: if [_generateId()] repeats an id, the older
    bookmark keeps answering for it. *)
Theorem saveBookmark_then_getBookmark state bookmarks generated_id now name description :
  let bookmark := fst (saveBookmark state bookmarks generated_id now name description) in
  let bookmarks' := snd (saveBookmark state bookmarks generated_id now name description) in
  List.length bookmarks' = S (List.length bookmarks)
  /\ bm_id bookmark = generated_id
  /\ getBookmark bookmarks' generated_id
     = match getBookmark bookmarks generated_id with
       | Some older => Some older
       | None => Some bookmark
       end
  /\ forall id, id <> generated_id -> getBookmark bookmarks' id = getBookmark bookmarks id.
Proof.
  cbv zeta. unfold saveBookmark. cbn [fst snd bm_id].
  split; [rewrite length_app; cbn [List.length]; lia|].
  split; [reflexivity|].
  unfold getBookmark. split.
  - rewrite find_app_l. destruct (find _ bookmarks); [reflexivity|].
    cbn [find bm_id]. now rewrite String.eqb_refl.
  - intros id Hid. rewrite find_app_l. destruct (find _ bookmarks); [reflexivity|].
    cbn [find bm_id]. apply not_eq_sym in Hid. apply String.eqb_neq in Hid.
    now rewrite Hid.
Qed.

Lemma findIndex_from_spec (bookmarks : list Bookmark) id : forall i,
  match find (fun b => String.eqb (bm_id b) id) bookmarks with
  | None => findIndex_from (fun b => String.eqb (bm_id b) id) bookmarks i = -1
  | Some _ =>
      0 <= i ->
      exists k,
        findIndex_from (fun b => String.eqb (bm_id b) id) bookmarks i = i + Z.of_nat k
        /\ (k < List.length bookmarks)%nat
        /\ find (fun b => String.eqb (bm_id b) id) (firstn k bookmarks) = None
        /\ option_map bm_id (nth_error bookmarks k) = Some id
  end.
Proof.
  induction bookmarks as [|b rest IH]; intro i; [reflexivity|].
  cbn [find findIndex_from]. destruct (String.eqb (bm_id b) id) eqn:E.
  - intros Hi. exists 0%nat. cbn [firstn find nth_error option_map List.length].
    apply String.eqb_eq in E. repeat split; [lia | lia | now rewrite E].
  - specialize (IH (i + 1)). destruct (find _ rest).
    + intros Hi. destruct (IH ltac:(lia)) as (k & Hk & Hl & Hf & Hn).
      exists (S k). cbn [firstn find nth_error List.length]. rewrite E.
      repeat split; [lia | lia | exact Hf | exact Hn].
    + exact IH.
Qed.

Lemma find_skip_other (bookmarks : list Bookmark) id j k :
  option_map bm_id (nth_error bookmarks k) = Some id -> j <> id ->
  find (fun b => String.eqb (bm_id b) j) (firstn k bookmarks ++ skipn (k + 1) bookmarks)
  = find (fun b => String.eqb (bm_id b) j) bookmarks.
Proof.
  revert k. induction bookmarks as [|b rest IH]; intros k Hk Hj.
  - destruct k; discriminate Hk.
  - destruct k as [|k].
    + cbn [nth_error option_map] in Hk. injection Hk as Hk.
      cbn [firstn Nat.add skipn app find]. rewrite Hk.
      apply not_eq_sym in Hj. apply String.eqb_neq in Hj. now rewrite Hj.
    + cbn [nth_error] in Hk. cbn [firstn Nat.add skipn app find].
      destruct (String.eqb (bm_id b) j); [reflexivity | now apply IH].
Qed.

Lemma find_none_not_in (bookmarks : list Bookmark) id :
  find (fun b => String.eqb (bm_id b) id) bookmarks = None ->
  ~ In id (map bm_id bookmarks).
Proof.
  induction bookmarks as [|b rest IH]; [intros _ []|].
  cbn [find map In]. destruct (String.eqb (bm_id b) id) eqn:E; [discriminate|].
  intros H [H1|H1]; [|now apply IH].
  apply String.eqb_neq in E. contradiction.
Qed.

Lemma not_in_find_none (bookmarks : list Bookmark) id :
  ~ In id (map bm_id bookmarks) ->
  find (fun b => String.eqb (bm_id b) id) bookmarks = None.
Proof.
  induction bookmarks as [|b rest IH]; [reflexivity|].
  cbn [find map In]. intro H. destruct (String.eqb (bm_id b) id) eqn:E.
  - apply String.eqb_eq in E. exfalso. apply H. now left.
  - apply IH. intro H1. apply H. now right.
Qed.

(** X23.  [deleteBookmark] removes the first bookmark that carries the id,
    and nothing else: it returns [false] and leaves the list alone exactly
    when [getBookmark] finds nothing; otherwise the list is one shorter and
    every other id is looked up as before.  When the ids of the list are
    distinct the deleted id is no longer found. *)
Theorem deleteBookmark_removes_first_match bookmarks id :
  let ok := fst (deleteBookmark bookmarks id) in
  let bookmarks' := snd (deleteBookmark bookmarks id) in
  ok = is_some (getBookmark bookmarks id)
  /\ (if ok then S (List.length bookmarks') = List.length bookmarks
      else bookmarks' = bookmarks)
  /\ (forall j, j <> id -> getBookmark bookmarks' j = getBookmark bookmarks j)
  /\ (NoDup (map bm_id bookmarks) -> getBookmark bookmarks' id = None).
Proof.
  cbv zeta. unfold deleteBookmark, getBookmark.
  pose proof (findIndex_from_spec bookmarks id 0) as S0.
  destruct (find (fun b => String.eqb (bm_id b) id) bookmarks) as [b|] eqn:F.
  - destruct (S0 ltac:(lia)) as (k & Hk & Hl & Hf & Hn). rewrite Hk.
    replace (0 + Z.of_nat k =? -1) with false by (symmetry; apply Z.eqb_neq; lia).
    cbn [fst snd is_some]. unfold splice_one.
    replace (Z.to_nat (0 + Z.of_nat k)) with k by lia.
    split; [reflexivity|]. split; [|split].
    + rewrite length_app, length_firstn, length_skipn. lia.
    + intros j Hj. now apply (find_skip_other bookmarks id j k).
    + intro ND. rewrite find_app_l, Hf.
      rewrite <- (firstn_skipn k bookmarks) in ND.
      rewrite map_app in ND.
      assert (Hs : exists b' rest, skipn k bookmarks = b' :: rest /\ bm_id b' = id).
      { destruct (nth_error bookmarks k) as [b'|] eqn:En; [|discriminate Hn].
        injection Hn as Hn. exists b', (skipn (S k) bookmarks). split; [|exact Hn].
        clear - En. revert k En. induction bookmarks as [|x l IH]; intros [|k] En;
          try discriminate.
        - injection En as ->. reflexivity.
        - cbn [nth_error] in En. cbn [skipn]. now apply IH. }
      destruct Hs as (b' & rest & Hs & Hb).
      assert (Hr : skipn (k + 1) bookmarks = rest).
      { replace (k + 1)%nat with (1 + k)%nat by lia.
        rewrite <- skipn_skipn, Hs. reflexivity. }
      rewrite Hr. rewrite Hs in ND. cbn [map] in ND.
      apply NoDup_remove_2 in ND. apply not_in_find_none.
      intro Hin. apply ND. apply in_or_app. right. now rewrite Hb.
  - rewrite S0. cbn [fst snd is_some]. repeat split; try reflexivity.
    intros _. exact F.
Qed.

Lemma rename_found_ids bookmarks id newName :
  map bm_id (rename_found bookmarks id newName) = map bm_id bookmarks.
Proof.
  induction bookmarks as [|b rest IH]; [reflexivity|].
  cbn [rename_found]. destruct (String.eqb (bm_id b) id); cbn [map with_name bm_id];
    [reflexivity | now rewrite IH].
Qed.

(** X24.  [renameBookmark] writes the name of the bookmark that
    [getBookmark] finds and nothing else: the ids and their order stay, every
    other id is looked up as before, and the id itself now gives the same
    bookmark under the new name.  For an unknown id it returns [false] and
    the list is unchanged. *)
Theorem renameBookmark_changes_only_the_name bookmarks id newName :
  let ok := fst (renameBookmark bookmarks id newName) in
  let bookmarks' := snd (renameBookmark bookmarks id newName) in
  ok = is_some (getBookmark bookmarks id)
  /\ map bm_id bookmarks' = map bm_id bookmarks
  /\ (forall j, j <> id -> getBookmark bookmarks' j = getBookmark bookmarks j)
  /\ match getBookmark bookmarks id with
     | Some bookmark => getBookmark bookmarks' id = Some (with_name bookmark newName)
     | None => bookmarks' = bookmarks
     end.
Proof.
  cbv zeta. unfold renameBookmark.
  destruct (getBookmark bookmarks id) as [b|] eqn:F; cbn [fst snd is_some].
  - split; [reflexivity|]. split; [apply rename_found_ids|]. split.
    + intros j Hj. unfold getBookmark. clear F.
      induction bookmarks as [|x rest IH]; [reflexivity|].
      cbn [rename_found]. destruct (String.eqb (bm_id x) id) eqn:E.
      * cbn [find with_name bm_id]. apply String.eqb_eq in E.
        apply not_eq_sym in Hj. rewrite E. apply String.eqb_neq in Hj.
        now rewrite Hj.
      * cbn [find]. destruct (String.eqb (bm_id x) j); [reflexivity | exact IH].
    + unfold getBookmark in *. revert F.
      induction bookmarks as [|x rest IH]; [discriminate|].
      cbn [rename_found find]. destruct (String.eqb (bm_id x) id) eqn:E.
      * intros [= <-]. cbn [find with_name bm_id]. now rewrite E.
      * intro F. cbn [find]. rewrite E. now apply IH.
  - repeat split; reflexivity.
Qed.

(** *** Loading what was saved *)

Lemma same_number_refl x : same_number x x.
Proof. now left. Qed.

Lemma coloringMode_unchanged s v n :
  hasChanges s v = false -> ch_coloringMode v = Some n ->
  exists o, coloringMode s = Some o /\ F64.eqb o n = true.
Proof.
  unfold hasChanges. intros H Hn.
  apply orb_false_iff in H. destruct H as [_ H]. rewrite Hn in H.
  destruct (coloringMode s) as [o|]; [|discriminate].
  exists o. split; [reflexivity|]. unfold Js.strict_neq in H.
  now apply negb_false_iff in H.
Qed.

(** X25.  Loading restores what was saved, through the validation of
    [update].  After [saveBookmark] under an id that was not in use,
    [loadBookmark] of that id, from any later state and with any other
    bookmarks added since, returns [true], leaves the undo history alone and
    leaves a state whose [centerX], [centerY], [burningShip] and [juliaMode]
    are those of the saved state, whose [zoom], [power], [maxIter],
    [numberBase] and [colorScheme] are the saved values as [_validateChanges]
    constrains them, and whose [coloringMode] is the saved one or 0;
    [colorOffset], [width] and [height] are not part of a bookmark and stay
    as they are. *)
Theorem loadBookmark_restores_saved_view saved bookmarks generated_id now name
    description later o :
  getBookmark bookmarks generated_id = None ->
  let bookmarks' :=
    snd (saveBookmark saved bookmarks generated_id now name description) ++ later in
  let ok := fst (loadBookmark o bookmarks' generated_id) in
  let o' := snd (loadBookmark o bookmarks' generated_id) in
  let s := History._state o in
  let s' := History._state o' in
  ok = true
  /\ History._history o' = History._history o
  /\ History._historyIndex o' = History._historyIndex o
  /\ same_number (centerX s') (centerX saved)
  /\ same_number (centerY s') (centerY saved)
  /\ same_number (zoom s') (clamp (F64.of_decimal 1 1) (F64.of_Z (10 ^ 15)) (zoom saved))
  /\ same_number (power s') (clamp (F64.of_Z 1) (F64.of_Z 12) (power saved))
  /\ same_number (maxIter s')
       (clamp (F64.of_Z 10) (F64.of_Z 10000) (Js.Math_floor (maxIter saved)))
  /\ same_number (numberBase s')
       (clamp (F64.of_Z 2) (F64.of_Z 60) (Js.Math_floor (numberBase saved)))
  /\ same_number (colorScheme s')
       (clamp (F64.of_Z 0) (F64.of_Z 7) (Js.Math_floor (colorScheme saved)))
  /\ burningShip s' = burningShip saved
  /\ juliaMode s' = juliaMode saved
  /\ match juliaC saved with
     | [a; b] => Forall2 same_number (juliaC s') [a; b]
     | _ => juliaC s' = juliaC s
     end
  /\ (exists m, coloringMode s' = Some m
                /\ same_number m (WebGLRenderer.or_zero (coloringMode saved)))
  /\ colorOffset s' = colorOffset s
  /\ width s' = width s
  /\ height s' = height s.
Proof.
  intros Hfresh bookmarks' ok o' s s'.
  set (b := fst (saveBookmark saved bookmarks generated_id now name description)).
  assert (Hget : getBookmark bookmarks' generated_id = Some b).
  { subst bookmarks'. unfold getBookmark in *. unfold saveBookmark. cbn [snd].
    rewrite !find_app_l, Hfresh. cbn [find bm_id]. now rewrite String.eqb_refl. }
  assert (Ho : loadBookmark o bookmarks' generated_id
               = (true, History.update_with o (bookmark_changes b) false)).
  { unfold loadBookmark. now rewrite Hget. }
  subst ok s' o'. rewrite Ho. cbn [fst snd].
  unfold History.update_with. cbv zeta. fold s.
  remember (_validateChanges (bookmark_changes b)) as v eqn:Hv.
  unfold _validateChanges, bookmark_changes in Hv.
  cbn [ch_centerX ch_centerY ch_zoom ch_power ch_maxIter ch_numberBase ch_colorScheme
       ch_colorOffset ch_burningShip ch_juliaMode ch_juliaC ch_width ch_height
       ch_coloringMode option_map] in Hv.
  subst b. unfold saveBookmark in Hv.
  cbn [fst bm_centerX bm_centerY bm_zoom bm_power bm_maxIter bm_numberBase
       bm_colorScheme bm_burningShip bm_juliaMode bm_juliaC bm_coloringMode] in Hv.
  destruct (hasChanges s v) eqn:E.
  - cbn [History._state History._history History._historyIndex].
    split; [reflexivity|]. split; [reflexivity|]. split; [reflexivity|].
    unfold merge.
    cbn [centerX centerY zoom power maxIter numberBase colorScheme colorOffset
         burningShip juliaMode juliaC width height coloringMode].
    rewrite Hv.
    cbn [ch_centerX ch_centerY ch_zoom ch_power ch_maxIter ch_numberBase ch_colorScheme
         ch_colorOffset ch_burningShip ch_juliaMode ch_juliaC ch_width ch_height
         ch_coloringMode over].
    repeat (split; [first [apply same_number_refl | reflexivity]|]).
    split.
    + destruct (juliaC saved) as [|a [|b0 [|c0 l]]]; cbn [over]; try reflexivity.
      repeat constructor.
    + split; [|repeat split; reflexivity].
      eexists. split; [reflexivity | apply same_number_refl].
  - split; [reflexivity|]. split; [reflexivity|]. split; [reflexivity|].
    pose proof (coloringMode_unchanged s v _ E
                  ltac:(rewrite Hv; cbn [ch_coloringMode]; reflexivity)) as Hc.
    apply hasChanges_false in E.
    destruct E as (H1 & H2 & H3 & H4 & H5 & H6 & H7 & H8 & H9 & H10 & H11 & H12 & H13).
    rewrite Hv in H1, H2, H3, H4, H5, H6, H7, H9, H10, H11. clear Hv.
    revert H11.
    cbn [ch_centerX ch_centerY ch_zoom ch_power ch_maxIter ch_numberBase ch_colorScheme
         ch_colorOffset ch_burningShip ch_juliaMode ch_juliaC ch_width ch_height
         ch_coloringMode] in H1, H2, H3, H4, H5, H6, H7, H9, H10.
    cbn [ch_juliaC]. intro H11.
    repeat (split; [right; now apply num_differs_false|]).
    split.
    { unfold bool_differs in H9. apply negb_false_iff in H9.
      now apply Bool.eqb_prop in H9. }
    split.
    { unfold bool_differs in H10. apply negb_false_iff in H10.
      now apply Bool.eqb_prop in H10. }
    split.
    { revert H11. destruct (juliaC saved) as [|a [|b0 [|c0 l]]]; intro H11;
        try reflexivity.
      unfold array_differs in H11. apply orb_false_iff in H11.
      destruct H11 as [Hl Hd]. apply negb_false_iff, Nat.eqb_eq in Hl.
      apply some_differs_false in Hd; [|exact Hl].
      eapply Forall2_impl; [|exact Hd]. intros x y Hxy. now right. }
    split.
    { destruct Hc as (m & Hm & Em). exists m. split; [exact Hm | now right]. }
    repeat split; reflexivity.
Qed.

Lemma loadBookmark_restores_saved_view_witness :
  let saved := WebGLRenderer.with_view (F64.of_Z 2000000) (F64.of_Z 2) in
  let o := History.new_FractalState no_changes in
  let bookmarks' := snd (saveBookmark saved [] "bm_1" "2024" "deep" EmptyString) in
  fst (loadBookmark o bookmarks' "bm_1") = true
  /\ same_number (zoom (History._state (snd (loadBookmark o bookmarks' "bm_1"))))
       (clamp (F64.of_decimal 1 1) (F64.of_Z (10 ^ 15)) (zoom saved)).
Proof.
  intros saved o bookmarks'.
  pose proof (loadBookmark_restores_saved_view saved [] "bm_1" "2024" "deep"
                EmptyString [] o eq_refl) as H.
  cbv zeta in H. rewrite app_nil_r in H.
  destruct H as (H1 & _ & _ & _ & _ & H6 & _). split; [exact H1 | exact H6].
Defined.
End BookmarkFacts.

(** ** ComplexMath.js: the iteration and the screen mapping *)

Module IterationFacts.
Import JsNumber ComplexMath ComplexMathOps.
Section WithMath.
Variable M : JsMath.

Lemma mandelbrot_loop_some opts power constant n i z k :
  mandelbrot_loop M opts power constant n i z = Some k -> (i <= k < i + n)%nat.
Proof.
  revert i z. induction n as [|n IH]; intros i z; cbn [mandelbrot_loop]; [discriminate|].
  destruct (mandelbrot_step M opts power constant z) as [z' esc].
  destruct esc.
  - intros [= <-]. lia.
  - intro H. apply IH in H. lia.
Qed.

Lemma mandelbrot_loop_more opts power constant n d i z k :
  mandelbrot_loop M opts power constant n i z = Some k ->
  mandelbrot_loop M opts power constant (n + d) i z = Some k.
Proof.
  revert i z. induction n as [|n IH]; intros i z; cbn [mandelbrot_loop Nat.add];
    [discriminate|].
  destruct (mandelbrot_step M opts power constant z) as [z' esc].
  destruct esc; [trivial | apply IH].
Qed.

Lemma mandelbrot_loop_less opts power constant n d i z k :
  mandelbrot_loop M opts power constant (n + d) i z = Some k ->
  (k < i + n)%nat ->
  mandelbrot_loop M opts power constant n i z = Some k.
Proof.
  revert i z. induction n as [|n IH]; intros i z; cbn [mandelbrot_loop Nat.add].
  - intros H Hk. apply mandelbrot_loop_some in H. lia.
  - destruct (mandelbrot_step M opts power constant z) as [z' esc].
    destruct esc; [trivial|]. intros H Hk. apply IH; [exact H | lia].
Qed.

Lemma mandelbrot_loop_none opts power constant n d i z :
  mandelbrot_loop M opts power constant (n + d) i z = None ->
  mandelbrot_loop M opts power constant n i z = None.
Proof.
  destruct (mandelbrot_loop M opts power constant n i z) as [k|] eqn:E; [|trivial].
  rewrite (mandelbrot_loop_more _ _ _ _ d _ _ _ E). discriminate.
Qed.

(** X8.  The cap only cuts the count: under a cap [n] [mandelbrotIteration]
    returns what it returns under any larger cap [n'], cut at [n].  An
    escape seen under one cap is seen, at the same step, under every
    larger one. *)
Theorem cap_truncates_count c power opts (n n' : nat) :
  (n <= n')%nat ->
  mandelbrotIteration M c n power opts
  = Nat.min n (mandelbrotIteration M c n' power opts).
Proof.
  intro Hle. replace n' with (n + (n' - n))%nat by lia.
  unfold mandelbrotIteration.
  set (z0 := if juliaMode opts then c else (F64.zero, F64.zero)).
  set (k0 := if juliaMode opts then juliaC opts else c).
  destruct (mandelbrot_loop M opts power k0 (n + (n' - n)) 0 z0) as [k|] eqn:E.
  - destruct (Nat.lt_ge_cases k n) as [Hk|Hk].
    + rewrite (mandelbrot_loop_less _ _ _ _ _ _ _ _ E) by lia. lia.
    + destruct (mandelbrot_loop M opts power k0 n 0 z0) as [k'|] eqn:E'.
      * pose proof (mandelbrot_loop_more _ _ _ _ (n' - n)%nat _ _ _ E') as E2.
        rewrite E in E2. injection E2 as <-.
        apply mandelbrot_loop_some in E'. lia.
      * lia.
  - rewrite (mandelbrot_loop_none _ _ _ _ _ _ _ E). lia.
Qed.

Lemma complexPower_origin power :
  complexPower M (F64.zero, F64.zero) power = (F64.zero, F64.zero).
Proof.
  unfold complexPower. destruct (F64.ltb _ lit_0_01); vm_compute; reflexivity.
Qed.

Lemma square_after_add_zero x :
  F64.mul (F64.add F64.zero x) (F64.add F64.zero x) = F64.mul x x.
Proof. destruct x as [[|]|[|]| |s m e]; reflexivity. Qed.

Lemma first_iterate opts power c :
  mandelbrot_step M opts power c (F64.zero, F64.zero)
  = (complexAdd (F64.zero, F64.zero) c, F64.gtb (magnitudeSquared c) lit_4).
Proof.
  unfold mandelbrot_step.
  assert (E : (if burningShip opts
               then (F64.abs (fst (F64.zero, F64.zero)), F64.abs (snd (F64.zero, F64.zero)))
               else (F64.zero, F64.zero)) = (F64.zero, F64.zero))
    by (destruct (burningShip opts); reflexivity).
  rewrite E, complexPower_origin. f_equal.
  unfold magnitudeSquared, complexAdd. cbn [fst snd].
  now rewrite !square_after_add_zero.
Qed.

(** X9.  Outside Julia mode and for a cap of at least 1, the count is 0
    exactly when [|c|^2 > 4] in floating point: the first iterate is [c]
    itself, whatever the power and the Burning Ship switch are. *)
Theorem immediate_escape_iff c maxIter power opts :
  juliaMode opts = false -> (1 <= maxIter)%nat ->
  mandelbrotIteration M c maxIter power opts = 0%nat
  <-> F64.gtb (magnitudeSquared c) lit_4 = true.
Proof.
  intros Hj Hn. unfold mandelbrotIteration. rewrite Hj.
  destruct maxIter as [|n]; [lia|]. cbn [mandelbrot_loop].
  rewrite first_iterate.
  destruct (F64.gtb (magnitudeSquared c) lit_4).
  - split; reflexivity.
  - split; [|discriminate].
    destruct (mandelbrot_loop M opts power c n 1 _) as [k|] eqn:E.
    + apply mandelbrot_loop_some in E. lia.
    + discriminate.
Qed.

Lemma is_nan_eq x : is_nan x = true -> x = S754_nan.
Proof. destruct x; try discriminate; reflexivity. Qed.

Lemma mul_nan_l x : F64.mul S754_nan x = S754_nan.
Proof. reflexivity. Qed.
Lemma mul_nan_r x : F64.mul x S754_nan = S754_nan.
Proof. destruct x; reflexivity. Qed.
Lemma add_nan_l x : F64.add S754_nan x = S754_nan.
Proof. reflexivity. Qed.
Lemma add_nan_r x : F64.add x S754_nan = S754_nan.
Proof. destruct x; reflexivity. Qed.
Lemma sub_nan_l x : F64.sub S754_nan x = S754_nan.
Proof. reflexivity. Qed.
Lemma sub_nan_r x : F64.sub x S754_nan = S754_nan.
Proof. destruct x; reflexivity. Qed.

Lemma magnitudeSquared_nan z : has_nan z = true -> magnitudeSquared z = S754_nan.
Proof.
  unfold has_nan, magnitudeSquared. destruct z as [x y]. cbn [fst snd].
  intro H. apply orb_true_iff in H. destruct H as [H|H]; apply is_nan_eq in H; subst.
  - reflexivity.
  - rewrite mul_nan_r. apply add_nan_r.
Qed.

Lemma square_nan power z :
  F64.ltb (F64.abs (F64.sub power lit_2)) lit_0_01 = true ->
  has_nan z = true -> fst (complexPower M z power) = S754_nan.
Proof.
  intros Hp. unfold has_nan, complexPower. destruct z as [x y]. rewrite Hp.
  cbn [fst snd]. intro H. apply orb_true_iff in H.
  destruct H as [H|H]; apply is_nan_eq in H; subst.
  - reflexivity.
  - rewrite mul_nan_r. apply sub_nan_r.
Qed.

Lemma nan_step opts power constant z :
  F64.ltb (F64.abs (F64.sub power lit_2)) lit_0_01 = true ->
  has_nan z || has_nan constant = true ->
  has_nan (fst (mandelbrot_step M opts power constant z)) = true
  /\ snd (mandelbrot_step M opts power constant z) = false.
Proof.
  intros Hp H. unfold mandelbrot_step. cbn [fst snd].
  set (z1 := if burningShip opts then (F64.abs (fst z), F64.abs (snd z)) else z).
  assert (Hz1 : has_nan z1 = has_nan z).
  { subst z1. destruct (burningShip opts); [|reflexivity].
    destruct z as [[| | |] [| | |]]; reflexivity. }
  assert (Hn : has_nan (complexAdd (complexPower M z1 power) constant) = true).
  { apply orb_true_iff in H. destruct H as [H|H].
    - unfold has_nan, complexAdd. cbn [fst snd].
      rewrite (square_nan power z1 Hp) by (now rewrite Hz1). reflexivity.
    - unfold has_nan in *. unfold complexAdd. cbn [fst snd].
      apply orb_true_iff in H. destruct H as [H|H]; apply is_nan_eq in H; rewrite H.
      + rewrite add_nan_r. reflexivity.
      + rewrite add_nan_r. apply orb_true_r. }
  split; [exact Hn|]. now rewrite (magnitudeSquared_nan _ Hn).
Qed.

Lemma nan_loop opts power constant n i z :
  F64.ltb (F64.abs (F64.sub power lit_2)) lit_0_01 = true ->
  has_nan z || has_nan constant = true ->
  mandelbrot_loop M opts power constant n i z = None.
Proof.
  intros Hp. revert i z. induction n as [|n IH]; intros i z H; [reflexivity|].
  cbn [mandelbrot_loop].
  destruct (nan_step opts power constant z Hp H) as [H1 H2].
  destruct (mandelbrot_step M opts power constant z) as [z' esc].
  cbn [fst snd] in H1, H2. subst esc. apply IH. now rewrite H1.
Qed.

(** X10.  A point with a NaN coordinate is never reported as escaped: for
    power 2 the count is the cap, so an invalid point is classified as
    inside the set. *)
Theorem nan_point_never_escapes c maxIter power opts :
  F64.ltb (F64.abs (F64.sub power lit_2)) lit_0_01 = true ->
  has_nan c = true ->
  mandelbrotIteration M c maxIter power opts = maxIter.
Proof.
  intros Hp Hc. unfold mandelbrotIteration.
  rewrite nan_loop; [reflexivity | exact Hp |].
  destruct (juliaMode opts); [now rewrite Hc | now rewrite Hc, orb_true_r].
Qed.

Lemma gt_256_gt_4 x : F64.gtb x lit_256 = true -> F64.gtb x lit_4 = true.
Proof.
  unfold F64.gtb, F64.ltb, SFltb.
  change lit_256 with (S754_finite false 4503599627370496 (-44)).
  change lit_4 with (S754_finite false 4503599627370496 (-50)).
  destruct x as [s|[|]| |[|] m e]; cbn -[Z.compare Pos.compare_cont];
    try discriminate; try reflexivity.
  destruct (Z.compare_spec (-44) e) as [E|E|E]; try discriminate.
  - subst e. trivial.
  - intros _. destruct (Z.compare_spec (-50) e); try reflexivity; lia.
Qed.

Lemma inside_loops power c n i i' z :
  mandelbrot_loop M default_options power c n i z = None ->
  smooth_loop M power c n i' z = None.
Proof.
  revert i i' z. induction n as [|n IH]; intros i i' z; [reflexivity|].
  cbn [mandelbrot_loop smooth_loop]. unfold mandelbrot_step.
  cbn [burningShip default_options].
  destruct (F64.gtb (magnitudeSquared (complexAdd (complexPower M z power) c)) lit_4) eqn:E4.
  - discriminate.
  - destruct (F64.gtb _ lit_256) eqn:E256.
    + apply gt_256_gt_4 in E256. congruence.
    + apply IH.
Qed.

(** X11.  When [mandelbrotIteration] (default options) reports the cap for
    a point, [smoothIteration] returns the cap too: its larger escape radius
    (256 for 4) cannot make a point escape that the plain count keeps. *)
Theorem inside_for_plain_inside_for_smooth c maxIter power :
  mandelbrotIteration M c maxIter power default_options = maxIter ->
  smoothIteration M c maxIter power = F64.of_Z (Z.of_nat maxIter).
Proof.
  unfold mandelbrotIteration, smoothIteration. cbn [juliaMode default_options].
  destruct (mandelbrot_loop M default_options power c maxIter 0 _) as [k|] eqn:E.
  - intro Hk. apply mandelbrot_loop_some in E. lia.
  - intros _. now rewrite (inside_loops _ _ _ _ 0%nat _ E).
Qed.

End WithMath.

Lemma cap_truncates_count_witness :
  let M := {| Math_log := fun x => x; Math_atan2 := fun x _ => x;
              Math_pow := fun x _ => x; Math_cos := fun x => x;
              Math_sin := fun x => x |} in
  (3 <= 40)%nat
  /\ mandelbrotIteration M fixture_c 3 lit_2 default_options
     = Nat.min 3 (mandelbrotIteration M fixture_c 40 lit_2 default_options).
Proof.
  intro M. split; [lia|]. apply (cap_truncates_count M); lia.
Defined.

Lemma immediate_escape_iff_witness :
  let M := {| Math_log := fun x => x; Math_atan2 := fun x _ => x;
              Math_pow := fun x _ => x; Math_cos := fun x => x;
              Math_sin := fun x => x |} in
  mandelbrotIteration M (point 3 0) 100 lit_2 default_options = 0%nat
  <-> F64.gtb (magnitudeSquared (point 3 0)) lit_4 = true.
Proof.
  intro M. apply (immediate_escape_iff M); [reflexivity | lia].
Defined.

Lemma nan_point_never_escapes_witness :
  let M := {| Math_log := fun x => x; Math_atan2 := fun x _ => x;
              Math_pow := fun x _ => x; Math_cos := fun x => x;
              Math_sin := fun x => x |} in
  mandelbrotIteration M (S754_nan, F64.zero) 256 lit_2 default_options = 256%nat.
Proof.
  intro M. apply (nan_point_never_escapes M); reflexivity.
Defined.

Lemma inside_for_plain_inside_for_smooth_witness :
  let M := {| Math_log := fun x => x; Math_atan2 := fun x _ => x;
              Math_pow := fun x _ => x; Math_cos := fun x => x;
              Math_sin := fun x => x |} in
  mandelbrotIteration M (point 0 0) 25 lit_2 default_options = 25%nat
  /\ smoothIteration M (point 0 0) 25 lit_2 = F64.of_Z (Z.of_nat 25).
Proof.
  intro M.
  assert (H : mandelbrotIteration M (point 0 0) 25 lit_2 default_options = 25%nat)
    by (vm_compute; reflexivity).
  split; [exact H|]. exact (inside_for_plain_inside_for_smooth M _ _ _ H).
Defined.

Lemma SFmul_comm prec emax x y : SFmul prec emax x y = SFmul prec emax y x.
Proof.
  destruct x as [sx|sx| |sx mx ex], y as [sy|sy| |sy my ey]; cbn [SFmul];
    try reflexivity; try (now rewrite xorb_comm).
  now rewrite xorb_comm, Pos.mul_comm, Z.add_comm.
Qed.

Lemma SFadd_comm prec emax x y : SFadd prec emax x y = SFadd prec emax y x.
Proof.
  destruct x as [[|]|[|]| |sx mx ex], y as [[|]|[|]| |sy my ey]; cbn [SFadd];
    try reflexivity.
  cbv zeta. now rewrite Z.min_comm, Z.add_comm.
Qed.

(** X12.  [complexMultiply] and [complexAdd] are commutative on floating
    point numbers, bit for bit, for all operands (infinities and NaN
    included). *)
Theorem complex_operations_commute a b :
  complexMultiply a b = complexMultiply b a /\ complexAdd a b = complexAdd b a.
Proof.
  unfold complexMultiply, complexAdd, F64.mul, F64.add, F64.sub. split.
  - f_equal.
    + now rewrite (SFmul_comm _ _ (fst a)), (SFmul_comm _ _ (snd a)).
    + rewrite SFadd_comm. now rewrite (SFmul_comm _ _ (fst a)), (SFmul_comm _ _ (snd a)).
  - f_equal; apply SFadd_comm.
Qed.

Lemma sub_self_finite x : is_finite x = true -> F64.sub x x = F64.zero.
Proof.
  destruct x as [[|]|[|]| |s m e]; try discriminate; try reflexivity.
  intros _. unfold F64.sub, SFsub. rewrite Z.sub_diag. reflexivity.
Qed.

Lemma centre_offset d w :
  is_nonzero d = true ->
  F64.mul (F64.add (F64.div (F64.div F64.zero d) lit_2) lit_0_5) w = F64.mul lit_0_5 w.
Proof.
  destruct d as [sd|[|]| |[|] md ed]; try discriminate; intros _; reflexivity.
Qed.

(** X13.  [complexToScreen] sends the centre of the view to the centre of
    the canvas, [(0.5 * width, 0.5 * height)], whenever the centre is finite
    and the two divisors ([aspectRatio * scale] and [scale]) are neither
    zero nor NaN. *)
Theorem view_centre_maps_to_canvas_centre vp :
  is_finite (vp_centerX vp) = true -> is_finite (vp_centerY vp) = true ->
  let aspectRatio := F64.div (vp_width vp) (vp_height vp) in
  let scale := F64.div lit_2 (vp_zoom vp) in
  is_nonzero (F64.mul aspectRatio scale) = true -> is_nonzero scale = true ->
  complexToScreen (vp_centerX vp) (vp_centerY vp) vp
  = (F64.mul lit_0_5 (vp_width vp), F64.mul lit_0_5 (vp_height vp)).
Proof.
  intros Hx Hy aspectRatio scale Ha Hs. unfold complexToScreen.
  fold aspectRatio scale. rewrite !sub_self_finite by assumption.
  now rewrite !centre_offset by assumption.
Qed.

Lemma view_centre_maps_to_canvas_centre_witness :
  let vp := {| vp_width := F64.of_Z 1200; vp_height := F64.of_Z 900;
               vp_centerX := F64.of_dyadic (-1) (-1); vp_centerY := F64.zero;
               vp_zoom := F64.of_Z 1 |} in
  complexToScreen (vp_centerX vp) (vp_centerY vp) vp = (F64.of_Z 600, F64.of_Z 450).
Proof.
  intro vp.
  exact (view_centre_maps_to_canvas_centre vp eq_refl eq_refl eq_refl eq_refl).
Defined.
End IterationFacts.

(** ** shaders.js: the deep-zoom constant and the interior test *)

Module ShaderInteriorFacts.
Import Rounding RoundingFacts FloatValue SpecFloatFacts BinaryRoundFacts CompareFacts.
Import DoubleDoubleFacts ShaderFacts Shader ShaderInterior.

(** Rounding a finite number into a format gives a well-formed number. *)
Lemma binary_round_valid prec emax s m e :
  0 < prec -> prec < emax ->
  valid_binary prec emax (binary_round prec emax s m e) = true.
Proof.
  intros Hprec Hemax. unfold binary_round.
  pose proof (shl_align_spec m e (fexp prec emax (Zpos (digits2_pos m) + e))) as Hsh.
  destruct (shl_align m e _) as [mz ez]. destruct Hsh as [Hez Hmz].
  assert (Hd : Zpos (digits2_pos mz) + ez = Zpos (digits2_pos m) + e).
  { rewrite !digits2_pos_log2, Hmz, Z.log2_mul_pow2 by lia. lia. }
  apply (binary_round_aux_gen prec emax Hprec Hemax s mz ez).
  rewrite Hd. lia.
Qed.

Lemma of_F64_valid x : F64.valid x = true -> F32.valid (F32.of_F64 x) = true.
Proof.
  destruct x as [s|s| |s m e]; try reflexivity. intros _.
  apply binary_round_valid; reflexivity.
Qed.

Lemma add_error_zero_r x : (add_error x F32.zero == 0)%Q.
Proof.
  unfold add_error. destruct x as [[|]|[|]| |s m e]; cbn; ring.
Qed.

(** [ddAdd] on two numbers that are single floats (low words 0.0) is
    exact. *)
Lemma ddAdd_of_floats a b :
  F32.valid a = true -> F32.valid b = true ->
  is_finite (snd (ddAdd (ddFromFloat a) (ddFromFloat b))) = true ->
  (ddValue (ddAdd (ddFromFloat a) (ddFromFloat b)) == SF2Q a + SF2Q b)%Q.
Proof.
  intros Va Vb Hf.
  assert (Vz : F32.valid F32.zero = true) by reflexivity.
  pose proof (ddAdd_accounting (ddFromFloat a) (ddFromFloat b)
                (conj Va Vz) (conj Vb Vz) Hf) as H.
  cbv zeta in H. unfold ddFromFloat in *. cbn [fst snd] in H.
  change (twoSum F32.zero F32.zero) with (F32.zero, F32.zero) in H.
  cbn [fst snd] in H. rewrite !add_error_zero_r in H.
  rewrite H. unfold ddValue. cbn [fst snd]. cbn [SF2Q F32.zero]. ring.
Qed.


Section WithMath.
Variable G : GlslMath.

(** X14.  On the deep-zoom path the constant [c] is exactly the uploaded
    centre plus the pixel offset: the low words [u_centerLow] that
    [updateUniforms] uploads are 0.0, and [ddAdd] on two single floats is
    exact. *)
Theorem deep_zoom_constant_is_exact st fragCoord :
  let u := WebGLRenderer.updateUniforms st in
  let uv := pixel_uv u fragCoord in
  let uvScale := F32.div F32.two (u_zoom u) in
  let cxDD := fst (dd_constant u fragCoord) in
  let cyDD := snd (dd_constant u fragCoord) in
  F64.valid (FractalState.centerX st) = true ->
  F64.valid (FractalState.centerY st) = true ->
  is_finite (FractalState.centerX st) = true ->
  is_finite (FractalState.centerY st) = true ->
  F32.valid (F32.mul (fst uv) uvScale) = true ->
  F32.valid (F32.mul (snd uv) uvScale) = true ->
  is_finite (snd cxDD) = true -> is_finite (snd cyDD) = true ->
  u_centerLow u = (F32.zero, F32.zero)
  /\ (ddValue cxDD == SF2Q (fst (u_center u)) + SF2Q (F32.mul (fst uv) uvScale))%Q
  /\ (ddValue cyDD == SF2Q (snd (u_center u)) + SF2Q (F32.mul (snd uv) uvScale))%Q.
Proof.
  intros u uv uvScale cxDD cyDD Vx Vy Fx Fy Vox Voy.
  assert (Hlow : u_centerLow u = (F32.zero, F32.zero)).
  { subst u. unfold WebGLRenderer.updateUniforms, WebGLRenderer.splitDouble.
    cbn [u_centerLow].
    rewrite (RendererFacts.sub_self (FractalState.centerX st)), Fx.
    rewrite (RendererFacts.sub_self (FractalState.centerY st)), Fy. reflexivity. }
  assert (Hcx : F32.valid (fst (u_center u)) = true).
  { subst u. unfold WebGLRenderer.updateUniforms, WebGLRenderer.splitDouble.
    cbn [u_center fst]. now apply of_F64_valid. }
  assert (Hcy : F32.valid (snd (u_center u)) = true).
  { subst u. unfold WebGLRenderer.updateUniforms, WebGLRenderer.splitDouble.
    cbn [u_center snd]. now apply of_F64_valid. }
  assert (Ex : cxDD = ddAdd (ddFromFloat (fst (u_center u)))
                            (ddFromFloat (F32.mul (fst uv) uvScale))).
  { subst cxDD. unfold dd_constant. cbn [fst]. fold uv uvScale.
    rewrite Hlow. reflexivity. }
  assert (Ey : cyDD = ddAdd (ddFromFloat (snd (u_center u)))
                            (ddFromFloat (F32.mul (snd uv) uvScale))).
  { subst cyDD. unfold dd_constant. cbn [snd]. fold uv uvScale.
    rewrite Hlow. reflexivity. }
  clearbody cxDD cyDD. subst cxDD cyDD.
  remember (F32.mul (fst uv) uvScale) as ox eqn:Eox.
  remember (F32.mul (snd uv) uvScale) as oy eqn:Eoy.
  remember (u_center u) as ctr eqn:Ec.
  clear Eox Eoy Ec. intros Hfx Hfy.
  split; [exact Hlow|]. split; now apply ddAdd_of_floats.
Qed.

(** *** The count a pixel that does not escape is left with *)

Lemma run_loop_not_escaped body maxIter fuel i v :
  exit_by (run_loop body maxIter fuel i v) <> Escaped ->
  (steps (run_loop body maxIter fuel i v) = i
   /\ vars (run_loop body maxIter fuel i v) = v)
  \/ ((i < steps (run_loop body maxIter fuel i v))%nat
      /\ iterations (vars (run_loop body maxIter fuel i v))
         = F32.of_Z (Z.of_nat (steps (run_loop body maxIter fuel i v) - 1))).
Proof.
  revert i v. induction fuel as [|fuel IH]; intros i v; cbn [run_loop].
  - intros _. left. split; reflexivity.
  - destruct (F32.geb _ maxIter) eqn:Ecap; [intros _; left; split; reflexivity|].
    destruct (body i v) as [v' esc]. destruct esc; [cbn; congruence|].
    intro H. right.
    destruct (IH (S i) (set_iterations v' (F32.of_Z (Z.of_nat i))) H) as [[Hs Hv]|[Hs Hv]].
    + rewrite Hs, Hv. split; [lia|]. cbn [iterations set_iterations].
      f_equal. f_equal. lia.
    + split; [lia | exact Hv].
Qed.

Lemma run_loop_first_turn body maxIter fuel i v :
  F32.geb (F32.of_Z (Z.of_nat i)) maxIter = false ->
  (i < steps (run_loop body maxIter (S fuel) i v))%nat.
Proof.
  intro H. cbn [run_loop]. rewrite H.
  destruct (body i v) as [v' esc]. destruct esc; [cbn; lia|].
  pose proof (run_loop_steps body maxIter fuel (S i)
                (set_iterations v' (F32.of_Z (Z.of_nat i)))). lia.
Qed.

Lemma F32_of_Z_exact j :
  Z.abs j < 2 ^ 24 ->
  is_finite (F32.of_Z j) = true /\ F32.valid (F32.of_Z j) = true
  /\ F32.units (F32.of_Z j) = j * 2 ^ 149.
Proof.
  intro Hj.
  apply (normalize_exact F32.prec F32.emax F32_prec F32_emax j 0 false);
    unfold F32.prec, F32.emax, emin; lia.
Qed.

Lemma threshold_checked n :
  (1 <= n)%nat -> Z.of_nat n <= 10000 -> threshold_ok n = true.
Proof.
  intros H1 H2.
  assert (H : forallb threshold_ok (seq 1 (Z.to_nat 10000)) = true)
    by (vm_compute; reflexivity).
  rewrite forallb_forall in H. apply H, in_seq. lia.
Qed.

Lemma main_loop_for_not_escaped fuel u fragCoord :
  F32.geb (F32.of_Z (Z.of_nat 0)) (u_maxIter u) = false ->
  exit_by (main_loop_for G (S fuel) u fragCoord) <> Escaped ->
  (1 <= steps (main_loop_for G (S fuel) u fragCoord))%nat
  /\ iterations (vars (main_loop_for G (S fuel) u fragCoord))
     = F32.of_Z (Z.of_nat (steps (main_loop_for G (S fuel) u fragCoord) - 1)).
Proof.
  intros Hc0. unfold main_loop_for.
  generalize (dd_constant u fragCoord). generalize (native_start u fragCoord).
  intros [z0 c] [cx cy]. cbn [fst snd].
  destruct (use_dd_path u); intro Hesc.
  - destruct (run_loop_not_escaped _ _ _ _ _ Hesc) as [[Hs _]|[Hs Hi]].
    + pose proof (run_loop_first_turn (dd_body G cx cy) (u_maxIter u) fuel 0%nat
                    (start_vars (F32.zero, F32.zero)) Hc0). lia.
    + split; [lia | exact Hi].
  - destruct (run_loop_not_escaped _ _ _ _ _ Hesc) as [[Hs _]|[Hs Hi]].
    + pose proof (run_loop_first_turn (native_body G u c) (u_maxIter u) fuel 0%nat
                    (start_vars z0) Hc0). lia.
    + split; [lia | exact Hi].
Qed.

(** X15.  A pixel whose loop is not left through the escape test is left
    with [iterations = steps - 1], one less than the number of turns made,
    so for every cap the validator lets through the interior test
    [iterations >= u_maxIter - 0.5] is false: the interior branch of
    [getColor] is not taken for it and [interiorValue] stays 0.0. *)
Theorem interior_test_never_fires st fragCoord n :
  FractalState.maxIter st = F64.of_Z (Z.of_nat n) ->
  (1 <= n)%nat -> Z.of_nat n <= 10000 ->
  let u := WebGLRenderer.updateUniforms st in
  let r := main_loop G u fragCoord in
  exit_by r <> Escaped ->
  (1 <= steps r <= n)%nat
  /\ iterations (vars r) = F32.of_Z (Z.of_nat (steps r - 1))
  /\ interior_test (iterations (vars r)) (u_maxIter u) = false
  /\ interior_value G u (vars r) = F32.zero.
Proof.
  intros Hst H1 H2 u r Hesc.
  pose proof (threshold_checked n H1 H2) as Hth. unfold threshold_ok in Hth.
  apply andb_true_iff in Hth. destruct Hth as [Hth Hc0].
  apply andb_true_iff in Hth. destruct Hth as [Hth Hu].
  apply andb_true_iff in Hth. destruct Hth as [Hf Hv].
  apply negb_true_iff in Hc0. apply Z.ltb_lt in Hu.
  assert (Hmax : u_maxIter u = F32.of_F64 (F64.of_Z (Z.of_nat n))).
  { subst u. unfold WebGLRenderer.updateUniforms.
    destruct (WebGLRenderer.splitDouble _), (WebGLRenderer.splitDouble _).
    cbn [u_maxIter]. now rewrite Hst. }
  destruct (main_loop_for_steps G structural_bound st fragCoord n H2 Hst)
    as (Hb & Hn & _). fold u in Hb, Hn. fold (main_loop G u fragCoord) in Hb, Hn.
  fold r in Hb, Hn.
  assert (Hr : (1 <= steps r)%nat
               /\ iterations (vars r) = F32.of_Z (Z.of_nat (steps r - 1))).
  { subst r. unfold main_loop in *.
    assert (Eb : structural_bound = S 1999) by reflexivity.
    rewrite Eb in Hesc |- *.
    apply main_loop_for_not_escaped; [now rewrite Hmax | exact Hesc]. }
  destruct Hr as [Hs1 Hit].
  assert (Htest : interior_test (iterations (vars r)) (u_maxIter u) = false).
  { unfold interior_test. rewrite Hit, Hmax.
    set (t := F32.sub (F32.of_F64 (F64.of_Z (Z.of_nat n))) lit_0_5) in *.
    assert (Hj : Z.abs (Z.of_nat (steps r - 1)) < 2 ^ 24).
    { unfold structural_bound in Hb. change (2 ^ 24) with 16777216. lia. }
    destruct (F32_of_Z_exact _ Hj) as (Fj & Vj & Uj).
    unfold F32.geb, F32.leb.
    rewrite (SFleb_Zval F32.prec F32.emax F32_prec) by assumption.
    fold (F32.units t). fold (F32.units (F32.of_Z (Z.of_nat (steps r - 1)))).
    rewrite Uj. apply Z.leb_gt.
    eapply Z.le_lt_trans; [|exact Hu].
    apply Z.mul_le_mono_nonneg_r; [apply Z.pow_nonneg; lia|].
    unfold structural_bound in Hb. lia. }
  repeat split; try assumption; try lia.
  unfold interior_value. unfold interior_test in Htest. now rewrite Htest.
Qed.

End WithMath.

Lemma deep_zoom_constant_is_exact_witness :
  let st := WebGLRenderer.with_view (F64.of_Z 2000000) (F64.of_Z 2) in
  let fragCoord := WebGLRenderer.middle_fragment in
  let u := WebGLRenderer.updateUniforms st in
  let uv := pixel_uv u fragCoord in
  let uvScale := F32.div F32.two (u_zoom u) in
  u_centerLow u = (F32.zero, F32.zero)
  /\ (ddValue (fst (dd_constant u fragCoord))
      == SF2Q (fst (u_center u)) + SF2Q (F32.mul (fst uv) uvScale))%Q
  /\ (ddValue (snd (dd_constant u fragCoord))
      == SF2Q (snd (u_center u)) + SF2Q (F32.mul (snd uv) uvScale))%Q.
Proof.
  intros st fragCoord u uv uvScale.
  apply (deep_zoom_constant_is_exact st fragCoord); vm_compute; reflexivity.
Defined.

Lemma interior_test_never_fires_witness :
  let G := {| glsl_log := fun x => x; glsl_atan := fun x _ => x;
              glsl_pow := fun x _ => x; glsl_cos := fun x => x;
              glsl_sin := fun x => x |} in
  let u := WebGLRenderer.updateUniforms FractalState.DEFAULT_STATE in
  let r := main_loop G u WebGLRenderer.middle_fragment in
  exit_by r <> Escaped
  /\ (1 <= steps r <= 256)%nat
  /\ iterations (vars r) = F32.of_Z (Z.of_nat (steps r - 1))
  /\ interior_test (iterations (vars r)) (u_maxIter u) = false
  /\ interior_value G u (vars r) = F32.zero.
Proof.
  intros G u r.
  assert (H : exit_by r <> Escaped) by (vm_compute; discriminate).
  split; [exact H|].
  apply (interior_test_never_fires G FractalState.DEFAULT_STATE
           WebGLRenderer.middle_fragment 256); [reflexivity | lia | lia | exact H].
Defined.
End ShaderInteriorFacts.

(** ** colorSchemes.js: colour conversions *)

Module ColorFacts.
Import Ascii String.
Import Rounding RoundingFacts FloatValue SpecFloatFacts BinaryRoundFacts CompareFacts.
Import ValidationFacts JsNumber JsString ColorSchemes.

Lemma in_range_list lo n k :
  lo <= k < lo + Z.of_nat n ->
  In k (map (fun i => lo + Z.of_nat i) (seq 0 n)).
Proof.
  intro H. apply in_map_iff. exists (Z.to_nat (k - lo)). split; [lia|].
  apply in_seq. lia.
Qed.

(** A fact checked on every integer of a range holds on the range. *)
Lemma checked_on_range (P : Z -> bool) lo n :
  forallb P (map (fun i => lo + Z.of_nat i) (seq 0 n)) = true ->
  forall k, lo <= k < lo + Z.of_nat n -> P k = true.
Proof.
  intros H k Hk. rewrite forallb_forall in H. apply H. now apply in_range_list.
Qed.

Lemma sf_eqb_eq x y : sf_eqb x y = true -> x = y.
Proof.
  destruct x as [a|a| |a m e], y as [b|b| |b m' e']; cbn; try discriminate;
    try reflexivity.
  - intro H. apply Bool.eqb_prop in H. now subst.
  - intro H. apply Bool.eqb_prop in H. now subst.
  - intro H. apply andb_true_iff in H. destruct H as [H H3].
    apply andb_true_iff in H. destruct H as [H1 H2].
    apply Bool.eqb_prop in H1. apply Pos.eqb_eq in H2. apply Z.eqb_eq in H3.
    now subst.
Qed.

Lemma channel_round_trip n :
  0 <= n <= 255 ->
  Math_round (F64.mul (F64.div (F64.of_Z n) lit_255) lit_255) = F64.of_Z n.
Proof.
  intro Hn. apply sf_eqb_eq.
  apply (checked_on_range
           (fun n => sf_eqb (Math_round (F64.mul (F64.div (F64.of_Z n) lit_255) lit_255))
                            (F64.of_Z n)) 0 256); [vm_compute; reflexivity | lia].
Qed.

Lemma rgb_channels r g b :
  0 <= r <= 255 -> 0 <= g <= 255 -> 0 <= b <= 255 ->
  rgbTo8bit (rgbFromBit (bytes r g b)) = bytes r g b.
Proof.
  intros Hr Hg Hb. unfold rgbTo8bit, rgbFromBit, bytes.
  now rewrite !channel_round_trip.
Qed.

(** X17.  8-bit channels survive the trip through the unit interval:
    [rgbTo8bit(rgbFromBit([r, g, b])) = [r, g, b]] for all integers
    0..255. *)
Theorem rgb_bytes_round_trip r g b :
  0 <= r <= 255 -> 0 <= g <= 255 -> 0 <= b <= 255 ->
  rgbTo8bit (rgbFromBit (bytes r g b)) = bytes r g b.
Proof.
  intros Hr Hg Hb. unfold rgbTo8bit, rgbFromBit, bytes.
  rewrite (channel_round_trip r Hr), (channel_round_trip g Hg).
  now rewrite (channel_round_trip b Hb).
Qed.

Lemma rgb_bytes_round_trip_witness :
  rgbTo8bit (rgbFromBit (bytes 17 128 255)) = bytes 17 128 255.
Proof. apply rgb_bytes_round_trip; lia. Defined.

(** *** Hexadecimal strings *)

Lemma hex_digit_facts d :
  0 <= d < 16 ->
  is_white_space (hex_digit d) = false
  /\ Ascii.eqb (hex_digit d) "-" = false /\ Ascii.eqb (hex_digit d) "+" = false
  /\ Ascii.eqb (hex_digit d) "x" = false /\ Ascii.eqb (hex_digit d) "X" = false
  /\ Ascii.eqb (hex_digit d) "#" = false
  /\ hex_value (hex_digit d) = Some d.
Proof.
  intro Hd.
  pose proof (checked_on_range hex_digit_ok 0 16 ltac:(vm_compute; reflexivity) d
                ltac:(lia)) as H.
  unfold hex_digit_ok in H.
  repeat (apply andb_true_iff in H; let H' := fresh "K" in destruct H as [H H']).
  repeat split; try (now apply negb_true_iff).
  destruct (hex_value (hex_digit d)) as [v|]; [|discriminate].
  apply Z.eqb_eq in K. now subst.
Qed.

Section NumberToString.
Variable fraction_to_string16 : F64.t -> string.

Lemma byte_to_hex n :
  0 <= n <= 255 ->
  padStart2 (toString16 fraction_to_string16 (F64.of_Z n))
  = String (hex_digit (n / 16)) (String (hex_digit (n mod 16)) EmptyString).
Proof.
  intro Hn.
  pose proof (checked_on_range
                (fun n => String.eqb
                            (padStart2 (toString16 fraction_to_string16 (F64.of_Z n)))
                            (String (hex_digit (n / 16))
                               (String (hex_digit (n mod 16)) EmptyString)))
                0 256 ltac:(vm_compute; reflexivity) n ltac:(lia)) as H.
  now apply String.eqb_eq in H.
Qed.
End NumberToString.

Lemma ToInt32_of_Z n : 0 <= n < 2 ^ 31 -> ToInt32 (F64.of_Z n) = n.
Proof.
  intro Hn.
  assert (Hb : Z.abs n < 2 ^ 53) by (change (2 ^ 53) with (2 ^ 22 * 2 ^ 31); lia).
  destruct (of_Z_exact n Hb) as (Fn & Vn & Un).
  assert (P : 0 < 2 ^ 1074) by reflexivity.
  destruct (F64.of_Z n) as [s|s| |s m e]; try discriminate Fn.
  - cbn in Un. cbn [ToInt32]. lia.
  - destruct (valid_mantissa_bound _ _ _ Vn) as [_ He].
    rewrite units_finite in Un.
    assert (Pe : 0 < 2 ^ (e + 1074)) by (apply Z.pow_pos_nonneg; lia).
    destruct s; cbn [cond_Zopp] in Un; [nia|].
    cbn [ToInt32 cond_Zopp].
    assert (Ht : (if 0 <=? e then Zpos m * 2 ^ e else Zpos m / 2 ^ (- e)) = n).
    { destruct (Z.leb_spec 0 e) as [H0|H0].
      - rewrite Z.pow_add_r in Un by lia. nia.
      - assert (Hp : 0 < 2 ^ (- e)) by (apply Z.pow_pos_nonneg; lia).
        assert (E : 2 ^ 1074 = 2 ^ (e + 1074) * 2 ^ (- e)).
        { rewrite <- Z.pow_add_r by lia. f_equal. lia. }
        assert (Hm : Zpos m = n * 2 ^ (- e)) by (rewrite E in Un; nia).
        rewrite Hm. apply Z.div_mul. lia. }
    cbv zeta. rewrite Ht, Z.mod_small by (change (2 ^ 32) with (2 * 2 ^ 31); lia).
    destruct (Z.leb_spec (2 ^ 31) n); [lia | reflexivity].
Qed.

Lemma parse_six d1 d2 d3 d4 d5 d6 :
  0 <= d1 < 16 -> 0 <= d2 < 16 -> 0 <= d3 < 16 ->
  0 <= d4 < 16 -> 0 <= d5 < 16 -> 0 <= d6 < 16 ->
  let hex := String (hex_digit d1) (String (hex_digit d2) (String (hex_digit d3)
               (String (hex_digit d4) (String (hex_digit d5)
                  (String (hex_digit d6) EmptyString))))) in
  parseInt16 hex
  = F64.of_Z (16 * (16 * (16 * (16 * (16 * d1 + d2) + d3) + d4) + d5) + d6).
Proof.
  intros H1 H2 H3 H4 H5 H6 hex. subst hex.
  destruct (hex_digit_facts d1 H1) as (W1 & M1 & P1 & _ & _ & _ & V1).
  destruct (hex_digit_facts d2 H2) as (_ & _ & _ & X2 & Y2 & _ & V2).
  destruct (hex_digit_facts d3 H3) as (_ & _ & _ & _ & _ & _ & V3).
  destruct (hex_digit_facts d4 H4) as (_ & _ & _ & _ & _ & _ & V4).
  destruct (hex_digit_facts d5 H5) as (_ & _ & _ & _ & _ & _ & V5).
  destruct (hex_digit_facts d6 H6) as (_ & _ & _ & _ & _ & _ & V6).
  unfold parseInt16. cbn [trim_start]. rewrite W1. cbn [head_is tail].
  rewrite M1, P1. cbn [orb tail head_is]. rewrite X2, Y2, andb_false_r.
  cbn [parse_hex]. rewrite V1, V2, V3, V4, V5, V6.
  replace (16 * 0 + d1) with d1 by lia.
  destruct (Z.eqb_spec (16 * (16 * (16 * (16 * (16 * d1 + d2) + d3) + d4) + d5) + d6) 0)
    as [E|E]; [now rewrite E | reflexivity].
Qed.

Lemma channels_of_number r g b :
  0 <= r <= 255 -> 0 <= g <= 255 -> 0 <= b <= 255 ->
  let n := F64.of_Z (65536 * r + 256 * g + b) in
  bit_and (shift_right n 16) lit_255 = F64.of_Z r
  /\ bit_and (shift_right n 8) lit_255 = F64.of_Z g
  /\ bit_and n lit_255 = F64.of_Z b.
Proof.
  intros Hr Hg Hb n. subst n.
  assert (E255 : ToInt32 lit_255 = 255) by reflexivity.
  assert (Hn : 0 <= 65536 * r + 256 * g + b < 2 ^ 31)
    by (change (2 ^ 31) with 2147483648; lia).
  unfold bit_and, shift_right. rewrite E255, !(ToInt32_of_Z _ Hn).
  change (Z.land 16 31) with 16. change (Z.land 8 31) with 8.
  rewrite !Z.shiftr_div_pow2 by lia.
  change (2 ^ 16) with 65536. change (2 ^ 8) with 256.
  assert (Q1 : (65536 * r + 256 * g + b) / 65536 = r).
  { symmetry. apply (Z.div_unique _ 65536 r (256 * g + b)); lia. }
  assert (Q2 : (65536 * r + 256 * g + b) / 256 = 256 * r + g).
  { symmetry. apply (Z.div_unique _ 256 (256 * r + g) b); lia. }
  rewrite Q1, Q2.
  rewrite !ToInt32_of_Z by (change (2 ^ 31) with 2147483648; lia).
  change 255 with (Z.ones 8). rewrite !Z.land_ones by lia.
  change (2 ^ 8) with 256.
  repeat split; f_equal.
  - apply Z.mod_small. lia.
  - symmetry. apply (Z.mod_unique _ 256 r g); lia.
  - symmetry. apply (Z.mod_unique _ 256 (256 * r + g) b); lia.
Qed.

(** *** Interpolation *)

Lemma eqb_refl_not_nan x : x <> S754_nan -> F64.eqb x x = true.
Proof.
  intro H. unfold F64.eqb, SFeqb.
  destruct x as [s|s| |s m e]; try congruence; try (destruct s; reflexivity).
  cbn [SFcompare]. destruct s; cbn; rewrite Z.compare_refl, Pos.compare_cont_refl;
    reflexivity.
Qed.

Lemma lerp_at_zero a b :
  is_finite (F64.sub b a) = true -> a <> S754_nan ->
  F64.eqb (lerp a b F64.zero) a = true.
Proof.
  intros Hf Ha. unfold lerp.
  destruct (F64.sub b a) as [s|s| |s m e] eqn:Es; try discriminate Hf.
  - destruct a as [sa|sa| |sa ma ea]; try congruence;
      destruct s, sa; try reflexivity.
    all: try (cbn; now rewrite ?Z.compare_refl, ?Pos.compare_cont_refl).
  - destruct a as [sa|sa| |sa ma ea]; try congruence.
    + destruct s, sa; reflexivity.
    + destruct s, sa; reflexivity.
    + change (F64.mul (S754_finite s m e) F64.zero) with (S754_zero (xorb s false)).
      change (F64.add (S754_finite sa ma ea) (S754_zero (xorb s false)))
        with (S754_finite sa ma ea).
      apply eqb_refl_not_nan. discriminate.
Qed.

(** X21.  Interpolation starts at its first end: [lerp(a, b, 0) === a]
    whenever [b - a] is finite and [a] is not NaN, so [lerpColor] at 0
    gives the first colour, channel by channel. *)
Theorem lerpColor_starts_at_first_colour color1 color2 :
  channels_all (fun a b => is_finite (F64.sub b a) && negb (is_nan a)) color1 color2
  = true ->
  channels_all F64.eqb (lerpColor color1 color2 F64.zero) color1 = true.
Proof.
  destruct color1 as [[r1 g1] b1], color2 as [[r2 g2] b2].
  unfold channels_all, lerpColor. intro H.
  apply andb_true_iff in H. destruct H as [H Hb].
  apply andb_true_iff in H. destruct H as [Hr Hg].
  apply andb_true_iff in Hr, Hg, Hb.
  destruct Hr as [Hr Nr], Hg as [Hg Ng], Hb as [Hb Nb].
  apply negb_true_iff in Nr, Ng, Nb.
  rewrite !lerp_at_zero; try assumption; try reflexivity;
    intro E; subst; discriminate.
Qed.

Lemma lerpColor_starts_at_first_colour_witness :
  channels_all F64.eqb
    (lerpColor (bytes 3 0 255) (bytes 10 0 17) F64.zero) (bytes 3 0 255) = true.
Proof.
  apply lerpColor_starts_at_first_colour. reflexivity.
Defined.

(** The other end is not reached in general: the difference [b - a] is
    rounded, so [lerp(a, b, 1)] can miss [b]. *)
Example lerp_can_miss_second_end :
  let a := F64.of_Z (10 ^ 16) in
  let b := F64.of_Z 1 in
  F64.eqb (lerp a b (F64.of_Z 1)) b = false.
Proof. vm_compute. reflexivity. Qed.

Section HexRoundTrip.
Variable fraction_to_string16 : F64.t -> string.

(** X18.  A colour with 8-bit channels survives the trip through its hex
    string: [rgbToHex] writes [#] and six hex digits, and [hexToRgb] reads
    back the colour it was given. *)
Theorem hex_round_trip r g b :
  0 <= r <= 255 -> 0 <= g <= 255 -> 0 <= b <= 255 ->
  let colour := rgbFromBit (bytes r g b) in
  String.length (rgbToHex fraction_to_string16 colour) = 7%nat
  /\ hexToRgb (rgbToHex fraction_to_string16 colour) = colour.
Proof.
  intros Hr Hg Hb colour. subst colour.
  unfold rgbToHex. rewrite (rgb_channels r g b Hr Hg Hb).
  unfold bytes. rewrite !byte_to_hex by assumption.
  cbn [append String.length]. split; [reflexivity|].
  unfold hexToRgb. cbn [head_is tail]. change (Ascii.eqb "#" "#") with true. cbv iota.
  assert (D : forall n, 0 <= n <= 255 -> 0 <= n / 16 < 16 /\ 0 <= n mod 16 < 16
                                       /\ n = 16 * (n / 16) + n mod 16).
  { intros n Hn. pose proof (Z.div_mod n 16 ltac:(lia)).
    pose proof (Z.mod_pos_bound n 16 ltac:(lia)).
    assert (0 <= n / 16) by (apply Z.div_pos; lia).
    assert (n / 16 < 16) by (apply Z.div_lt_upper_bound; lia). lia. }
  destruct (D r Hr) as (R1 & R2 & R3), (D g Hg) as (G1 & G2 & G3),
    (D b Hb) as (B1 & B2 & B3).
  rewrite (parse_six _ _ _ _ _ _ R1 R2 G1 G2 B1 B2).
  replace (16 * (16 * (16 * (16 * (16 * (r / 16) + r mod 16) + g / 16) + g mod 16)
                 + b / 16) + b mod 16)
    with (65536 * r + 256 * g + b) by lia.
  destruct (channels_of_number r g b Hr Hg Hb) as (C1 & C2 & C3).
  cbv zeta in C1, C2, C3. rewrite C1, C2, C3. reflexivity.
Qed.
End HexRoundTrip.

Lemma hex_round_trip_witness :
  let colour := rgbFromBit (bytes 17 128 255) in
  String.length (rgbToHex (fun _ => EmptyString) colour) = 7%nat
  /\ hexToRgb (rgbToHex (fun _ => EmptyString) colour) = colour.
Proof. apply (hex_round_trip (fun _ => EmptyString) 17 128 255); lia. Defined.
End ColorFacts.

(** ** colorSchemes.js: reading hex texts *)

Module HexTextFacts.
Import Ascii String JsNumber JsString ColorSchemes ColorFacts HexText.

Lemma hex_char_facts c d :
  hex_value c = Some d ->
  0 <= d < 16
  /\ is_white_space c = false
  /\ Ascii.eqb c "-" = false /\ Ascii.eqb c "+" = false
  /\ Ascii.eqb c "x" = false /\ Ascii.eqb c "X" = false
  /\ Ascii.eqb c "#" = false.
Proof.
  intro Hd.
  assert (H : hex_char_ok c = true).
  { clear. destruct c as [[] [] [] [] [] [] [] []]; vm_compute; reflexivity. }
  unfold hex_char_ok in H. rewrite Hd in H.
  repeat (apply andb_true_iff in H; let K := fresh "K" in destruct H as [H K]).
  repeat split; try (now apply negb_true_iff); lia.
Qed.

Lemma parse_hex_text s : forall acc,
  all_hex s = true ->
  parse_hex s acc
  = match s with
    | EmptyString => acc
    | _ => Some (fold_left (fun a d => 16 * a + d) (digit_list s)
                   match acc with Some a => a | None => 0 end)
    end.
Proof.
  induction s as [|c s IH]; intros acc H; [reflexivity|].
  cbn [all_hex] in H. cbn [parse_hex digit_list].
  destruct (hex_value c) as [d|]; [|discriminate].
  rewrite (IH _ H). cbn [fold_left]. destruct s; reflexivity.
Qed.

Lemma digit_list_length s :
  all_hex s = true -> List.length (digit_list s) = String.length s.
Proof.
  induction s as [|c s IH]; [reflexivity|]. cbn [all_hex digit_list String.length].
  destruct (hex_value c); [|discriminate]. intro H. cbn [List.length].
  now rewrite IH.
Qed.

Lemma digit_list_bound s :
  all_hex s = true ->
  0 <= digits_value (digit_list s) < 16 ^ Z.of_nat (String.length s).
Proof.
  unfold digits_value.
  assert (G : forall s a, all_hex s = true -> 0 <= a ->
              0 <= fold_left (fun a d => 16 * a + d) (digit_list s) a
              /\ fold_left (fun a d => 16 * a + d) (digit_list s) a + 1
                 <= (a + 1) * 16 ^ Z.of_nat (String.length s)).
  { clear s. induction s as [|c s IH]; intros a H Ha.
    - cbn. lia.
    - cbn [all_hex] in H. cbn [digit_list String.length].
      destruct (hex_value c) as [d|] eqn:Hc; [|discriminate].
      destruct (hex_char_facts c d Hc) as (Hd & _).
      cbn [fold_left].
      destruct (IH (16 * a + d) H ltac:(lia)) as [I1 I2]. split; [exact I1|].
      rewrite Nat2Z.inj_succ, Z.pow_succ_r by lia.
      assert (0 < 16 ^ Z.of_nat (String.length s)) by (apply Z.pow_pos_nonneg; lia).
      nia. }
  intro H. destruct (G s 0 H ltac:(lia)). lia.
Qed.

Lemma parseInt16_text c s :
  all_hex (String c s) = true ->
  parseInt16 (String c s) = F64.of_Z (digits_value (digit_list (String c s))).
Proof.
  intro H. pose proof H as H'. cbn [all_hex] in H'.
  destruct (hex_value c) as [d|] eqn:Hc; [|discriminate].
  destruct (hex_char_facts c d Hc) as (_ & W1 & M1 & P1 & _).
  unfold parseInt16. cbn [trim_start]. rewrite W1. cbn [head_is tail].
  rewrite M1, P1. cbn [orb].
  assert (E : (Ascii.eqb c "0" && (head_is "x" s || head_is "X" s))%bool = false).
  { destruct s as [|c2 s]; cbn [head_is]; [now rewrite andb_false_r|].
    cbn [all_hex] in H'. destruct (hex_value c2) as [d2|] eqn:Hc2; [|discriminate].
    destruct (hex_char_facts c2 d2 Hc2) as (_ & _ & _ & _ & X2 & Y2 & _).
    now rewrite X2, Y2, andb_false_r. }
  cbn [head_is tail]. rewrite E.
  rewrite (parse_hex_text (String c s) None H). fold (digits_value (digit_list (String c s))).
  destruct (Z.eqb_spec (digits_value (digit_list (String c s))) 0) as [Z0|Z0];
    [now rewrite Z0 | reflexivity].
Qed.

(** X19.  [hexToRgb] reads the digits as ONE number and takes its three
    low bytes: a text of one to six hex digits, in either case and with or
    without [#], is read as if it were padded with zeros on the left.  The
    short form [#abc] is therefore the colour [(0, 10, 188)], not
    [#aabbcc]. *)
Theorem hexToRgb_pads_short_strings s :
  s <> EmptyString -> (String.length s <= 6)%nat -> all_hex s = true ->
  let n := digits_value (digit_list s) in
  let colour := rgbFromBit (bytes (n / 65536) ((n / 256) mod 256) (n mod 256)) in
  hexToRgb (String "#" s) = colour
  /\ hexToRgb s = colour.
Proof.
  intros Hne Hlen Hd n colour. destruct s as [|c s]; [congruence|].
  assert (Hn : 0 <= n < 16777216).
  { pose proof (digit_list_bound _ Hd) as B. fold n in B.
    assert (16 ^ Z.of_nat (String.length (String c s)) <= 16 ^ 6)
      by (apply Z.pow_le_mono_r; lia).
    change (16 ^ 6) with 16777216 in *. lia. }
  assert (Hq : 0 <= n / 65536 <= 255).
  { split; [apply Z.div_pos; lia|].
    assert (n / 65536 < 256) by (apply Z.div_lt_upper_bound; lia). lia. }
  pose proof (Z.mod_pos_bound (n / 256) 256 ltac:(lia)) as Hg.
  pose proof (Z.mod_pos_bound n 256 ltac:(lia)) as Hb.
  assert (En : n = 65536 * (n / 65536) + 256 * ((n / 256) mod 256) + n mod 256).
  { pose proof (Z.div_mod n 256 ltac:(lia)).
    pose proof (Z.div_mod (n / 256) 256 ltac:(lia)).
    assert (n / 256 / 256 = n / 65536) by (rewrite Z.div_div by lia; reflexivity).
    lia. }
  destruct (channels_of_number (n / 65536) ((n / 256) mod 256) (n mod 256)
              Hq ltac:(lia) ltac:(lia)) as (C1 & C2 & C3).
  cbv zeta in C1, C2, C3. rewrite <- En in C1, C2, C3.
  assert (Hh : head_is "#" (String c s) = false).
  { cbn [head_is]. cbn [all_hex] in Hd.
    destruct (hex_value c) as [d|] eqn:Hc; [|discriminate].
    now destruct (hex_char_facts c d Hc) as (_ & _ & _ & _ & _ & _ & Hh). }
  assert (G : hexToRgb (String c s) = colour).
  { unfold hexToRgb. rewrite Hh, (parseInt16_text c s Hd).
    fold n. rewrite C1, C2, C3. reflexivity. }
  split; [|exact G].
  rewrite <- G. unfold hexToRgb at 1. cbn [head_is tail].
  change (Ascii.eqb "#" "#") with true. cbv iota.
  unfold hexToRgb. now rewrite Hh.
Qed.

Lemma hexToRgb_pads_short_strings_witness :
  hexToRgb "#aBc" = rgbFromBit (bytes 0 10 188)
  /\ hexToRgb "aBc" = rgbFromBit (bytes 0 10 188).
Proof.
  apply (hexToRgb_pads_short_strings "aBc");
    [discriminate | cbn; lia | reflexivity].
Defined.

(** X20.  [hexToRgb] never fails: when the text after the optional [#] is
    empty or starts with a character that is neither white space, a sign nor
    a hex digit, [parseInt] gives NaN and the colour is black ([red] and
    [#red] alike). *)
Theorem hexToRgb_of_invalid_text_is_black c rest :
  is_white_space c = false -> c <> "-"%char -> c <> "+"%char ->
  hex_value c = None ->
  hexToRgb (String "#" (String c rest)) = rgbFromBit (bytes 0 0 0)
  /\ (c <> "#"%char -> hexToRgb (String c rest) = rgbFromBit (bytes 0 0 0))
  /\ hexToRgb "#" = rgbFromBit (bytes 0 0 0)
  /\ hexToRgb EmptyString = rgbFromBit (bytes 0 0 0).
Proof.
  intros W M P V.
  assert (E : parseInt16 (String c rest) = S754_nan).
  { unfold parseInt16. cbn [trim_start]. rewrite W. cbn [head_is].
    apply Ascii.eqb_neq in M, P. rewrite M, P. cbn [orb].
    assert (Z0 : (Ascii.eqb c "0" = false)).
    { apply Ascii.eqb_neq. intros ->. discriminate V. }
    cbn [head_is tail]. rewrite Z0. cbn [andb parse_hex]. now rewrite V. }
  split; [|split; [|split; reflexivity]].
  - unfold hexToRgb. cbn [head_is tail]. change (Ascii.eqb "#" "#") with true.
    cbv iota. rewrite E. reflexivity.
  - intro Hh. unfold hexToRgb. cbn [head_is]. apply Ascii.eqb_neq in Hh.
    rewrite Hh, E. reflexivity.
Qed.

Lemma hexToRgb_of_invalid_text_is_black_witness :
  hexToRgb "#red" = rgbFromBit (bytes 0 0 0)
  /\ hexToRgb "red" = rgbFromBit (bytes 0 0 0)
  /\ hexToRgb "#" = rgbFromBit (bytes 0 0 0)
  /\ hexToRgb EmptyString = rgbFromBit (bytes 0 0 0).
Proof.
  destruct (hexToRgb_of_invalid_text_is_black "r" "ed")
    as (H1 & H2 & H3 & H4); [reflexivity | discriminate | discriminate | reflexivity|].
  split; [exact H1|]. split; [apply H2; discriminate|]. split; [exact H3 | exact H4].
Defined.
End HexTextFacts.
